(** * Gobang (five-in-a-row): rules engine and heuristic opponent

    A shallow embedding of [src/core/Game.ts] (class [Game]) and
    [src/core/AI.ts] (class [AI]), with the types of [src/types/game.ts].

    Conventions of the embedding.
    - JavaScript integers (rows, columns, sizes, move numbers, times) are
      [Z]: the code compares and stores them, and does no arithmetic on
      them that could round.
    - The move counter of a player is a JavaScript number that the code
      increments and decrements; it is a binary64 float here, and [++] and
      [--] are the binary64 sum and difference, which round from [2^53] on
      and on counters that are not integers.
    - The heuristic score of the normal tier is a JavaScript number that is
      not an integer ([centerDistance * 0.1]); it is modelled with Rocq's
      primitive binary64 floats, the arithmetic JavaScript itself uses.
    - A board is an array of arrays, [list (list (option Stone))]: [None] is
      the empty cell [null].  Reading [board[r][c]] gives
      [option (option Stone)], where the outer [None] is [undefined].
    - A method that mutates [this] takes the engine and returns the new one
      (explicit state passing); a method that also returns a value returns
      a pair.
    - [Date.now()] is an input of [placeStone], the random index of the
      easy tier an input of [getNextMove]. *)

From Stdlib Require Import ZArith Lia Bool String Floats.
From stdpp Require Import base decidable option list.

Local Open Scope Z_scope.

(** ** Types ([src/types/game.ts]) *)

Inductive Stone := black | white.

Record Position := mkPosition { row : Z; col : Z }.

Inductive GameMode := pvp | pve.

Inductive GameStatus := playing | blackWin | whiteWin | draw | paused.

Inductive GameDifficulty := easy | normal | hard.

Record HistoryItem := mkHistoryItem {
  position : Position;
  stone : Stone;
  moveNumber : Z;
  timestamp : Z
}.

Record Player := mkPlayer {
  name : string;
  playerStone : Stone;
  timeUsed : Z;
  moveCount : float
}.

Record GameConfig := mkGameConfig {
  boardSize : Z;
  winCount : Z;
  gameMode : GameMode;
  difficulty : option GameDifficulty;
  timeLimit : option Z
}.

(** [Partial<GameConfig>]: every field may be absent. *)
Record PartialGameConfig := mkPartialGameConfig {
  boardSize_opt : option Z;
  winCount_opt : option Z;
  gameMode_opt : option GameMode;
  difficulty_opt : option GameDifficulty;
  timeLimit_opt : option Z
}.

(** [Partial<Player>]. *)
Record PartialPlayer := mkPartialPlayer {
  name_opt : option string;
  playerStone_opt : option Stone;
  timeUsed_opt : option Z;
  moveCount_opt : option float
}.

Definition DEFAULT_BOARD_SIZE : Z := 15.
Definition DEFAULT_WIN_COUNT : Z := 5.

#[global] Instance Stone_eq_dec : EqDecision Stone.
Proof. solve_decision. Defined.
#[global] Instance Position_eq_dec : EqDecision Position.
Proof. solve_decision. Defined.
#[global] Instance GameStatus_eq_dec : EqDecision GameStatus.
Proof. solve_decision. Defined.
#[global] Instance GameMode_eq_dec : EqDecision GameMode.
Proof. solve_decision. Defined.

(** ** Boards *)

Abbreviation Board := (list (list (option Stone))).

(** [board[r][c]].  The source reads a cell only after the guard
    [r >= 0 && r < size && c >= 0 && c < size] ([isValidPosition] and the
    conditions of the [while] loops); a read outside the arrays is
    [undefined], the outer [None]. *)
Definition cellAt (b : Board) (r c : Z) : option (option Stone) :=
  if decide (0 <= r ∧ 0 <= c)
  then b !! Z.to_nat r ≫= λ rw, rw !! Z.to_nat c
  else None.

(** [board[r][c] = v].  The source writes to cells of the grid only: the
    cell [placeStone] has just accepted, the cell of a log entry, a
    position of [getEmptyPositions].  Outside the arrays (where JavaScript
    would throw on a missing row, or grow the row) the model leaves the
    board as it is. *)
Definition setCell (b : Board) (r c : Z) (v : option Stone) : Board :=
  if decide (0 <= r ∧ 0 <= c)
  then alter (λ rw, <[Z.to_nat c := v]> rw) (Z.to_nat r) b
  else b.

(** [r >= 0 && r < size && c >= 0 && c < size]. *)
Definition inBounds (size r c : Z) : bool :=
  (0 <=? r) && (r <? size) && (0 <=? c) && (c <? size).

(** The four axes, each as its two opposite directions [[dr, dc]], in the
    order of the source: horizontal, vertical, main diagonal, anti-diagonal. *)
Definition directions : list (list (Z * Z)) :=
  [ [(0, 1); (0, -1)];
    [(1, 0); (-1, 0)];
    [(1, 1); (-1, -1)];
    [(1, -1); (-1, 1)] ].

(** ** The engine ([src/core/Game.ts]) *)

Record Players := mkPlayers { players_black : Player; players_white : Player }.

Record Game := mkGame {
  board : Board;
  currentPlayer : Stone;
  gameStatus : GameStatus;
  winningPositions : option (list Position);
  history : list HistoryItem;
  lastMove : option Position;
  config : GameConfig;
  players : Players
}.

Definition set_board (g : Game) (b : Board) : Game :=
  mkGame b (currentPlayer g) (gameStatus g) (winningPositions g) (history g)
         (lastMove g) (config g) (players g).
Definition set_currentPlayer (g : Game) (s : Stone) : Game :=
  mkGame (board g) s (gameStatus g) (winningPositions g) (history g)
         (lastMove g) (config g) (players g).
Definition set_gameStatus (g : Game) (st : GameStatus) : Game :=
  mkGame (board g) (currentPlayer g) st (winningPositions g) (history g)
         (lastMove g) (config g) (players g).
Definition set_winningPositions (g : Game) (w : option (list Position)) : Game :=
  mkGame (board g) (currentPlayer g) (gameStatus g) w (history g)
         (lastMove g) (config g) (players g).
Definition set_history (g : Game) (h : list HistoryItem) : Game :=
  mkGame (board g) (currentPlayer g) (gameStatus g) (winningPositions g) h
         (lastMove g) (config g) (players g).
Definition set_lastMove (g : Game) (m : option Position) : Game :=
  mkGame (board g) (currentPlayer g) (gameStatus g) (winningPositions g)
         (history g) m (config g) (players g).
Definition set_players (g : Game) (ps : Players) : Game :=
  mkGame (board g) (currentPlayer g) (gameStatus g) (winningPositions g)
         (history g) (lastMove g) (config g) ps.

(** [this.players[stone]]. *)
Definition playerOf (ps : Players) (s : Stone) : Player :=
  match s with black => players_black ps | white => players_white ps end.

Definition set_moveCount (p : Player) (k : float) : Player :=
  mkPlayer (name p) (playerStone p) (timeUsed p) k.

(** An integer as a JavaScript number (exact below [2^53] in absolute
    value, which covers every row, column, size and position value). *)
Definition numberOfZ (z : Z) : float :=
  if z <? 0 then PrimFloat.opp (PrimFloat.of_uint63 (Uint63.of_Z (- z)))
  else PrimFloat.of_uint63 (Uint63.of_Z z).

(** [x++] ([d = 1]) and [x--] ([d = -1]) on a JavaScript number: [x + 1]
    and [x - 1] in binary64. *)
Definition stepNumber (x : float) (d : Z) : float :=
  if d <? 0 then PrimFloat.sub x (numberOfZ (- d)) else PrimFloat.add x (numberOfZ d).

(** [this.players[s].moveCount++] ([d = 1]) and
    [this.players[s].moveCount--] ([d = -1]). *)
Definition addMoveCount (ps : Players) (s : Stone) (d : Z) : Players :=
  match s with
  | black => mkPlayers (set_moveCount (players_black ps)
                                      (stepNumber (moveCount (players_black ps)) d))
                       (players_white ps)
  | white => mkPlayers (players_black ps)
                       (set_moveCount (players_white ps)
                                      (stepNumber (moveCount (players_white ps)) d))
  end.

(** [{ boardSize: 15, winCount: 5, gameMode: 'pvp', difficulty: 'easy', ...config }]. *)
Definition mergeConfig (cfg : option PartialGameConfig) : GameConfig :=
  match cfg with
  | None => mkGameConfig DEFAULT_BOARD_SIZE DEFAULT_WIN_COUNT pvp (Some easy) None
  | Some c =>
      mkGameConfig (default DEFAULT_BOARD_SIZE (boardSize_opt c))
                   (default DEFAULT_WIN_COUNT (winCount_opt c))
                   (default pvp (gameMode_opt c))
                   (Some (default easy (difficulty_opt c)))
                   (timeLimit_opt c)
  end.

(** [Array(n).fill(null).map(() => Array(n).fill(null))]. *)
Definition emptyBoard (n : Z) : Board :=
  replicate (Z.to_nat n) (replicate (Z.to_nat n) None).

Definition initialPlayers (m : GameMode) : Players :=
  mkPlayers
    (mkPlayer (if decide (m = pve) then "玩家" else "黑棋玩家") black 0 0%float)
    (mkPlayer (if decide (m = pve) then "电脑" else "白棋玩家") white 0 0%float).

(** [new Game(config)].  [Array(n)] throws a [RangeError] unless [n] is an
    array length, [0 <= n < 2^32]; that is the only way the constructor
    fails, and it is [None] here.  Nothing else about the configuration is
    looked at. *)
Definition constructor (cfg : option PartialGameConfig) : option Game :=
  let c := mergeConfig cfg in
  if decide (0 <= boardSize c ∧ boardSize c < 4294967296)
  then Some (mkGame (emptyBoard (boardSize c)) black playing None [] None c
                    (initialPlayers (gameMode c)))
  else None.

Definition getConfig (g : Game) : GameConfig := config g.

(** [getBoard]: a copy, row by row. *)
Definition getBoard (g : Game) : Board := map (λ rw, rw) (board g).

Definition updatePlayerInfo (g : Game) (s : Stone) (info : PartialPlayer) : Game :=
  let upd p :=
    mkPlayer (default (name p) (name_opt info))
             (default (playerStone p) (playerStone_opt info))
             (default (timeUsed p) (timeUsed_opt info))
             (default (moveCount p) (moveCount_opt info)) in
  match s with
  | black => set_players g (mkPlayers (upd (players_black (players g))) (players_white (players g)))
  | white => set_players g (mkPlayers (players_black (players g)) (upd (players_white (players g))))
  end.

Definition isValidPosition (g : Game) (p : Position) : bool :=
  (0 <=? row p) && (row p <? boardSize (config g)) &&
  (0 <=? col p) && (col p <? boardSize (config g)).

(** The [while] loop of [checkWin]: from [(r, c)], step by [(dr, dc)] while
    the cell is on the board and holds [stone], pushing each position and
    incrementing [count].  [fuel] bounds the number of iterations; the loop
    leaves the board after at most [boardSize] of them
    (see [scanLine_fuel]). *)
Fixpoint scanLine (fuel : nat) (size : Z) (b : Board) (stone : option (option Stone))
    (dr dc r c : Z) (positions : list Position) (count : Z) : list Position * Z :=
  match fuel with
  | O => (positions, count)
  | S fuel' =>
      if inBounds size r c && bool_decide (cellAt b r c = stone)
      then scanLine fuel' size b stone dr dc (r + dr) (c + dc)
                    (positions ++ [mkPosition r c]) (count + 1)
      else (positions, count)
  end.

(** One iteration of [for (const direction of directions)] in [checkWin],
    up to the test on [count]: the positions gathered on the axis and
    their number. *)
Definition checkAxis (g : Game) (lastPosition : Position) (direction : list (Z * Z))
    : list Position * Z :=
  let stone := cellAt (board g) (row lastPosition) (col lastPosition) in
  fold_left
    (λ st d,
       scanLine (Z.to_nat (boardSize (config g))) (boardSize (config g)) (board g) stone
                d.1 d.2 (row lastPosition + d.1) (col lastPosition + d.2) st.1 st.2)
    direction
    ([mkPosition (row lastPosition) (col lastPosition)], 1).

Fixpoint checkWin_loop (g : Game) (lastPosition : Position) (dirs : list (list (Z * Z)))
    : bool * Game :=
  match dirs with
  | [] => (false, g)
  | direction :: rest =>
      let pc := checkAxis g lastPosition direction in
      if winCount (config g) <=? pc.2
      then (true, set_winningPositions g (Some pc.1))
      else checkWin_loop g lastPosition rest
  end.

Definition checkWin (g : Game) (lastPosition : Position) : bool * Game :=
  checkWin_loop g lastPosition directions.

(** [isDraw]: the first [null] cell in row-major order returns [false]. *)
Definition isDraw (g : Game) : bool :=
  forallb (λ r, forallb (λ c, negb (bool_decide (cellAt (board g) r c = Some None)))
                        (seqZ 0 (boardSize (config g))))
          (seqZ 0 (boardSize (config g))).

Definition getEmptyPositions (g : Game) : list Position :=
  r ← seqZ 0 (boardSize (config g));
  c ← seqZ 0 (boardSize (config g));
  if bool_decide (cellAt (board g) r c = Some None) then [mkPosition r c] else [].

Definition placeStone (g : Game) (p : Position) (now : Z) : bool * Game :=
  if negb (isValidPosition g p) then (false, g)
  else if negb (bool_decide (cellAt (board g) (row p) (col p) = Some None)) then (false, g)
  else if negb (bool_decide (gameStatus g = playing)) then (false, g)
  else
    let historyItem :=
      mkHistoryItem p (currentPlayer g) (Z.of_nat (length (history g)) + 1) now in
    let g1 := set_board g (setCell (board g) (row p) (col p) (Some (currentPlayer g))) in
    let g2 := set_lastMove g1 (Some p) in
    let g3 := set_history g2 (history g2 ++ [historyItem]) in
    let g4 := set_players g3 (addMoveCount (players g3) (currentPlayer g3) 1) in
    let wg := checkWin g4 p in
    if wg.1
    then (true, set_gameStatus wg.2
                  (if decide (currentPlayer wg.2 = black) then blackWin else whiteWin))
    else if isDraw wg.2 then (true, set_gameStatus wg.2 draw)
    else (true, set_currentPlayer wg.2
                  (if decide (currentPlayer wg.2 = black) then white else black)).

(** [undo].  [history.pop()] is [last]/[removelast]; the test
    [history.length > 0] after the pop is the [match] on the new tail. *)
Definition undo (g : Game) : bool * Game :=
  if bool_decide (length (history g) = 0%nat) then (false, g)
  else if negb (bool_decide (gameStatus g = playing)) then (false, g)
  else
    match last (history g) with
    | None => (false, g)
    | Some lastHistoryItem =>
        let g1 := set_history g (removelast (history g)) in
        let g2 := set_board g1 (setCell (board g1) (row (position lastHistoryItem))
                                        (col (position lastHistoryItem)) None) in
        let g3 := set_players g2 (addMoveCount (players g2) (stone lastHistoryItem) (-1)) in
        match last (history g3) with
        | Some prevHistoryItem =>
            (true, set_currentPlayer (set_lastMove g3 (Some (position prevHistoryItem)))
                                     (stone lastHistoryItem))
        | None => (true, set_currentPlayer (set_lastMove g3 None) black)
        end
    end.

Definition reset (g : Game) : Game :=
  let z p := mkPlayer (name p) (playerStone p) 0 0%float in
  mkGame (emptyBoard (boardSize (config g))) black playing None [] None (config g)
         (mkPlayers (z (players_black (players g))) (z (players_white (players g)))).

Definition setGameStatus (g : Game) (st : GameStatus) : Game := set_gameStatus g st.

(** ** The heuristic opponent ([src/core/AI.ts]) *)

Record AI := mkAI {
  game : Game;
  aiDifficulty : GameDifficulty;
  aiStone : Stone
}.

(** [board.length]. *)
Definition boardLength (b : Board) : Z := Z.of_nat (length b).

Definition createBoardCopy (b : Board) : Board := map (λ rw, rw) b.

(** [this.aiStone === 'black' ? 'white' : 'black'], also used by the engine
    to switch players. *)
Definition opponentOf (s : Stone) : Stone :=
  if decide (s = black) then white else black.

(** The [while] loop of [checkWinAt]: only [count] is kept. *)
Fixpoint countLine (fuel : nat) (b : Board) (s : Stone) (dr dc r c : Z) (count : Z) : Z :=
  match fuel with
  | O => count
  | S fuel' =>
      if inBounds (boardLength b) r c && bool_decide (cellAt b r c = Some (Some s))
      then countLine fuel' b s dr dc (r + dr) (c + dc) (count + 1)
      else count
  end.

Definition countAxis (b : Board) (p : Position) (s : Stone) (direction : list (Z * Z)) : Z :=
  fold_left
    (λ count d, countLine (length b) b s d.1 d.2 (row p + d.1) (col p + d.2) count)
    direction 1.

Fixpoint checkWinAt_loop (b : Board) (p : Position) (s : Stone) (winCount : Z)
    (dirs : list (list (Z * Z))) : bool :=
  match dirs with
  | [] => false
  | direction :: rest =>
      if winCount <=? countAxis b p s direction then true
      else checkWinAt_loop b p s winCount rest
  end.

Definition checkWinAt (b : Board) (p : Position) (s : Stone) (winCount : Z) : bool :=
  checkWinAt_loop b p s winCount directions.

(** The [while] loop of [evaluatePosition]: [consecutives] and the cell
    [(r, c)] the walk stopped at, which the open-end test reads next. *)
Fixpoint evalWalk (fuel : nat) (b : Board) (s : Stone) (dr dc r c : Z) (consecutives : Z)
    : Z * (Z * Z) :=
  match fuel with
  | O => (consecutives, (r, c))
  | S fuel' =>
      if inBounds (boardLength b) r c && bool_decide (cellAt b r c = Some (Some s))
      then evalWalk fuel' b s dr dc (r + dr) (c + dc) (consecutives + 1)
      else (consecutives, (r, c))
  end.

(** One axis of [evaluatePosition]: [(count, openEnds)] after both directions. *)
Definition evalAxis (b : Board) (p : Position) (s : Stone) (direction : list (Z * Z)) : Z * Z :=
  fold_left
    (λ st d,
       let w := evalWalk (length b) b s d.1 d.2 (row p + d.1) (col p + d.2) 0 in
       let openEnds :=
         if inBounds (boardLength b) w.2.1 w.2.2 &&
            bool_decide (cellAt b w.2.1 w.2.2 = Some None)
         then st.2 + 1 else st.2 in
       (st.1 + w.1, openEnds))
    direction (1, 0).

(** The [if]/[else if] ladder of [evaluatePosition]. *)
Definition axisScore (count openEnds : Z) : Z :=
  if 5 <=? count then 100000
  else if count =? 4 then
    (if openEnds =? 2 then 10000 else if openEnds =? 1 then 1000 else 0)
  else if count =? 3 then
    (if openEnds =? 2 then 500 else if openEnds =? 1 then 100 else 0)
  else if count =? 2 then
    (if openEnds =? 2 then 50 else if openEnds =? 1 then 10 else 0)
  else 0.

Definition evaluatePosition (b : Board) (p : Position) (s : Stone) : Z :=
  fold_left
    (λ score direction,
       let ce := evalAxis b p s direction in score + axisScore ce.1 ce.2)
    directions 0.

(** The simulation loop shared by [getNormalMove], [findWinningMoves] and
    [findBlockingMoves]: place [s] on the working copy, test, take it off
    again.  [searchWin] is the variant that returns at the first hit; the
    working copy is threaded through because [getNormalMove] reuses it for
    its second loop. *)
Fixpoint searchWin (boardCopy : Board) (s : Stone) (winCount : Z) (ps : list Position)
    : option Position * Board :=
  match ps with
  | [] => (None, boardCopy)
  | pos :: rest =>
      let placed := setCell boardCopy (row pos) (col pos) (Some s) in
      if checkWinAt placed pos s winCount then (Some pos, placed)
      else searchWin (setCell placed (row pos) (col pos) None) s winCount rest
  end.

(** The variant that collects every hit ([findWinningMoves],
    [findBlockingMoves]). *)
Fixpoint collectWins (boardCopy : Board) (s : Stone) (winCount : Z) (ps : list Position)
    (found : list Position) : list Position :=
  match ps with
  | [] => found
  | pos :: rest =>
      let placed := setCell boardCopy (row pos) (col pos) (Some s) in
      let found' := if checkWinAt placed pos s winCount then found ++ [pos] else found in
      collectWins (setCell placed (row pos) (col pos) None) s winCount rest found'
  end.

(** The literal [0.1]: the binary64 number nearest to one tenth. *)
Definition oneTenth : float := 0x1.999999999999ap-4%float.

(** [Math.abs(pos.row - board.length / 2) + Math.abs(pos.col - board.length / 2)]:
    [/] is the division of numbers, nothing rounds the quotient. *)
Definition centerDistance (b : Board) (pos : Position) : float :=
  let half := PrimFloat.div (numberOfZ (boardLength b)) (numberOfZ 2) in
  PrimFloat.add (PrimFloat.abs (PrimFloat.sub (numberOfZ (row pos)) half))
                (PrimFloat.abs (PrimFloat.sub (numberOfZ (col pos)) half)).

(** The body of the third loop of [getNormalMove], up to the comparison. *)
Definition scoreOf (b : Board) (mover : Stone) (pos : Position) : float :=
  let score0 := numberOfZ 0 in
  let score1 := PrimFloat.add score0 (numberOfZ (evaluatePosition b pos mover)) in
  let score2 := PrimFloat.sub score1 (numberOfZ (evaluatePosition b pos (opponentOf mover))) in
  PrimFloat.sub score2 (PrimFloat.mul (centerDistance b pos) oneTenth).

(** The third loop of [getNormalMove] on the state [(bestScore, bestMove)];
    [score pos] is the value the body has computed when it reaches the
    comparison [score > bestScore]. *)
Definition bestMove_loop (score : Position → float) (ps : list Position)
    (st : float * option Position) : float * option Position :=
  fold_left
    (λ st pos, if PrimFloat.ltb st.1 (score pos) then (score pos, Some pos) else st)
    ps st.

(** [let bestScore = -Infinity; let bestMove = emptyPositions[0]; for ...]. *)
Definition scoredFallback (b : Board) (mover : Stone) (emptyPositions : list Position)
    : option Position :=
  (bestMove_loop (scoreOf b mover) emptyPositions (neg_infinity, head emptyPositions)).2.

(** [getNormalMove].  The result is [None] only for [emptyPositions[0]] of
    an empty list, [undefined] in the source. *)
Definition getNormalMove (ai : AI) (b : Board) (emptyPositions : list Position)
    : option Position :=
  let cfg := getConfig (game ai) in
  let boardCopy := createBoardCopy b in
  let first := searchWin boardCopy (aiStone ai) (winCount cfg) emptyPositions in
  match first.1 with
  | Some pos => Some pos
  | None =>
      let opponentStone := opponentOf (aiStone ai) in
      let second := searchWin first.2 opponentStone (winCount cfg) emptyPositions in
      match second.1 with
      | Some pos => Some pos
      | None => scoredFallback b (aiStone ai) emptyPositions
      end
  end.

Definition findWinningMoves (ai : AI) (b : Board) (emptyPositions : list Position)
    : list Position :=
  collectWins (createBoardCopy b) (aiStone ai) (winCount (getConfig (game ai)))
              emptyPositions [].

Definition findBlockingMoves (ai : AI) (b : Board) (emptyPositions : list Position)
    : list Position :=
  collectWins (createBoardCopy b) (opponentOf (aiStone ai)) (winCount (getConfig (game ai)))
              emptyPositions [].

Definition getHardMove (ai : AI) (b : Board) (emptyPositions : list Position)
    : option Position :=
  let bestMove := getNormalMove ai b emptyPositions in
  let winningMoves := findWinningMoves ai b emptyPositions in
  let blockingMoves := findBlockingMoves ai b emptyPositions in
  match winningMoves with
  | w :: _ => Some w
  | [] =>
      match blockingMoves with
      | k :: _ => Some k
      | [] => bestMove
      end
  end.

(** [getRandomMove]: the index [Math.floor(Math.random() * length)] is an
    input. *)
Definition getRandomMove (emptyPositions : list Position) (randomIndex : nat)
    : option Position :=
  emptyPositions !! randomIndex.

(** [getNextMove]: [None] is [null]. *)
Definition getNextMove (ai : AI) (randomIndex : nat) : option Position :=
  let b := getBoard (game ai) in
  let emptyPositions := getEmptyPositions (game ai) in
  if bool_decide (length emptyPositions = 0%nat) then None
  else if bool_decide (Z.of_nat (length emptyPositions) = boardLength b * boardLength b)
  then
    let center := boardLength b / 2 in   (* Math.floor(board.length / 2) *)
    Some (mkPosition center center)
  else
    match aiDifficulty ai with
    | easy => getRandomMove emptyPositions randomIndex
    | normal => getNormalMove ai b emptyPositions
    | hard => getHardMove ai b emptyPositions
    end.

(** ** Vocabulary of the specification *)

(** The number of iterations of a guarded walk: how many cells, starting at
    [(r, c)] and stepping by [(dr, dc)], satisfy [cond] before the first
    one that does not.  The three [while] loops of the source are this
    walk with different bookkeeping. *)
Fixpoint steps (fuel : nat) (cond : Z → Z → bool) (dr dc r c : Z) : nat :=
  match fuel with
  | O => O
  | S fuel' => if cond r c then S (steps fuel' cond dr dc (r + dr) (c + dc)) else O
  end.

(** The cells [(r, c)], [(r + dr, c + dc)], ... ([k] of them). *)
Definition ray (dr dc r c : Z) (k : nat) : list Position :=
  (λ t, mkPosition (r + t * dr) (c + t * dc)) <$> seqZ 0 (Z.of_nat k).

(** [(dr, dc)] is one of the eight unit directions. *)
Definition unitDirection (dr dc : Z) : Prop :=
  -1 <= dr <= 1 ∧ -1 <= dc <= 1 ∧ (dr ≠ 0 ∨ dc ≠ 0).

Inductive Axis := horizontal | vertical | mainDiagonal | antiDiagonal.

Definition axes : list Axis := [horizontal; vertical; mainDiagonal; antiDiagonal].

(** The forward direction of an axis. *)
Definition axisDir (a : Axis) : Z * Z :=
  match a with
  | horizontal => (0, 1)
  | vertical => (1, 0)
  | mainDiagonal => (1, 1)
  | antiDiagonal => (1, -1)
  end.

(** An axis as the source writes it: forward, then backward. *)
Definition axisDirections (a : Axis) : list (Z * Z) :=
  [axisDir a; (- (axisDir a).1, - (axisDir a).2)].

(** The rank of an axis in the order the source checks them. *)
Definition axisRank (a : Axis) : nat :=
  match a with horizontal => 0 | vertical => 1 | mainDiagonal => 2 | antiDiagonal => 3 end.

(** The cell [t] steps from [p] along axis [a] ([t] may be negative). *)
Definition along (a : Axis) (p : Position) (t : Z) : Position :=
  mkPosition (row p + t * (axisDir a).1) (col p + t * (axisDir a).2).

(** Cell [q] is on the [size] x [size] board and holds stone [s]. *)
Definition holds (size : Z) (b : Board) (s : Stone) (q : Position) : Prop :=
  inBounds size (row q) (col q) = true ∧ cellAt b (row q) (col q) = Some (Some s).

(** A contiguous run of [s] through [p] along [a]: [i] cells forward and
    [j] cells backward of [p], and [p] itself. *)
Definition runThrough (size : Z) (b : Board) (s : Stone) (a : Axis) (p : Position)
    (i j : nat) : Prop :=
  ∀ t : Z, - Z.of_nat j <= t <= Z.of_nat i → holds size b s (along a p t).

(** Axis [a] reaches [w]: some contiguous run of [s] through [p] along [a]
    has at least [w] stones. *)
Definition axisReaches (size : Z) (b : Board) (s : Stone) (a : Axis) (p : Position) (w : Z)
    : Prop :=
  ∃ i j : nat, runThrough size b s a p i j ∧ w <= Z.of_nat i + Z.of_nat j + 1.

(** [a] is the first axis, in the order of the source, that reaches [w]. *)
Definition firstReaching (size : Z) (b : Board) (s : Stone) (p : Position) (w : Z) (a : Axis)
    : Prop :=
  axisReaches size b s a p w ∧
  ∀ a', (axisRank a' < axisRank a)%nat → ¬ axisReaches size b s a' p w.

(** The cells of axis [a] from [j] steps behind [p] to [i] steps ahead. *)
Definition segment (a : Axis) (p : Position) (i j : nat) : list Position :=
  along a p <$> seqZ (- Z.of_nat j) (Z.of_nat i + Z.of_nat j + 1).

(** [l] is, up to order, a gap-free stretch of axis [a] around [p]. *)
Definition contiguousLine (a : Axis) (p : Position) (l : list Position) : Prop :=
  ∃ i j : nat, l ≡ₚ segment a p i j.

Definition winStatus (s : Stone) : GameStatus :=
  match s with black => blackWin | white => whiteWin end.

Definition isWin (st : GameStatus) : Prop := st = blackWin ∨ st = whiteWin.

(** The number of non-empty cells of a board. *)
Definition countStones (b : Board) : nat :=
  length (filter (λ c : option Stone, is_Some c) (concat b)).

(** Every cell of the [size] x [size] grid holds a stone. *)
Definition allOccupied (size : Z) (b : Board) : Prop :=
  ∀ r c, 0 <= r < size → 0 <= c < size → ∃ s, cellAt b r c = Some (Some s).

(** The board is the [boardSize] x [boardSize] grid the constructor built. *)
Definition boardSquare (g : Game) : Prop :=
  0 <= boardSize (config g) ∧
  length (board g) = Z.to_nat (boardSize (config g)) ∧
  Forall (λ rw, length rw = Z.to_nat (boardSize (config g))) (board g).

(** The colour that moves when [k] stones are on the board. *)
Definition playerAtMove (k : nat) : Stone := if Nat.even k then black else white.

(** The states of an engine: what the constructor builds and what the
    public methods make of it.  [setGameStatus] takes part the way its one
    caller uses it ([togglePause] in [main.ts]): [playing] to [paused] and
    back. *)
Inductive reachable : Game → Prop :=
  | reach_new cfg g : constructor cfg = Some g → reachable g
  | reach_place g p now : reachable g → reachable (placeStone g p now).2
  | reach_undo g : reachable g → reachable (undo g).2
  | reach_reset g : reachable g → reachable (reset g)
  | reach_update g s info : reachable g → reachable (updatePlayerInfo g s info)
  | reach_pause g :
      reachable g → gameStatus g = playing → reachable (setGameStatus g paused)
  | reach_resume g :
      reachable g → gameStatus g = paused → reachable (setGameStatus g playing).

(** A sequence of [placeStone] calls, with the number of those that
    returned [true]. *)
Fixpoint placeAll (g : Game) (calls : list (Position * Z)) : Game * nat :=
  match calls with
  | [] => (g, O)
  | (p, now) :: rest =>
      let r := placeStone g p now in
      let r' := placeAll r.2 rest in
      (r'.1, ((if r.1 then 1 else 0) + r'.2)%nat)
  end.

(** The guard of the [while] loop of [checkWin] when the last stone is
    at [p]: on the board, and the same content as the cell at [p]. *)
Definition sameAsAt (n : Z) (b : Board) (p : Position) : Z → Z → bool :=
  λ r c, inBounds n r c && bool_decide (cellAt b r c = cellAt b (row p) (col p)).

(** How far the two walks of [checkWin] get from [p] along axis [a]. *)
Definition forwardRun (n : Z) (b : Board) (a : Axis) (p : Position) : nat :=
  steps (Z.to_nat n) (sameAsAt n b p) (axisDir a).1 (axisDir a).2
        (row p + (axisDir a).1) (col p + (axisDir a).2).

Definition backwardRun (n : Z) (b : Board) (a : Axis) (p : Position) : nat :=
  steps (Z.to_nat n) (sameAsAt n b p) (- (axisDir a).1) (- (axisDir a).2)
        (row p + - (axisDir a).1) (col p + - (axisDir a).2).

(** The engine right after [placeStone] has written the stone, the last
    move, the log entry and the move counter, before it looks at the
    outcome. *)
Definition stonePlaced (g : Game) (p : Position) (now : Z) : Game :=
  mkGame (setCell (board g) (row p) (col p) (Some (currentPlayer g)))
         (currentPlayer g) (gameStatus g) (winningPositions g)
         (history g ++ [mkHistoryItem p (currentPlayer g) (Z.of_nat (length (history g)) + 1) now])
         (Some p) (config g)
         (addMoveCount (players g) (currentPlayer g) 1).

(** The test [count >= winCount] of [checkWin] for one axis. *)
Definition axisWins (g : Game) (p : Position) (a : Axis) : bool :=
  winCount (config g) <=? (checkAxis g p (axisDirections a)).2.

(** What every state of an engine satisfies. *)
Record invariant (g : Game) : Prop := mkInvariant {
  inv_square : boardSquare g;
  inv_line : gameStatus g = playing ∨ gameStatus g = paused → winningPositions g = None;
  inv_count : countStones (board g) = length (history g);
  inv_last : lastMove g = position <$> last (history g);
  inv_turns : ∀ k item, history g !! k = Some item → stone item = playerAtMove k;
  inv_player :
    gameStatus g = playing ∨ gameStatus g = paused →
    currentPlayer g = playerAtMove (length (history g));
  inv_distinct : NoDup (position <$> history g);
  inv_cells :
    ∀ item, item ∈ history g →
      ∃ s, cellAt (board g) (row (position item)) (col (position item)) = Some (Some s)
}.

(** The guard of the [while] loops of the opponent: on the board (of side
    [board.length]) and holding [s]. *)
Definition holdsAt (b : Board) (s : Stone) : Z → Z → bool :=
  λ r c, inBounds (boardLength b) r c && bool_decide (cellAt b r c = Some (Some s)).

(** Walking outward from [p] in direction [(dr, dc)], exactly [k] cells in
    a row hold [s]: the cells 1 to [k] steps from [p] do, the next one
    does not ([p] itself is not looked at). *)
Definition consecutive (b : Board) (s : Stone) (p : Position) (dr dc : Z) (k : nat) : Prop :=
  (∀ t : Z, 1 <= t <= Z.of_nat k → holdsAt b s (row p + t * dr) (col p + t * dc) = true) ∧
  holdsAt b s (row p + (Z.of_nat k + 1) * dr) (col p + (Z.of_nat k + 1) * dc) = false.

(** The far end of such a walk, the cell just beyond the [k] stones, is
    open: on the board and empty.  As a number, 1 or 0. *)
Definition openEnd (b : Board) (p : Position) (dr dc : Z) (k : nat) : Z :=
  if inBounds (boardLength b) (row p + (Z.of_nat k + 1) * dr) (col p + (Z.of_nat k + 1) * dc) &&
     bool_decide (cellAt b (row p + (Z.of_nat k + 1) * dr) (col p + (Z.of_nat k + 1) * dc)
                  = Some None)
  then 1 else 0.

(** The table of the specification: points for a run length and a number
    of open ends. *)
Definition tableValue (run openEnds : Z) : Z :=
  if decide (5 <= run) then 100000
  else match run, openEnds with
       | 4, 2 => 10000
       | 4, 1 => 1000
       | 3, 2 => 500
       | 3, 1 => 100
       | 2, 2 => 50
       | 2, 1 => 10
       | _, _ => 0
       end.

(** Placing [s] at [pos] on [b] would complete a line for [s]: the test
    the simulation loops make for one position. *)
Definition winsAt (b : Board) (s : Stone) (winCount : Z) (pos : Position) : bool :=
  checkWinAt (setCell b (row pos) (col pos) (Some s)) pos s winCount.

(** All of [ps] are empty cells of [b]. *)
Definition allEmpty (b : Board) (ps : list Position) : Prop :=
  Forall (λ pos, cellAt b (row pos) (col pos) = Some None) ps.

(** The first position, in the order of [ps], whose score no position of
    [ps] exceeds. *)
Definition firstMaximum (score : Position → float) (ps : list Position) : option Position :=
  let scored := (λ p, (p, score p)) <$> ps in
  fst <$> head (filter (λ x, forallb (λ y, negb (PrimFloat.ltb x.2 y.2)) scored = true)
                       scored).

(** The score as the specification words it: the distance is the Manhattan
    distance to the centre cell [(boardSize/2, boardSize/2)], with integer
    division. *)
Definition claimedCenterDistance (b : Board) (pos : Position) : Z :=
  Z.abs (row pos - boardLength b / 2) + Z.abs (col pos - boardLength b / 2).

Definition claimedScore (b : Board) (mover : Stone) (pos : Position) : float :=
  PrimFloat.sub
    (PrimFloat.sub (numberOfZ (evaluatePosition b pos mover))
                   (numberOfZ (evaluatePosition b pos (opponentOf mover))))
    (PrimFloat.mul oneTenth (numberOfZ (claimedCenterDistance b pos))).

(** The property of the pair [placeStone]; [undo] that the specification
    states: [undo] succeeds and gives back the board, the log, the player
    to move and the last move. *)
Definition undoRestores (g : Game) (p : Position) (now : Z) : Prop :=
  let g1 := (placeStone g p now).2 in
  (undo g1).1 = true ∧
  board (undo g1).2 = board g ∧
  history (undo g1).2 = history g ∧
  currentPlayer (undo g1).2 = currentPlayer g ∧
  lastMove (undo g1).2 = lastMove g.

(** The property of the constructor that the specification states for a
    configuration: it is rejected, or the engine ends up with
    [boardSize >= winCount]. *)
Definition rejectsOrClamps (cfg : option PartialGameConfig) : Prop :=
  match constructor cfg with
  | None => True
  | Some g => winCount (config g) <= boardSize (config g)
  end.

(** ** Example states *)

(** [new Game()]. *)
Definition defaultGame : Game :=
  mkGame (emptyBoard 15) black playing None [] None
         (mkGameConfig 15 5 pvp (Some easy) None) (initialPlayers pvp).

(** A run of [placeStone] calls, all at time [0]. *)
Definition playMoves (g : Game) (ps : list Position) : Game :=
  fold_left (λ g p, (placeStone g p 0).2) ps g.

(** The first eight moves of the scenario of the specification: black has
    (7,7) to (7,10), white (0,0) to (3,3); black is to move. *)
Definition eightMoves : Game :=
  playMoves defaultGame
    [mkPosition 7 7; mkPosition 0 0; mkPosition 7 8; mkPosition 1 1;
     mkPosition 7 9; mkPosition 2 2; mkPosition 7 10; mkPosition 3 3].

(** A 3 x 3 board with a connection length of 5, one cell left: (2,2). *)
Definition smallConfig : option PartialGameConfig :=
  Some (mkPartialGameConfig (Some 3) (Some 5) None None None).

Definition smallGame : Game :=
  mkGame (emptyBoard 3) black playing None [] None
         (mkGameConfig 3 5 pvp (Some easy) None) (initialPlayers pvp).

Definition almostFull : Game :=
  playMoves smallGame
    [mkPosition 0 0; mkPosition 0 1; mkPosition 0 2; mkPosition 1 0;
     mkPosition 1 1; mkPosition 1 2; mkPosition 2 0; mkPosition 2 1].

(** Black has opened at the centre of the default board; the opponent
    plays white at the normal tier, as [main.ts] sets it up. *)
Definition afterCenter : Game := playMoves defaultGame [mkPosition 7 7].

Definition whiteNormal : AI := mkAI afterCenter normal white.

(** The scenario of the specification played to its end: black has made
    five in a row with (7,11). *)
Definition wonGame : Game := (placeStone eightMoves (mkPosition 7 11) 0).2.

(** ** The rest of the engine, of the opponent, and their callers *)

From stdpp Require Import sorting.

Local Open Scope Z_scope.

(** The getters of [Game]; [getHistory] and [getPlayers] return copies. *)
Definition getCurrentPlayer (g : Game) : Stone := currentPlayer g.
Definition getGameStatus (g : Game) : GameStatus := gameStatus g.
Definition getWinningPositions (g : Game) : option (list Position) := winningPositions g.
Definition getHistory (g : Game) : list HistoryItem := map (λ item, item) (history g).
Definition getLastMove (g : Game) : option Position := lastMove g.
Definition getPlayers (g : Game) : Players :=
  mkPlayers (players_black (players g)) (players_white (players g)).

(** [new AI(game, aiStone = 'white', difficulty = 'easy')] and
    [setDifficulty]. *)
Definition newAI (g : Game) (s : option Stone) (d : option GameDifficulty) : AI :=
  mkAI g (default easy d) (default white s).

Definition setDifficulty (ai : AI) (d : GameDifficulty) : AI :=
  mkAI (game ai) d (aiStone ai).

(** The log has an entry that put stone [s] on the cell [(r, c)]. *)
Definition logEntry (g : Game) (r c : Z) (s : Stone) : Prop :=
  ∃ item, item ∈ history g ∧ position item = mkPosition r c ∧ stone item = s.

(** What every state of an engine satisfies beyond [invariant]: the board
    is what the log says, the log is numbered from 1, a win comes with its
    line and its winner, and while nobody has won no line is on the
    board. *)
Record logInvariant (g : Game) : Prop := mkLogInvariant {
  log_base : invariant g;
  log_board : ∀ r c s, cellAt (board g) r c = Some (Some s) ↔ logEntry g r c s;
  log_numbers : ∀ k item, history g !! k = Some item → moveNumber item = Z.of_nat k + 1;
  log_win :
    isWin (gameStatus g) →
    gameStatus g = winStatus (currentPlayer g) ∧
    ∃ l item,
      winningPositions g = Some l ∧
      last (history g) = Some item ∧
      stone item = currentPlayer g ∧
      position item ∈ l ∧
      (∃ a, contiguousLine a (position item) l) ∧
      winCount (config g) <= Z.of_nat (length l) ∧
      ∀ q, q ∈ l → holds (boardSize (config g)) (board g) (currentPlayer g) q;
  log_running :
    ¬ isWin (gameStatus g) →
    winningPositions g = None ∧
    ∀ s a p, ¬ axisReaches (boardSize (config g)) (board g) s a p (winCount (config g));
  log_draw : gameStatus g = draw → getEmptyPositions g = []
}.

(** Row-major order of positions: the order in which the nested loops of
    [getEmptyPositions] and [isDraw] visit the cells. *)
Definition rowMajor (p q : Position) : Prop :=
  row p < row q ∨ (row p = row q ∧ col p < col q).

(** The states of an engine on which [updatePlayerInfo] was never called,
    from the state [g0] on. *)
Inductive played (g0 : Game) : Game → Prop :=
  | played_start : played g0 g0
  | played_place g p now : played g0 g → played g0 (placeStone g p now).2
  | played_undo g : played g0 g → played g0 (undo g).2
  | played_reset g : played g0 g → played g0 (reset g)
  | played_pause g :
      played g0 g → gameStatus g = playing → played g0 (setGameStatus g paused)
  | played_resume g :
      played g0 g → gameStatus g = paused → played g0 (setGameStatus g playing).

(** [k] calls of [undo] in a row. *)
Fixpoint undoTimes (k : nat) (g : Game) : Game :=
  match k with
  | O => g
  | S k' => undoTimes k' (undo g).2
  end.

(** The number of log entries of colour [s]. *)
Definition countMoves (s : Stone) (h : list HistoryItem) : nat :=
  length (filter (λ item, stone item = s) h).

(** ** Move counters

    The binary64 number of the integer [q * 2^0], written with a mantissa
    of 53 bits: [q] shifted left until it has 53 bits, and the exponent
    that undoes the shift. *)
Definition shiftP (q : positive) (k : nat) : positive := Nat.iter k xO q.

Definition SFint (s : bool) (q : positive) : spec_float :=
  S754_finite s (shiftP q (Z.to_nat (53 - Zpos (Pos.size q)))) (Zpos (Pos.size q) - 53).

Definition signedInt (s : bool) (q : positive) : Z := if s then Zneg q else Zpos q.

(** The move counters of both players hold integers that [room] more
    increments, and any decrement down to [-2^53 + 1], leave exact:
    integers [z] with [-2^53 < z] and [z + room < 2^53]. *)
Definition safeCounters (g : Game) (room : Z) : Prop :=
  ∀ s, ∃ z, moveCount (playerOf (players g) s) = numberOfZ z ∧
            - 2 ^ 53 < z ∧ z + room < 2 ^ 53.

(** A 3 x 3 engine with a connection length of 1, and one of 3. *)
Definition quickGame : Game :=
  mkGame (emptyBoard 3) black playing None [] None
         (mkGameConfig 3 1 pvp (Some easy) None) (initialPlayers pvp).

Definition tinyGame : Game :=
  mkGame (emptyBoard 3) black playing None [] None
         (mkGameConfig 3 3 pvp (Some easy) None) (initialPlayers pvp).

(** Five moves on [tinyGame]: black (0,0), (0,1), (2,2), white (1,0),
    (1,1); white is to move and completes its row at (1,2). *)
Definition tinyRace : Game :=
  playMoves tinyGame
    [mkPosition 0 0; mkPosition 1 0; mkPosition 0 1; mkPosition 1 1; mkPosition 2 2].

(** Three moves on [tinyGame]: black (0,0), (0,1), white (2,1); white is
    to move, has no winning cell, and black threatens (0,2). *)
Definition tinyThreat : Game :=
  playMoves tinyGame [mkPosition 0 0; mkPosition 2 1; mkPosition 0 1].

(** ** The controller ([src/main.ts], class [GameController])

    The part of the controller that is game logic: the engine, the
    opponent, the statistics and the review cursor.  The page, the sounds
    and the timers are left out; a handler is what it does to this state.
    The [AI] object holds a reference to the engine, the object that
    [this.game] refers to as well ([resetGame] replaces the two together):
    the state keeps the colour and the tier of the opponent, and the
    opponent reads the engine of the controller. *)

Record Statistics := mkStatistics {
  totalGames : Z;
  blackWins : Z;
  whiteWins : Z;
  draws : Z
}.

Record GameController := mkGameController {
  ctlGame : Game;
  ctlAi : option (Stone * GameDifficulty);
  statistics : Statistics;
  isReviewMode : bool;
  reviewHistory : list HistoryItem;
  reviewIndex : Z
}.

Definition withGame (c : GameController) (g : Game) : GameController :=
  mkGameController g (ctlAi c) (statistics c) (isReviewMode c) (reviewHistory c)
                   (reviewIndex c).

Definition withReviewIndex (c : GameController) (i : Z) : GameController :=
  mkGameController (ctlGame c) (ctlAi c) (statistics c) (isReviewMode c) (reviewHistory c) i.

(** [this.ai], when it is not [null]. *)
Definition theAI (c : GameController) : option AI :=
  (λ sd : Stone * GameDifficulty, mkAI (ctlGame c) sd.2 sd.1) <$> ctlAi c.

(** The callbacks [setupTimers] gives to the timers of the two players:
    [this.game.updatePlayerInfo(stone, { timeUsed: time })].  They run
    between the handlers, and while [makeAIMove] waits. *)
Definition timeUsedInfo (time : Z) : PartialPlayer :=
  mkPartialPlayer None None (Some time) None.

Definition onTimeUpdate (c : GameController) (s : Stone) (time : Z) : GameController :=
  withGame c (updatePlayerInfo (ctlGame c) s (timeUsedInfo time)).

(** A sequence of timer callbacks, each with its colour and its time: on
    the controller, and what it does to the engine. *)
Definition timerTicks (c : GameController) (ticks : list (Stone * Z)) : GameController :=
  fold_left (λ c' st, onTimeUpdate c' st.1 st.2) ticks c.

Definition timeUpdates (g : Game) (ticks : list (Stone * Z)) : Game :=
  fold_left (λ g' st, updatePlayerInfo g' st.1 (timeUsedInfo st.2)) ticks g.

(** [{ ...this.players[s], timeUsed: time }] put back in [this.players]. *)
Definition withTimeUsed (ps : Players) (s : Stone) (time : Z) : Players :=
  let upd p := mkPlayer (name p) (playerStone p) time (moveCount p) in
  match s with
  | black => mkPlayers (upd (players_black ps)) (players_white ps)
  | white => mkPlayers (players_black ps) (upd (players_white ps))
  end.

(** [handleGameEnd]: the statistics. *)
Definition handleGameEnd (c : GameController) (status : GameStatus) : GameController :=
  let st := statistics c in
  let total := totalGames st + 1 in
  let st' :=
    match status with
    | blackWin => mkStatistics total (blackWins st + 1) (whiteWins st) (draws st)
    | whiteWin => mkStatistics total (blackWins st) (whiteWins st + 1) (draws st)
    | _ => mkStatistics total (blackWins st) (whiteWins st) (draws st + 1)
    end in
  mkGameController (ctlGame c) (ctlAi c) st' (isReviewMode c) (reviewHistory c)
                   (reviewIndex c).

(** [handleCellClick].  [makeAIMove] is asynchronous (it waits half a
    second first): the click returns before the reply is made, and the
    second component says that a reply has been scheduled. *)
Definition handleCellClick (c : GameController) (row col : Z) (now : Z)
    : GameController * bool :=
  let position := mkPosition row col in
  if bool_decide (is_Some (ctlAi c)) && bool_decide (getCurrentPlayer (ctlGame c) = white)
  then (c, false)
  else
    let r := placeStone (ctlGame c) position now in
    let c1 := withGame c r.2 in
    if r.1 then
      let status := getGameStatus (ctlGame c1) in
      if negb (bool_decide (status = playing)) then (handleGameEnd c1 status, false)
      else if bool_decide (is_Some (ctlAi c1)) &&
              bool_decide (getCurrentPlayer (ctlGame c1) = white)
      then (c1, true)
      else (c1, false)
    else (c1, false).

(** [makeAIMove], after its delay.  Without an opponent ([this.ai!] on
    [null]) the call throws before it has changed anything. *)
Definition makeAIMove (c : GameController) (randomIndex : nat) (now : Z) : GameController :=
  match theAI c with
  | None => c
  | Some ai =>
      match getNextMove ai randomIndex with
      | None => c
      | Some position =>
          let r := placeStone (ctlGame c) position now in
          let c1 := withGame c r.2 in
          if r.1 then
            let status := getGameStatus (ctlGame c1) in
            if negb (bool_decide (status = playing)) then handleGameEnd c1 status else c1
          else c1
      end
  end.

(** [undoMove]: with an opponent, a second [undo] takes back the move
    before. *)
Definition undoMove (c : GameController) : GameController :=
  let r := undo (ctlGame c) in
  let c1 := withGame c r.2 in
  if r.1 then
    if bool_decide (is_Some (ctlAi c1)) &&
       bool_decide (0 < length (getHistory (ctlGame c1)))%nat
    then withGame c1 (undo (ctlGame c1)).2
    else c1
  else c1.

(** [togglePause]. *)
Definition togglePause (c : GameController) : GameController :=
  let currentStatus := getGameStatus (ctlGame c) in
  if bool_decide (currentStatus = playing)
  then withGame c (setGameStatus (ctlGame c) paused)
  else if bool_decide (currentStatus = paused)
  then withGame c (setGameStatus (ctlGame c) playing)
  else c.

(** [startReview].  The board it clears is the copy [getBoard] returned;
    the engine keeps its own. *)
Definition startReview (c : GameController) : GameController :=
  let h := getHistory (ctlGame c) in
  if bool_decide (length h = 0%nat) then c
  else mkGameController (ctlGame c) (ctlAi c) (statistics c) true h 0.

(** The loop of [replayToStep] writes the first [reviewIndex] entries to
    a copy of the board that nothing reads afterwards.  What is left of it
    is whether it throws: on an entry that is not there, or on a row that
    the board does not have. *)
Definition replayThrows (c : GameController) : bool :=
  negb (forallb
          (λ i, match reviewHistory c !! i with
                | Some item =>
                    bool_decide (0 <= row (position item) <
                                 boardLength (getBoard (ctlGame c)))
                | None => false
                end)
          (seq 0 (Z.to_nat (reviewIndex c)))).

(** [replayToStep]: it writes [lastMove] of the engine directly. *)
Definition replayToStep (c : GameController) : GameController :=
  if replayThrows c then c
  else if 0 <? reviewIndex c then
    match reviewHistory c !! Z.to_nat (reviewIndex c - 1) with
    | Some lastItem => withGame c (set_lastMove (ctlGame c) (Some (position lastItem)))
    | None => c
    end
  else withGame c (set_lastMove (ctlGame c) None).

Definition prevStep (c : GameController) : GameController :=
  if 0 <? reviewIndex c then replayToStep (withReviewIndex c (reviewIndex c - 1)) else c.

Definition nextStep (c : GameController) : GameController :=
  if reviewIndex c <? Z.of_nat (length (reviewHistory c))
  then replayToStep (withReviewIndex c (reviewIndex c + 1))
  else c.

(** The statistics after a finished game was booked for [status]. *)
Definition booked (st : Statistics) (status : GameStatus) : Statistics :=
  match status with
  | blackWin => mkStatistics (totalGames st + 1) (blackWins st + 1) (whiteWins st) (draws st)
  | whiteWin => mkStatistics (totalGames st + 1) (blackWins st) (whiteWins st + 1) (draws st)
  | draw => mkStatistics (totalGames st + 1) (blackWins st) (whiteWins st) (draws st + 1)
  | _ => st
  end.

(** From [c] to [c'] the statistics have booked what happened to the
    game: nothing when no stone was placed or the game goes on, and one
    game for the winner, or one draw, when the stone ended it. *)
Definition countedOnce (c c' : GameController) : Prop :=
  (ctlGame c' = ctlGame c ∧ statistics c' = statistics c) ∨
  (ctlGame c' ≠ ctlGame c ∧
   gameStatus (ctlGame c') ≠ paused ∧
   statistics c' = booked (statistics c) (gameStatus (ctlGame c'))).

(** A controller in the mode against the opponent, as [resetGame('pve')]
    sets it up, on the 3 x 3 engine [tinyGame]. *)
Definition tinyController : GameController :=
  mkGameController tinyGame (Some (white, normal)) (mkStatistics 0 0 0 0) false [] 0.

(** [updateUI]: the two flags it computes for the buttons,
    [undoBtn.disabled] and [pauseBtn.disabled]. *)
Definition undoBtnDisabled (c : GameController) : bool :=
  bool_decide (length (getHistory (ctlGame c)) = 0%nat) ||
  negb (bool_decide (getGameStatus (ctlGame c) = playing)).

Definition pauseBtnDisabled (c : GameController) : bool :=
  bool_decide (getGameStatus (ctlGame c) = blackWin) ||
  bool_decide (getGameStatus (ctlGame c) = whiteWin) ||
  bool_decide (getGameStatus (ctlGame c) = draw).
(** * Verification *)

(** ** Cells *)

Lemma cellAt_Some (b : Board) r c v :
  cellAt b r c = Some v →
  0 <= r ∧ 0 <= c ∧ ∃ rw, b !! Z.to_nat r = Some rw ∧ rw !! Z.to_nat c = Some v.
Proof.
  unfold cellAt. case_decide as H; [|done].
  destruct (b !! Z.to_nat r) as [rw|] eqn:E; simpl; [|done].
  intros Hc. destruct H. eauto 6.
Qed.

Lemma cellAt_setCell_eq (b : Board) r c v x :
  cellAt b r c = Some x → cellAt (setCell b r c v) r c = Some v.
Proof.
  intros (Hr & Hc & rw & Hrw & Hx)%cellAt_Some.
  unfold cellAt, setCell. rewrite !decide_True by done.
  rewrite list_lookup_alter_eq, Hrw. simpl.
  apply list_lookup_insert_eq. by eapply lookup_lt_Some.
Qed.

Lemma cellAt_setCell_ne (b : Board) r c v r' c' :
  (r, c) ≠ (r', c') → cellAt (setCell b r c v) r' c' = cellAt b r' c'.
Proof.
  intros Hne. unfold cellAt, setCell.
  destruct (decide (0 <= r' ∧ 0 <= c')) as [[? ?]|]; [|done].
  destruct (decide (0 <= r ∧ 0 <= c)) as [[? ?]|]; [|done].
  destruct (decide (r = r')) as [->|Hr].
  - rewrite list_lookup_alter_eq. destruct (b !! Z.to_nat r') as [rw|]; simpl; [|done].
    apply list_lookup_insert_ne. intros E. apply Hne. f_equal. lia.
  - rewrite list_lookup_alter_ne by lia. done.
Qed.

Lemma setCell_id (b : Board) r c v : cellAt b r c = Some v → setCell b r c v = b.
Proof.
  intros (Hr & Hc & rw & Hrw & Hx)%cellAt_Some.
  unfold setCell. rewrite decide_True by done.
  apply list_eq. intros i. destruct (decide (i = Z.to_nat r)) as [->|].
  - rewrite list_lookup_alter_eq, Hrw. simpl. by rewrite list_insert_id.
  - by rewrite list_lookup_alter_ne.
Qed.

Lemma setCell_setCell (b : Board) r c v v' :
  setCell (setCell b r c v) r c v' = setCell b r c v'.
Proof.
  unfold setCell. case_decide; [|done].
  rewrite list_alter_alter_eq. apply list_alter_ext; [|done].
  intros rw _. simpl. apply list_insert_insert_eq.
Qed.

Lemma length_setCell (b : Board) r c v : length (setCell b r c v) = length b.
Proof. unfold setCell. case_decide; [|done]. apply length_alter. Qed.

Lemma Forall_length_setCell (b : Board) r c v n :
  Forall (λ rw, length rw = n) b → Forall (λ rw, length rw = n) (setCell b r c v).
Proof.
  rewrite !Forall_lookup. intros H i rw. unfold setCell. case_decide; [|apply H].
  destruct (decide (i = Z.to_nat r)) as [->|].
  - rewrite list_lookup_alter_eq. destruct (b !! Z.to_nat r) as [rw0|] eqn:E; simpl; [|done].
    intros [= <-]. rewrite length_insert. eauto.
  - rewrite list_lookup_alter_ne by done. apply H.
Qed.

Lemma inBounds_true size r c :
  inBounds size r c = true ↔ 0 <= r < size ∧ 0 <= c < size.
Proof. unfold inBounds. rewrite !andb_true_iff. lia. Qed.

Lemma createBoardCopy_id (b : Board) : createBoardCopy b = b.
Proof. unfold createBoardCopy. apply map_id. Qed.

Lemma getBoard_board g : getBoard g = board g.
Proof. unfold getBoard. apply map_id. Qed.

(** ** The guarded walk *)

Lemma steps_le fuel cond dr dc r c : (steps fuel cond dr dc r c <= fuel)%nat.
Proof.
  revert r c. induction fuel as [|fuel IH]; intros r c; simpl; [lia|].
  destruct (cond r c); [|lia]. specialize (IH (r + dr) (c + dc)). lia.
Qed.

(** Every cell the walk went over satisfies the guard. *)
Lemma steps_within fuel cond dr dc r c (t : nat) :
  (t < steps fuel cond dr dc r c)%nat →
  cond (r + Z.of_nat t * dr) (c + Z.of_nat t * dc) = true.
Proof.
  revert r c t. induction fuel as [|fuel IH]; intros r c t; simpl; [lia|].
  destruct (cond r c) eqn:E; [|lia].
  destruct t as [|t]; intros Ht.
  - by replace (r + Z.of_nat 0 * dr) with r by lia;
      replace (c + Z.of_nat 0 * dc) with c by lia.
  - specialize (IH (r + dr) (c + dc) t ltac:(lia)).
    by replace (r + Z.of_nat (S t) * dr) with (r + dr + Z.of_nat t * dr) by lia;
      replace (c + Z.of_nat (S t) * dc) with (c + dc + Z.of_nat t * dc) by lia.
Qed.

(** A walk that stopped before its fuel ran out stopped at a cell that
    fails the guard. *)
Lemma steps_stop_lt fuel cond dr dc r c :
  (steps fuel cond dr dc r c < fuel)%nat →
  cond (r + Z.of_nat (steps fuel cond dr dc r c) * dr)
       (c + Z.of_nat (steps fuel cond dr dc r c) * dc) = false.
Proof.
  revert r c. induction fuel as [|fuel IH]; intros r c; simpl; [lia|].
  destruct (cond r c) eqn:E; intros Hlt.
  - specialize (IH (r + dr) (c + dc) ltac:(lia)).
    set (k := steps fuel cond dr dc (r + dr) (c + dc)) in *.
    by replace (r + Z.of_nat (S k) * dr) with (r + dr + Z.of_nat k * dr) by lia;
      replace (c + Z.of_nat (S k) * dc) with (c + dc + Z.of_nat k * dc) by lia.
  - by replace (r + Z.of_nat 0 * dr) with r by lia;
      replace (c + Z.of_nat 0 * dc) with c by lia.
Qed.

(** Fuel adequacy: along a unit direction a guard that implies being on
    the [size] x [size] board fails within [size] steps, so a walk with at
    least that much fuel always ends at a cell that fails the guard. *)
Lemma steps_stop fuel size cond dr dc r c :
  unitDirection dr dc →
  (∀ r c, cond r c = true → inBounds size r c = true) →
  size <= Z.of_nat fuel →
  cond (r + Z.of_nat (steps fuel cond dr dc r c) * dr)
       (c + Z.of_nat (steps fuel cond dr dc r c) * dc) = false.
Proof.
  intros (Hdr & Hdc & Hnz) Hin Hfuel.
  pose proof (steps_le fuel cond dr dc r c) as Hle.
  destruct (decide (steps fuel cond dr dc r c < fuel)%nat) as [Hlt|Hge];
    [by apply steps_stop_lt|].
  assert (steps fuel cond dr dc r c = fuel) as Hk by lia. rewrite Hk.
  destruct (cond (r + Z.of_nat fuel * dr) (c + Z.of_nat fuel * dc)) eqn:E; [|done].
  exfalso. apply Hin, inBounds_true in E.
  destruct fuel as [|fuel]; [lia|].
  pose proof (steps_within (S fuel) cond dr dc r c 0 ltac:(lia)) as H0.
  apply Hin, inBounds_true in H0.
  assert (dr = -1 ∨ dr = 0 ∨ dr = 1) as [-> | [-> | ->]] by lia;
    assert (dc = -1 ∨ dc = 0 ∨ dc = 1) as [-> | [-> | ->]] by lia; lia.
Qed.

(** The walk is determined by its two properties. *)
Lemma steps_unique fuel cond dr dc r c (k : nat) :
  (∀ t : nat, (t < k)%nat → cond (r + Z.of_nat t * dr) (c + Z.of_nat t * dc) = true) →
  cond (r + Z.of_nat k * dr) (c + Z.of_nat k * dc) = false →
  cond (r + Z.of_nat (steps fuel cond dr dc r c) * dr)
       (c + Z.of_nat (steps fuel cond dr dc r c) * dc) = false →
  steps fuel cond dr dc r c = k.
Proof.
  intros Hall Hk Hstop.
  destruct (lt_eq_lt_dec (steps fuel cond dr dc r c) k) as [[Hlt|Heq]|Hgt]; [|done|].
  - rewrite (Hall _ Hlt) in Hstop. done.
  - rewrite (steps_within _ _ _ _ _ _ _ Hgt) in Hk. done.
Qed.

(** More fuel than the side of the board changes nothing. *)
Lemma steps_fuel fuel extra size cond dr dc r c :
  unitDirection dr dc →
  (∀ r c, cond r c = true → inBounds size r c = true) →
  size <= Z.of_nat fuel →
  steps (fuel + extra) cond dr dc r c = steps fuel cond dr dc r c.
Proof.
  intros Hunit Hin Hfuel. apply steps_unique.
  - intros t Ht. exact (steps_within fuel cond dr dc r c t Ht).
  - by apply (steps_stop fuel size).
  - apply (steps_stop (fuel + extra) size); [done|done|lia].
Qed.

Lemma ray_S dr dc r c k :
  ray dr dc r c (S k) = mkPosition r c :: ray dr dc (r + dr) (c + dc) k.
Proof.
  unfold ray. rewrite seqZ_cons by lia. simpl.
  f_equal; [f_equal; lia|].
  replace (Z.pred (Z.of_nat (S k))) with (Z.of_nat k) by lia.
  replace (Z.succ 0) with (1 + 0) by lia.
  rewrite <- fmap_add_seqZ, <- list_fmap_compose.
  apply list_fmap_ext. intros _ t _. simpl. f_equal; lia.
Qed.

Lemma length_ray dr dc r c k : length (ray dr dc r c k) = k.
Proof. unfold ray. rewrite length_fmap, length_seqZ. lia. Qed.

Lemma elem_of_ray dr dc r c k q :
  q ∈ ray dr dc r c k ↔
  ∃ t : nat, (t < k)%nat ∧ q = mkPosition (r + Z.of_nat t * dr) (c + Z.of_nat t * dc).
Proof.
  unfold ray. rewrite list_elem_of_fmap. split.
  - intros (t & -> & Ht). apply elem_of_seqZ in Ht.
    exists (Z.to_nat t). split; [lia|]. by rewrite Z2Nat.id by lia.
  - intros (t & Ht & ->). exists (Z.of_nat t). split; [done|].
    apply elem_of_seqZ. lia.
Qed.

(** The loop of [checkWin] is the walk, collecting the cells it passes. *)
Lemma scanLine_steps fuel size b stone dr dc r c positions count :
  let k := steps fuel (λ r c, inBounds size r c && bool_decide (cellAt b r c = stone))
                 dr dc r c in
  scanLine fuel size b stone dr dc r c positions count =
  (positions ++ ray dr dc r c k, count + Z.of_nat k).
Proof.
  revert r c positions count. induction fuel as [|fuel IH]; intros r c positions count; simpl.
  - unfold ray. simpl. rewrite app_nil_r. f_equal. lia.
  - destruct (inBounds size r c && bool_decide (cellAt b r c = stone)).
    + rewrite IH. rewrite ray_S, <- app_assoc. simpl. f_equal. lia.
    + unfold ray. simpl. rewrite app_nil_r. f_equal. lia.
Qed.

(** The loop of [checkWinAt] is the walk, counting. *)
Lemma countLine_steps fuel b s dr dc r c count :
  countLine fuel b s dr dc r c count =
  count + Z.of_nat (steps fuel (λ r c, inBounds (boardLength b) r c &&
                                     bool_decide (cellAt b r c = Some (Some s)))
                          dr dc r c).
Proof.
  revert r c count. induction fuel as [|fuel IH]; intros r c count; simpl; [lia|].
  destruct (inBounds (boardLength b) r c && bool_decide (cellAt b r c = Some (Some s)));
    [rewrite IH|]; lia.
Qed.

(** The loop of [evaluatePosition] is the walk, counting and remembering
    where it stopped. *)
Lemma evalWalk_steps fuel b s dr dc r c consecutives :
  let k := steps fuel (λ r c, inBounds (boardLength b) r c &&
                              bool_decide (cellAt b r c = Some (Some s)))
                 dr dc r c in
  evalWalk fuel b s dr dc r c consecutives =
  (consecutives + Z.of_nat k, (r + Z.of_nat k * dr, c + Z.of_nat k * dc)).
Proof.
  revert r c consecutives. induction fuel as [|fuel IH]; intros r c consecutives; simpl.
  - f_equal; [lia | f_equal; lia].
  - destruct (inBounds (boardLength b) r c && bool_decide (cellAt b r c = Some (Some s))).
    + rewrite IH. f_equal; [lia | f_equal; lia].
    + f_equal; [lia | f_equal; lia].
Qed.

(** Fuel adequacy of the three loops: along a unit direction the walk has
    left the board after [size] iterations, so the bound [size] that the
    model puts on the number of iterations is never what ends the loop. *)
Lemma scanLine_fuel extra size b stone dr dc r c positions count :
  unitDirection dr dc →
  scanLine (Z.to_nat size + extra) size b stone dr dc r c positions count =
  scanLine (Z.to_nat size) size b stone dr dc r c positions count.
Proof.
  intros Hunit. rewrite !scanLine_steps. cbv zeta.
  rewrite (steps_fuel (Z.to_nat size) extra size); [done|done| |lia].
  intros r' c'. rewrite andb_true_iff. tauto.
Qed.

Lemma countLine_fuel extra b s dr dc r c count :
  unitDirection dr dc →
  countLine (length b + extra) b s dr dc r c count = countLine (length b) b s dr dc r c count.
Proof.
  intros Hunit. rewrite !countLine_steps.
  rewrite (steps_fuel (length b) extra (boardLength b)); [done|done| |unfold boardLength; lia].
  intros r' c'. rewrite andb_true_iff. tauto.
Qed.

Lemma evalWalk_fuel extra b s dr dc r c consecutives :
  unitDirection dr dc →
  evalWalk (length b + extra) b s dr dc r c consecutives =
  evalWalk (length b) b s dr dc r c consecutives.
Proof.
  intros Hunit. rewrite !evalWalk_steps. cbv zeta.
  rewrite (steps_fuel (length b) extra (boardLength b)); [done|done| |unfold boardLength; lia].
  intros r' c'. rewrite andb_true_iff. tauto.
Qed.

(** ** One axis of the win check *)

Lemma directions_axes : directions = axisDirections <$> axes.
Proof. reflexivity. Qed.

Lemma axisDir_unit a : unitDirection (axisDir a).1 (axisDir a).2.
Proof. destruct a; unfold unitDirection; simpl; lia. Qed.

Lemma along_0 a p : along a p 0 = p.
Proof. destruct p as [r c]. unfold along. simpl. f_equal; lia. Qed.

Lemma along_inj a p t t' : along a p t = along a p t' → t = t'.
Proof. destruct a; unfold along; simpl; intros [= ? ?]; lia. Qed.

(** The forward and the backward ray of an axis, in its own coordinates. *)
Lemma ray_forward a p k :
  ray (axisDir a).1 (axisDir a).2 (row p + (axisDir a).1) (col p + (axisDir a).2) k =
  along a p <$> seqZ 1 (Z.of_nat k).
Proof.
  unfold ray. change (seqZ 1 (Z.of_nat k)) with (seqZ (1 + 0) (Z.of_nat k)).
  rewrite <- fmap_add_seqZ, <- list_fmap_compose.
  apply list_fmap_ext. intros _ t _. unfold along. simpl. f_equal; lia.
Qed.

Lemma ray_backward a p k :
  ray (- (axisDir a).1) (- (axisDir a).2)
      (row p + - (axisDir a).1) (col p + - (axisDir a).2) k =
  along a p <$> (Z.opp <$> seqZ 1 (Z.of_nat k)).
Proof.
  unfold ray. change (seqZ 1 (Z.of_nat k)) with (seqZ (1 + 0) (Z.of_nat k)).
  rewrite <- fmap_add_seqZ, <- !list_fmap_compose.
  apply list_fmap_ext. intros _ t _. unfold along. simpl. f_equal; lia.
Qed.

(** What [checkAxis] computes, in terms of the two walks. *)
Lemma checkAxis_steps g p a :
  checkAxis g p (axisDirections a) =
  (along a p <$>
     (0 :: seqZ 1 (Z.of_nat (forwardRun (boardSize (config g)) (board g) a p)) ++
      (Z.opp <$> seqZ 1 (Z.of_nat (backwardRun (boardSize (config g)) (board g) a p)))),
   1 + Z.of_nat (forwardRun (boardSize (config g)) (board g) a p) +
   Z.of_nat (backwardRun (boardSize (config g)) (board g) a p)).
Proof.
  unfold checkAxis, axisDirections. simpl.
  rewrite !scanLine_steps. simpl.
  fold (sameAsAt (boardSize (config g)) (board g) p).
  fold (forwardRun (boardSize (config g)) (board g) a p).
  fold (backwardRun (boardSize (config g)) (board g) a p).
  rewrite ray_forward, ray_backward, fmap_app.
  f_equal. f_equal. destruct p; unfold along; simpl; f_equal; lia.
Qed.

Section axis.
Context (n : Z) (b : Board) (s : Stone) (a : Axis) (p : Position).
Hypothesis Hp : holds n b s p.

Lemma sameAsAt_holds r c : sameAsAt n b p r c = true ↔ holds n b s (mkPosition r c).
Proof using Hp.
  unfold sameAsAt, holds. destruct Hp as [_ ->]. simpl.
  rewrite andb_true_iff, bool_decide_eq_true. done.
Qed.

Lemma sameAsAt_along t :
  sameAsAt n b p (row p + t * (axisDir a).1) (col p + t * (axisDir a).2) = true ↔
  holds n b s (along a p t).
Proof using Hp. apply sameAsAt_holds. Qed.

Lemma sameAsAt_on_board r c : sameAsAt n b p r c = true → inBounds n r c = true.
Proof. unfold sameAsAt. rewrite andb_true_iff. tauto. Qed.

(** The two walks stop exactly at the ends of the run through [p]. *)
Lemma run_forward (t : Z) :
  1 <= t <= Z.of_nat (forwardRun n b a p) → holds n b s (along a p t).
Proof using Hp.
  intros Ht. apply sameAsAt_along.
  pose proof (steps_within (Z.to_nat n) (sameAsAt n b p) (axisDir a).1 (axisDir a).2
                (row p + (axisDir a).1) (col p + (axisDir a).2)
                (Z.to_nat (t - 1)) ltac:(fold (forwardRun n b a p); lia)) as H.
  rewrite <- H. f_equal; rewrite Z2Nat.id by lia; lia.
Qed.

Lemma run_backward (t : Z) :
  1 <= t <= Z.of_nat (backwardRun n b a p) → holds n b s (along a p (- t)).
Proof using Hp.
  intros Ht. apply sameAsAt_along.
  pose proof (steps_within (Z.to_nat n) (sameAsAt n b p) (- (axisDir a).1) (- (axisDir a).2)
                (row p + - (axisDir a).1) (col p + - (axisDir a).2)
                (Z.to_nat (t - 1)) ltac:(fold (backwardRun n b a p); lia)) as H.
  rewrite <- H. f_equal; rewrite Z2Nat.id by lia; lia.
Qed.

Lemma stop_forward : ¬ holds n b s (along a p (Z.of_nat (forwardRun n b a p) + 1)).
Proof using Hp.
  rewrite <- sameAsAt_along, not_true_iff_false.
  assert (Hfuel : n <= Z.of_nat (Z.to_nat n)) by lia.
  pose proof (steps_stop (Z.to_nat n) n (sameAsAt n b p) (axisDir a).1 (axisDir a).2
                (row p + (axisDir a).1) (col p + (axisDir a).2)
                (axisDir_unit a) sameAsAt_on_board Hfuel) as H.
  fold (forwardRun n b a p) in H. rewrite <- H. f_equal; lia.
Qed.

Lemma stop_backward : ¬ holds n b s (along a p (- (Z.of_nat (backwardRun n b a p) + 1))).
Proof using Hp.
  rewrite <- sameAsAt_along, not_true_iff_false.
  assert (Hfuel : n <= Z.of_nat (Z.to_nat n)) by lia.
  assert (Hunit : unitDirection (- (axisDir a).1) (- (axisDir a).2)).
  { destruct (axisDir_unit a) as (? & ? & ?). unfold unitDirection. lia. }
  pose proof (steps_stop (Z.to_nat n) n (sameAsAt n b p) (- (axisDir a).1) (- (axisDir a).2)
                (row p + - (axisDir a).1) (col p + - (axisDir a).2)
                Hunit sameAsAt_on_board Hfuel) as H.
  fold (backwardRun n b a p) in H. rewrite <- H. f_equal; lia.
Qed.

Lemma run_maximal : runThrough n b s a p (forwardRun n b a p) (backwardRun n b a p).
Proof using Hp.
  intros t Ht.
  destruct (Z.lt_trichotomy t 0) as [Hneg|[->|Hpos]].
  - replace t with (- (- t)) by lia. apply run_backward. lia.
  - by rewrite along_0.
  - apply run_forward. lia.
Qed.

(** Any run through [p] lies inside the one the walks found. *)
Lemma run_bounded i j :
  runThrough n b s a p i j →
  (i <= forwardRun n b a p)%nat ∧ (j <= backwardRun n b a p)%nat.
Proof using Hp.
  intros Hrun. split.
  - destruct (decide (i <= forwardRun n b a p)%nat); [done|]. exfalso.
    apply stop_forward, Hrun. lia.
  - destruct (decide (j <= backwardRun n b a p)%nat); [done|]. exfalso.
    apply stop_backward, Hrun. lia.
Qed.

(** The axis reaches [w] exactly when the count of the source does. *)
Lemma reaches_count w :
  axisReaches n b s a p w ↔
  w <= 1 + Z.of_nat (forwardRun n b a p) + Z.of_nat (backwardRun n b a p).
Proof using Hp.
  split.
  - intros (i & j & Hrun & Hw). apply run_bounded in Hrun. lia.
  - intros Hw. exists (forwardRun n b a p), (backwardRun n b a p).
    split; [apply run_maximal | lia].
Qed.

End axis.

(** The cells the source gathers are the run, up to order. *)
Lemma line_segment a p (kf kb : nat) :
  along a p <$> (0 :: seqZ 1 (Z.of_nat kf) ++ (Z.opp <$> seqZ 1 (Z.of_nat kb)))
  ≡ₚ segment a p kf kb.
Proof.
  unfold segment. apply fmap_Permutation, NoDup_Permutation.
  - apply NoDup_cons. split.
    + rewrite elem_of_app, list_elem_of_fmap. intros [H|(t & ? & H)];
        apply elem_of_seqZ in H; lia.
    + apply NoDup_app. split; [apply NoDup_seqZ|]. split.
      * intros t H (t' & -> & H')%list_elem_of_fmap.
        apply elem_of_seqZ in H, H'. lia.
      * apply NoDup_fmap; [|apply NoDup_seqZ]. intros ???. lia.
  - apply NoDup_seqZ.
  - intros t. rewrite elem_of_cons, elem_of_app, list_elem_of_fmap, !elem_of_seqZ.
    split.
    + intros [->|[H|(t' & -> & H)]]; [lia|lia|]. apply elem_of_seqZ in H. lia.
    + intros H. destruct (Z.lt_trichotomy t 0) as [Hneg|[->|Hpos]]; [|by left|].
      * right. right. exists (- t). split; [lia|]. apply elem_of_seqZ. lia.
      * right. left. lia.
Qed.

(** ** The win check *)

Lemma checkAxis_reaches g p s a w :
  holds (boardSize (config g)) (board g) s p →
  w <= (checkAxis g p (axisDirections a)).2 ↔
  axisReaches (boardSize (config g)) (board g) s a p w.
Proof.
  intros Hp. rewrite checkAxis_steps. cbn [snd]. symmetry. by apply reaches_count.
Qed.

Lemma length_segment a p i j : length (segment a p i j) = (i + j + 1)%nat.
Proof. unfold segment. rewrite length_fmap, length_seqZ. lia. Qed.

Lemma elem_of_segment a p i j q :
  q ∈ segment a p i j ↔ ∃ t, - Z.of_nat j <= t <= Z.of_nat i ∧ q = along a p t.
Proof.
  unfold segment. rewrite list_elem_of_fmap. split.
  - intros (t & -> & Ht). apply elem_of_seqZ in Ht. exists t. split; [lia|done].
  - intros (t & Ht & ->). exists t. split; [done|]. apply elem_of_seqZ. lia.
Qed.

(** The cells gathered on an axis: a gap-free stretch of the axis through
    [p], as many as the count, every one holding the stone. *)
Lemma checkAxis_line g p s a :
  holds (boardSize (config g)) (board g) s p →
  let l := (checkAxis g p (axisDirections a)).1 in
  contiguousLine a p l ∧
  Z.of_nat (length l) = (checkAxis g p (axisDirections a)).2 ∧
  p ∈ l ∧
  ∀ q, q ∈ l → holds (boardSize (config g)) (board g) s q.
Proof.
  intros Hp. rewrite checkAxis_steps. cbn [fst snd].
  set (kf := forwardRun (boardSize (config g)) (board g) a p).
  set (kb := backwardRun (boardSize (config g)) (board g) a p).
  pose proof (line_segment a p kf kb) as Hperm.
  split; [by exists kf, kb|]. split; [|split].
  - rewrite Hperm, length_segment. lia.
  - rewrite fmap_cons, along_0. apply list_elem_of_here.
  - intros q Hq. rewrite Hperm in Hq.
    apply elem_of_segment in Hq as (t & Ht & ->).
    by apply (run_maximal (boardSize (config g)) (board g) s a p Hp).
Qed.

Lemma checkWin_loop_find g p (l : list Axis) :
  checkWin_loop g p (axisDirections <$> l) =
  match list_find (λ a, axisWins g p a = true) l with
  | Some (_, a) =>
      (true, set_winningPositions g (Some (checkAxis g p (axisDirections a)).1))
  | None => (false, g)
  end.
Proof.
  induction l as [|a l IH]; [done|].
  rewrite fmap_cons. cbn [checkWin_loop list_find].
  fold (axisWins g p a). case_decide as E.
  - by rewrite E.
  - apply not_true_is_false in E. rewrite E, IH.
    by destruct (list_find _ l) as [[? ?]|].
Qed.

Lemma axes_lookup a : axes !! axisRank a = Some a.
Proof. by destruct a. Qed.

Lemma axes_lookup_inv i a : axes !! i = Some a → i = axisRank a.
Proof.
  destruct i as [|[|[|[|i]]]]; simpl; intros [= <-]; done.
Qed.

(** [checkWin] on a cell that holds [s]: either the first axis, in the
    order of the source, that reaches [winCount] is found and its cells
    become the winning line, or no axis reaches [winCount] and nothing
    changes. *)
Lemma checkWin_spec g p s :
  holds (boardSize (config g)) (board g) s p →
  (∃ a l,
      firstReaching (boardSize (config g)) (board g) s p (winCount (config g)) a ∧
      checkWin g p = (true, set_winningPositions g (Some l)) ∧
      contiguousLine a p l ∧
      winCount (config g) <= Z.of_nat (length l) ∧
      p ∈ l ∧
      ∀ q, q ∈ l → holds (boardSize (config g)) (board g) s q)
  ∨ ((∀ a, ¬ axisReaches (boardSize (config g)) (board g) s a p (winCount (config g))) ∧
     checkWin g p = (false, g)).
Proof.
  intros Hp. unfold checkWin. rewrite directions_axes, checkWin_loop_find.
  destruct (list_find _ axes) as [[i a]|] eqn:E.
  - left. apply list_find_Some in E as (Hi & Hwin & Hfirst).
    apply axes_lookup_inv in Hi as ->.
    unfold axisWins in Hwin. apply Z.leb_le in Hwin.
    destruct (checkAxis_line g p s a Hp) as (Hline & Hlen & Hin & Hall).
    exists a, (checkAxis g p (axisDirections a)).1. split; [split|].
    + by apply (checkAxis_reaches g p s a).
    + intros a' Hlt Hr. apply (Hfirst _ a' (axes_lookup a') Hlt).
      unfold axisWins. apply Z.leb_le. by apply (checkAxis_reaches g p s a').
    + split; [done|]. split; [done|]. split; [lia|]. split; done.
  - right. split; [|done]. intros a Hr.
    apply list_find_None in E. rewrite Forall_forall in E.
    apply (E a).
    + apply list_elem_of_lookup. exists (axisRank a). apply axes_lookup.
    + unfold axisWins. apply Z.leb_le. by apply (checkAxis_reaches g p s a).
Qed.

(** ** [placeStone] *)

Lemma isValidPosition_inBounds g p :
  isValidPosition g p = inBounds (boardSize (config g)) (row p) (col p).
Proof. reflexivity. Qed.

(** The three guards, in the order of the source. *)
Lemma placeStone_rejected g p now :
  isValidPosition g p = false ∨
  cellAt (board g) (row p) (col p) ≠ Some None ∨
  gameStatus g ≠ playing →
  placeStone g p now = (false, g).
Proof.
  intros H. unfold placeStone.
  destruct (isValidPosition g p); simpl; [|done].
  case_bool_decide; simpl; [|done].
  case_bool_decide; simpl; [|done].
  destruct H as [?|[?|?]]; done.
Qed.

Lemma placeStone_accepted g p now :
  isValidPosition g p = true →
  cellAt (board g) (row p) (col p) = Some None →
  gameStatus g = playing →
  placeStone g p now =
  let wg := checkWin (stonePlaced g p now) p in
  if wg.1
  then (true, set_gameStatus wg.2 (winStatus (currentPlayer wg.2)))
  else if isDraw wg.2 then (true, set_gameStatus wg.2 draw)
  else (true, set_currentPlayer wg.2 (opponentOf (currentPlayer wg.2))).
Proof.
  intros Hv Hc Hs. unfold placeStone. rewrite Hv.
  rewrite !bool_decide_eq_true_2 by done. cbn [negb].
  set (wg := checkWin _ p).
  change (checkWin (stonePlaced g p now) p) with wg. cbn zeta.
  destruct wg as [won g5]. cbn [fst snd].
  destruct won; [|done].
  do 2 f_equal. unfold winStatus. by destruct (currentPlayer g5).
Qed.

(** A call that returns [true] passed the three guards. *)
Lemma placeStone_true g p now :
  (placeStone g p now).1 = true →
  isValidPosition g p = true ∧
  cellAt (board g) (row p) (col p) = Some None ∧
  gameStatus g = playing.
Proof.
  unfold placeStone.
  destruct (isValidPosition g p); simpl; [|done].
  case_bool_decide; simpl; [|done].
  case_bool_decide; simpl; [|done]. done.
Qed.

Lemma stonePlaced_holds g p now :
  isValidPosition g p = true →
  cellAt (board g) (row p) (col p) = Some None →
  holds (boardSize (config g)) (board (stonePlaced g p now)) (currentPlayer g) p.
Proof.
  intros Hv Hc. split; [done|]. simpl. by eapply cellAt_setCell_eq.
Qed.

(** The three outcomes of an accepted placement. *)
Lemma placeStone_outcome g p now :
  isValidPosition g p = true →
  cellAt (board g) (row p) (col p) = Some None →
  gameStatus g = playing →
  let g4 := stonePlaced g p now in
  let n := boardSize (config g) in
  let w := winCount (config g) in
  let s := currentPlayer g in
  (∃ a l,
      firstReaching n (board g4) s p w a ∧
      contiguousLine a p l ∧ w <= Z.of_nat (length l) ∧ p ∈ l ∧
      (∀ q, q ∈ l → holds n (board g4) s q) ∧
      placeStone g p now =
      (true, set_gameStatus (set_winningPositions g4 (Some l)) (winStatus s)))
  ∨ ((∀ a, ¬ axisReaches n (board g4) s a p w) ∧ isDraw g4 = true ∧
     placeStone g p now = (true, set_gameStatus g4 draw))
  ∨ ((∀ a, ¬ axisReaches n (board g4) s a p w) ∧ isDraw g4 = false ∧
     placeStone g p now = (true, set_currentPlayer g4 (opponentOf s))).
Proof.
  intros Hv Hc Hs g4 n w s.
  rewrite (placeStone_accepted g p now Hv Hc Hs). fold g4.
  destruct (checkWin_spec g4 p s (stonePlaced_holds g p now Hv Hc))
    as [(a & l & Hfirst & -> & Hline & Hlen & Hin & Hall)|[Hnone ->]].
  - left. exists a, l. cbn [fst snd]. do 5 (split; [done|]). reflexivity.
  - right. cbn [fst snd]. destruct (isDraw g4) eqn:E; [left|right]; (do 2 (split; [done|])); reflexivity.
Qed.

(** ** Counting stones *)

Lemma countStones_setCell (b : Board) r c x v :
  cellAt b r c = Some x →
  (countStones (setCell b r c v) + length (filter (λ o : option Stone, is_Some o) [x]) =
   countStones b + length (filter (λ o : option Stone, is_Some o) [v]))%nat.
Proof.
  intros (Hr & Hc & rw & Hrw & Hx)%cellAt_Some.
  unfold setCell. rewrite decide_True by done.
  apply list_elem_of_split_length in Hrw as (b1 & b2 & -> & Hi).
  apply list_elem_of_split_length in Hx as (r1 & r2 & -> & Hj).
  rewrite Hi, Hj.
  replace (length b1) with (length b1 + 0)%nat at 1 by lia.
  rewrite alter_app_r. cbn [alter list_alter].
  replace (length r1) with (length r1 + 0)%nat at 1 by lia.
  rewrite insert_app_r. cbn [insert list_insert].
  unfold countStones.
  rewrite !concat_app, !concat_cons, !filter_app, !filter_cons, !filter_nil, !length_app.
  do 2 case_decide; simpl; rewrite ?length_app; simpl; lia.
Qed.

Lemma countStones_place (b : Board) r c s :
  cellAt b r c = Some None →
  countStones (setCell b r c (Some s)) = S (countStones b).
Proof.
  intros H. pose proof (countStones_setCell b r c None (Some s) H) as E.
  rewrite filter_cons_False in E by apply is_Some_None.
  rewrite filter_cons_True in E by eauto.
  simpl in E. lia.
Qed.

Lemma countStones_clear (b : Board) r c s :
  cellAt b r c = Some (Some s) →
  S (countStones (setCell b r c None)) = countStones b.
Proof.
  intros H. pose proof (countStones_setCell b r c (Some s) None H) as E.
  rewrite (filter_cons_False _ None) in E by apply is_Some_None.
  rewrite (filter_cons_True _ (Some s)) in E by eauto.
  simpl in E. lia.
Qed.

Lemma countStones_emptyBoard n : countStones (emptyBoard n) = 0%nat.
Proof.
  unfold countStones, emptyBoard.
  generalize (Z.to_nat n) at 1. intros k.
  induction k as [|k IH]; [done|].
  rewrite replicate_S, concat_cons, filter_app, length_app, IH.
  clear IH. induction (Z.to_nat n) as [|m IH]; [done|].
  rewrite replicate_S. cbn [app]. rewrite filter_cons_False by apply is_Some_None.
  done.
Qed.

Lemma cellAt_emptyBoard n r c :
  0 <= r < n → 0 <= c < n → cellAt (emptyBoard n) r c = Some None.
Proof.
  intros Hr Hc. unfold cellAt, emptyBoard. rewrite decide_True by lia.
  rewrite lookup_replicate_2 by lia. simpl. apply lookup_replicate_2. lia.
Qed.

(** On the square board every cell of the grid is there to be read. *)
Lemma boardSquare_cell g r c :
  boardSquare g →
  0 <= r < boardSize (config g) → 0 <= c < boardSize (config g) →
  ∃ x, cellAt (board g) r c = Some x.
Proof.
  intros (Hn & Hlen & Hrows) Hr Hc. unfold cellAt. rewrite decide_True by lia.
  destruct (lookup_lt_is_Some_2 (board g) (Z.to_nat r) ltac:(lia)) as [rw Hrw].
  rewrite Hrw. simpl. rewrite Forall_lookup in Hrows.
  apply lookup_lt_is_Some_2. rewrite (Hrows _ _ Hrw). lia.
Qed.

Lemma boardSquare_emptyBoard g :
  0 <= boardSize (config g) → board g = emptyBoard (boardSize (config g)) → boardSquare g.
Proof.
  intros Hn Hb. split; [done|]. rewrite Hb. unfold emptyBoard. split.
  - apply length_replicate.
  - apply Forall_replicate, length_replicate.
Qed.

(** ** Draw detection *)

Lemma isDraw_true g :
  isDraw g = true ↔
  ∀ r c, 0 <= r < boardSize (config g) → 0 <= c < boardSize (config g) →
         cellAt (board g) r c ≠ Some None.
Proof.
  unfold isDraw. rewrite forallb_forall. split.
  - intros H r c Hr Hc.
    specialize (H r). rewrite <- list_elem_of_In, elem_of_seqZ in H.
    specialize (H ltac:(lia)). rewrite forallb_forall in H.
    specialize (H c). rewrite <- list_elem_of_In, elem_of_seqZ in H.
    specialize (H ltac:(lia)). apply negb_true_iff, bool_decide_eq_false in H. done.
  - intros H r Hr%list_elem_of_In%elem_of_seqZ.
    apply forallb_forall. intros c Hc%list_elem_of_In%elem_of_seqZ.
    apply negb_true_iff, bool_decide_eq_false, H; lia.
Qed.

Lemma getEmptyPositions_elem g q :
  q ∈ getEmptyPositions g ↔
  inBounds (boardSize (config g)) (row q) (col q) = true ∧
  cellAt (board g) (row q) (col q) = Some None.
Proof.
  unfold getEmptyPositions. rewrite list_elem_of_bind, inBounds_true. split.
  - intros (r & (c & Hq & Hc%elem_of_seqZ)%list_elem_of_bind & Hr%elem_of_seqZ).
    case_bool_decide as E; [|by apply elem_of_nil in Hq].
    apply list_elem_of_singleton in Hq as ->. simpl. split; [lia|done].
  - intros [[Hr Hc] E]. exists (row q). split; [|apply elem_of_seqZ; lia].
    apply list_elem_of_bind. exists (col q). split; [|apply elem_of_seqZ; lia].
    rewrite bool_decide_eq_true_2 by done. destruct q. apply list_elem_of_singleton. done.
Qed.

Lemma isDraw_getEmptyPositions g : isDraw g = true ↔ getEmptyPositions g = [].
Proof.
  rewrite isDraw_true. split.
  - intros H. apply elem_of_nil_inv. intros q [Hb Hq]%getEmptyPositions_elem.
    apply inBounds_true in Hb as [? ?]. by apply (H (row q) (col q)).
  - intros H r c Hr Hc E.
    assert (mkPosition r c ∈ getEmptyPositions g) as Hin.
    { apply getEmptyPositions_elem. simpl. split; [apply inBounds_true; lia|done]. }
    rewrite H in Hin. by apply elem_of_nil in Hin.
Qed.

Lemma isDraw_allOccupied g :
  boardSquare g → isDraw g = true ↔ allOccupied (boardSize (config g)) (board g).
Proof.
  intros Hsq. rewrite isDraw_true. split.
  - intros H r c Hr Hc. destruct (boardSquare_cell g r c Hsq Hr Hc) as [[s|] E]; [eauto|].
    by destruct (H r c Hr Hc).
  - intros H r c Hr Hc E. destruct (H r c Hr Hc) as [s Hs]. congruence.
Qed.

(** ** The invariant *)

Lemma playerAtMove_S k : playerAtMove (S k) = opponentOf (playerAtMove k).
Proof.
  unfold playerAtMove. rewrite Nat.even_succ, <- Nat.negb_even.
  by destruct (Nat.even k).
Qed.

Lemma invariant_fresh g :
  0 <= boardSize (config g) →
  board g = emptyBoard (boardSize (config g)) →
  currentPlayer g = black → winningPositions g = None →
  history g = [] → lastMove g = None →
  invariant g.
Proof.
  intros Hn Hb Hp Hw Hh Hl. split.
  - by apply boardSquare_emptyBoard.
  - done.
  - by rewrite Hb, Hh, countStones_emptyBoard.
  - by rewrite Hl, Hh.
  - rewrite Hh. intros k item. by rewrite lookup_nil.
  - by rewrite Hh, Hp.
  - rewrite Hh. apply NoDup_nil_2.
  - rewrite Hh. intros item H. by apply elem_of_nil in H.
Qed.

Lemma invariant_constructor cfg g : constructor cfg = Some g → invariant g.
Proof.
  unfold constructor. case_decide as H; [|done]. intros E.
  apply (inj Some) in E. subst g.
  apply invariant_fresh; simpl; try done. lia.
Qed.

Lemma invariant_reset g : invariant g → invariant (reset g).
Proof.
  intros [[Hn _] _ _ _ _ _ _ _]. by apply invariant_fresh.
Qed.

(** The part of the invariant that speaks of the board and the log only,
    right after the stone is written. *)
Lemma stonePlaced_invariant g p now st w cp :
  invariant g →
  isValidPosition g p = true →
  cellAt (board g) (row p) (col p) = Some None →
  gameStatus g = playing →
  let g4 := stonePlaced g p now in
  (st = playing ∨ st = paused → w = None ∧ cp = opponentOf (currentPlayer g)) →
  invariant (mkGame (board g4) cp st w (history g4) (lastMove g4) (config g4) (players g4)).
Proof.
  intros [Hsq Hline Hcount Hlast Hturns Hplayer Hdistinct Hcells] Hv Hc Hs g4 Hst.
  assert (Hfresh : p ∉ position <$> history g).
  { intros (item & -> & Hin)%list_elem_of_fmap.
    destruct (Hcells item Hin) as [s Hs']. congruence. }
  split; simpl.
  - destruct Hsq as (Hn & Hlen & Hrows). split; [done|]. simpl. split.
    + by rewrite length_setCell.
    + by apply Forall_length_setCell.
  - intros H. by destruct (Hst H).
  - rewrite (countStones_place _ _ _ _ Hc), length_app, Hcount. simpl. lia.
  - by rewrite last_snoc.
  - intros k item [[Hk E]|[-> <-]]%lookup_snoc_Some; [by apply Hturns|].
    simpl. apply Hplayer. by left.
  - intros H. destruct (Hst H) as [_ ->]. rewrite length_app. simpl.
    rewrite Nat.add_1_r, playerAtMove_S. f_equal. apply Hplayer. by left.
  - rewrite fmap_app. simpl. apply NoDup_app. split; [done|]. split.
    + intros q Hq ->%list_elem_of_singleton. done.
    + apply NoDup_singleton.
  - intros item [Hin| ->%list_elem_of_singleton]%elem_of_app.
    + destruct (Hcells item Hin) as [s Hs'].
      exists s. rewrite cellAt_setCell_ne; [done|].
      intros [= Hr Hcol]. apply Hfresh, list_elem_of_fmap.
      exists item. split; [|done]. destruct p, (position item). simpl in *. congruence.
    + simpl. exists (currentPlayer g). by eapply cellAt_setCell_eq.
Qed.

Lemma invariant_placeStone g p now : invariant g → invariant (placeStone g p now).2.
Proof.
  intros Hinv.
  destruct (isValidPosition g p) eqn:Hv;
    [|by rewrite placeStone_rejected by (by left)].
  destruct (decide (cellAt (board g) (row p) (col p) = Some None)) as [Hc|Hc];
    [|by rewrite placeStone_rejected by (right; by left)].
  destruct (decide (gameStatus g = playing)) as [Hs|Hs];
    [|by rewrite placeStone_rejected by (right; by right)].
  destruct (placeStone_outcome g p now Hv Hc Hs)
    as [(a & l & _ & _ & _ & _ & _ & ->)|[(_ & _ & ->)|(_ & _ & ->)]]; cbn [snd].
  - apply (stonePlaced_invariant g p now (winStatus (currentPlayer g)) (Some l)
             (currentPlayer g) Hinv Hv Hc Hs).
    by destruct (currentPlayer g); intros [?|?].
  - apply (stonePlaced_invariant g p now draw (winningPositions g)
             (currentPlayer g) Hinv Hv Hc Hs).
    by intros [?|?].
  - apply (stonePlaced_invariant g p now (gameStatus g) (winningPositions g)
             (opponentOf (currentPlayer g)) Hinv Hv Hc Hs).
    intros _. split; [|done]. apply (inv_line g Hinv). by left.
Qed.

Lemma undo_rejected g :
  history g = [] ∨ gameStatus g ≠ playing → undo g = (false, g).
Proof.
  intros H. unfold undo. case_bool_decide as E; [done|].
  case_bool_decide; simpl; [|done].
  destruct H as [H|H]; [|done]. by rewrite H in E.
Qed.

Lemma undo_accepted g h item :
  history g = h ++ [item] → gameStatus g = playing →
  undo g =
  (true,
   mkGame (setCell (board g) (row (position item)) (col (position item)) None)
          (match last h with Some _ => stone item | None => black end)
          (gameStatus g) (winningPositions g) h (position <$> last h) (config g)
          (addMoveCount (players g) (stone item) (-1))).
Proof.
  intros Hh Hs. unfold undo. rewrite Hh, length_app. simpl.
  rewrite bool_decide_eq_false_2 by lia.
  rewrite bool_decide_eq_true_2 by done. simpl.
  rewrite last_snoc, removelast_last. cbn zeta. simpl.
  by destruct (last h).
Qed.

Lemma invariant_undo g : invariant g → invariant (undo g).2.
Proof.
  intros Hinv.
  destruct (decide (gameStatus g = playing)) as [Hs|Hs];
    [|by rewrite undo_rejected by (by right)].
  destruct (last (history g)) as [item|] eqn:Hl;
    [|apply last_None in Hl; by rewrite undo_rejected by (by left)].
  apply last_Some in Hl as [h Hh]. rewrite (undo_accepted g h item Hh Hs). cbn [snd].
  destruct Hinv as [Hsq Hline Hcount Hlast Hturns Hplayer Hdistinct Hcells].
  rewrite Hh in *.
  destruct (Hcells item) as [s Hitem]; [apply elem_of_app; right; apply list_elem_of_here|].
  rewrite fmap_app in Hdistinct. apply NoDup_app in Hdistinct as (Hd1 & Hd2 & _).
  split; simpl.
  - destruct Hsq as (Hn & Hlen & Hrows). split; [done|]. simpl. split.
    + by rewrite length_setCell.
    + by apply Forall_length_setCell.
  - done.
  - pose proof (countStones_clear _ _ _ _ Hitem) as E.
    rewrite Hcount, length_app in E. simpl in E. lia.
  - done.
  - intros k it Hk. apply Hturns. apply lookup_app_Some. by left.
  - intros _. destruct (last h) as [prev|] eqn:El.
    + apply (Hturns (length h)). by rewrite list_lookup_middle.
    + apply last_None in El as ->. done.
  - done.
  - intros it Hin. destruct (Hcells it) as [s' Hs']; [apply elem_of_app; by left|].
    exists s'. rewrite cellAt_setCell_ne; [done|].
    intros [= Hr Hc]. apply (Hd2 (position it)).
    + apply list_elem_of_fmap. eauto.
    + apply list_elem_of_singleton.
      destruct (position it), (position item). simpl in *. congruence.
Qed.

Theorem reachable_invariant g : reachable g → invariant g.
Proof.
  induction 1 as [cfg g H|g p now _ IH|g _ IH|g _ IH|g s info _ IH|g _ IH Hs|g _ IH Hs].
  - by eapply invariant_constructor.
  - by apply invariant_placeStone.
  - by apply invariant_undo.
  - by apply invariant_reset.
  - destruct IH as [? Hline ? ? ? Hplayer ? ?]. by destruct s; split.
  - destruct IH as [? Hline ? ? ? Hplayer ? ?]. split; try done.
    + intros _. apply Hline. by left.
    + intros _. apply Hplayer. by left.
  - destruct IH as [? Hline ? ? ? Hplayer ? ?]. split; try done.
    + intros _. apply Hline. by right.
    + intros _. apply Hplayer. by right.
Qed.
(** ** The order of binary64 numbers *)

Ltac sf_compare :=
  repeat match goal with
  | H : context [Pos.compare_cont Eq ?x ?y] |- _ =>
      change (Pos.compare_cont Eq x y) with (Pos.compare x y) in H
  | |- context [Pos.compare_cont Eq ?x ?y] =>
      change (Pos.compare_cont Eq x y) with (Pos.compare x y)
  end;
  repeat match goal with
  | H : context [Z.compare ?x ?y] |- _ => destruct (Z.compare_spec x y); simpl in H
  | |- context [Z.compare ?x ?y] => destruct (Z.compare_spec x y); simpl
  | H : context [Pos.compare ?x ?y] |- _ => destruct (Pos.compare_spec x y); simpl in H
  | |- context [Pos.compare ?x ?y] => destruct (Pos.compare_spec x y); simpl
  end;
  try done; try lia.

Lemma SFltb_trans a b c : SFltb a b = true → SFltb b c = true → SFltb a c = true.
Proof.
  unfold SFltb.
  destruct a as [[]|[]| |[] ? ?], b as [[]|[]| |[] ? ?], c as [[]|[]| |[] ? ?];
    simpl; try done; intros H1 H2; sf_compare.
Qed.

Lemma SFltb_asym a b : SFltb a b = true → SFltb b a = false.
Proof.
  unfold SFltb.
  destruct a as [[]|[]| |[] ? ?], b as [[]|[]| |[] ? ?];
    simpl; try done; intros H1; sf_compare.
Qed.

(** Without NaN the order is total: what is not above [b] is below
    whatever [b] is below. *)
Lemma SFltb_below a b c :
  SFltb b a = false → SFltb b c = true → SFltb a c = true ∨ a = S754_nan.
Proof.
  unfold SFltb.
  destruct a as [[]|[]| |[] ? ?], b as [[]|[]| |[] ? ?], c as [[]|[]| |[] ? ?];
    simpl; try done; try (by right); intros H1 H2; left; sf_compare.
Qed.

Lemma SFltb_nan_r a : SFltb a S754_nan = false.
Proof. by destruct a as [[]|[]| |[] ? ?]. Qed.

Lemma SFltb_neg_infinity a b :
  SFltb (S754_infinity true) a = false → SFltb b a = false.
Proof.
  unfold SFltb.
  destruct a as [[]|[]| |[] ? ?], b as [[]|[]| |[] ? ?]; simpl; done.
Qed.

Lemma SFeqb_refl_nan a : SFeqb a a = false → a = S754_nan.
Proof.
  unfold SFeqb. destruct a as [[]|[]| |[] m e]; simpl; try done.
  - rewrite Z.compare_refl. change (Pos.compare_cont Eq m m) with (Pos.compare m m).
    by rewrite Pos.compare_refl.
  - rewrite Z.compare_refl. change (Pos.compare_cont Eq m m) with (Pos.compare m m).
    by rewrite Pos.compare_refl.
Qed.

Lemma ltb_trans (a b c : float) :
  PrimFloat.ltb a b = true → PrimFloat.ltb b c = true → PrimFloat.ltb a c = true.
Proof. rewrite !FloatAxioms.ltb_spec. apply SFltb_trans. Qed.

Lemma ltb_asym (a b : float) : PrimFloat.ltb a b = true → PrimFloat.ltb b a = false.
Proof. rewrite !FloatAxioms.ltb_spec. apply SFltb_asym. Qed.

Lemma is_nan_Prim2SF (a : float) : PrimFloat.is_nan a = true ↔ Prim2SF a = S754_nan.
Proof.
  unfold PrimFloat.is_nan. rewrite negb_true_iff, FloatAxioms.eqb_spec. split.
  - apply SFeqb_refl_nan.
  - by intros ->.
Qed.

Lemma ltb_below (a b c : float) :
  PrimFloat.ltb b a = false → PrimFloat.ltb b c = true →
  PrimFloat.ltb a c = true ∨ PrimFloat.is_nan a = true.
Proof.
  rewrite !FloatAxioms.ltb_spec, is_nan_Prim2SF. apply SFltb_below.
Qed.

Lemma ltb_nan_r (a b : float) : PrimFloat.is_nan b = true → PrimFloat.ltb a b = false.
Proof.
  rewrite is_nan_Prim2SF, FloatAxioms.ltb_spec. intros ->. apply SFltb_nan_r.
Qed.

Lemma ltb_neg_infinity (a b : float) :
  PrimFloat.ltb neg_infinity a = false → PrimFloat.ltb b a = false.
Proof.
  rewrite !FloatAxioms.ltb_spec.
  change (Prim2SF neg_infinity) with (S754_infinity true). apply SFltb_neg_infinity.
Qed.

(** ** The simulation loops of the opponent *)

Lemma setCell_restore (b : Board) r c s :
  cellAt b r c = Some None → setCell (setCell b r c (Some s)) r c None = b.
Proof. intros H. rewrite setCell_setCell. by apply setCell_id. Qed.

Lemma searchWin_find bc s w ps :
  allEmpty bc ps →
  searchWin bc s w ps =
  match list_find (λ pos, winsAt bc s w pos = true) ps with
  | Some (_, pos) => (Some pos, setCell bc (row pos) (col pos) (Some s))
  | None => (None, bc)
  end.
Proof.
  induction 1 as [|pos ps Hpos _ IH]; [done|].
  cbn [searchWin list_find]. fold (winsAt bc s w pos).
  case_decide as E.
  - by rewrite E.
  - apply not_true_is_false in E. rewrite E, (setCell_restore _ _ _ _ Hpos), IH.
    by destruct (list_find _ ps) as [[? ?]|].
Qed.

Lemma collectWins_filter bc s w ps found :
  allEmpty bc ps →
  collectWins bc s w ps found = found ++ filter (λ pos, winsAt bc s w pos = true) ps.
Proof.
  intros H. revert found. induction H as [|pos ps Hpos _ IH]; intros found.
  - by rewrite filter_nil, app_nil_r.
  - cbn [collectWins]. fold (winsAt bc s w pos).
    rewrite (setCell_restore _ _ _ _ Hpos), IH, filter_cons.
    case_decide as E.
    + by rewrite E, <- app_assoc.
    + apply not_true_is_false in E. by rewrite E.
Qed.

Lemma head_filter_find {A} (P : A → Prop) `{∀ x, Decision (P x)} (l : list A) :
  head (filter P l) = snd <$> list_find P l.
Proof.
  induction l as [|x l IH]; [done|].
  rewrite filter_cons. cbn [list_find]. case_decide; [done|].
  rewrite IH. by destruct (list_find P l) as [[? ?]|].
Qed.

(** What the opponent is called with: the empty cells of the board of its
    engine. *)
Lemma getEmptyPositions_allEmpty g : allEmpty (getBoard g) (getEmptyPositions g).
Proof.
  apply Forall_forall. intros q [_ Hq]%getEmptyPositions_elem. by rewrite getBoard_board.
Qed.

(** [getNormalMove] and [getHardMove] as one priority list each. *)
Lemma getNormalMove_priorities ai b ps :
  allEmpty b ps →
  getNormalMove ai b ps =
  match head (filter (λ pos, winsAt b (aiStone ai) (winCount (config (game ai))) pos = true) ps)
  with
  | Some pos => Some pos
  | None =>
      match head (filter (λ pos, winsAt b (opponentOf (aiStone ai))
                                        (winCount (config (game ai))) pos = true) ps)
      with
      | Some pos => Some pos
      | None => scoredFallback b (aiStone ai) ps
      end
  end.
Proof.
  intros H. unfold getNormalMove, getConfig. rewrite createBoardCopy_id.
  rewrite (searchWin_find b _ _ ps H), !head_filter_find.
  destruct (list_find _ ps) as [[? ?]|]; [done|]. cbn [fst snd fmap option_fmap option_map].
  rewrite (searchWin_find b _ _ ps H).
  by destruct (list_find _ ps) as [[? ?]|].
Qed.

Lemma getHardMove_priorities ai b ps :
  allEmpty b ps →
  getHardMove ai b ps =
  match head (filter (λ pos, winsAt b (aiStone ai) (winCount (config (game ai))) pos = true) ps)
  with
  | Some pos => Some pos
  | None =>
      match head (filter (λ pos, winsAt b (opponentOf (aiStone ai))
                                        (winCount (config (game ai))) pos = true) ps)
      with
      | Some pos => Some pos
      | None => getNormalMove ai b ps
      end
  end.
Proof.
  intros H. unfold getHardMove, findWinningMoves, findBlockingMoves, getConfig.
  rewrite createBoardCopy_id, !(collectWins_filter b _ _ ps [] H). cbn [app].
  destruct (filter _ ps); [|done]. cbn [head]. by destruct (filter _ ps).
Qed.

(** ** The position evaluator *)

Lemma holdsAt_on_board b s r c :
  holdsAt b s r c = true → inBounds (boardLength b) r c = true.
Proof. unfold holdsAt. rewrite andb_true_iff. tauto. Qed.

(** The walk of the evaluator finds the consecutive stones: with
    [board.length] iterations at most it stops at the first cell that does
    not hold [s]. *)
Lemma consecutive_steps b s p dr dc :
  unitDirection dr dc →
  consecutive b s p dr dc (steps (length b) (holdsAt b s) dr dc (row p + dr) (col p + dc)).
Proof.
  intros Hunit. set (k := steps _ _ _ _ _ _). split.
  - intros t Ht.
    pose proof (steps_within (length b) (holdsAt b s) dr dc (row p + dr) (col p + dc)
                  (Z.to_nat (t - 1)) ltac:(fold k; lia)) as H.
    rewrite <- H. f_equal; rewrite Z2Nat.id by lia; lia.
  - pose proof (steps_stop (length b) (boardLength b) (holdsAt b s) dr dc
                  (row p + dr) (col p + dc) Hunit (holdsAt_on_board b s)
                  ltac:(unfold boardLength; lia)) as H.
    fold k in H. rewrite <- H. f_equal; lia.
Qed.

Lemma consecutive_unique b s p dr dc k k' :
  consecutive b s p dr dc k → consecutive b s p dr dc k' → k = k'.
Proof.
  intros [H1 H1'] [H2 H2'].
  destruct (lt_eq_lt_dec k k') as [[Hlt|Heq]|Hgt]; [|done|].
  - rewrite H2 in H1' by lia. done.
  - rewrite H1 in H2' by lia. done.
Qed.

Lemma evalAxis_consecutive b p s a kf kb :
  consecutive b s p (axisDir a).1 (axisDir a).2 kf →
  consecutive b s p (- (axisDir a).1) (- (axisDir a).2) kb →
  evalAxis b p s (axisDirections a) =
  (1 + Z.of_nat kf + Z.of_nat kb,
   openEnd b p (axisDir a).1 (axisDir a).2 kf +
   openEnd b p (- (axisDir a).1) (- (axisDir a).2) kb).
Proof.
  intros Hf Hb.
  assert (Hunit : unitDirection (- (axisDir a).1) (- (axisDir a).2)).
  { destruct (axisDir_unit a) as (? & ? & ?). unfold unitDirection. lia. }
  pose proof (consecutive_unique _ _ _ _ _ _ _ Hf
                (consecutive_steps b s p _ _ (axisDir_unit a))) as Ef.
  pose proof (consecutive_unique _ _ _ _ _ _ _ Hb (consecutive_steps b s p _ _ Hunit)) as Eb.
  unfold evalAxis, axisDirections. cbn [fold_left fst snd].
  rewrite !evalWalk_steps. cbn [fst snd].
  fold (holdsAt b s). rewrite <- Ef, <- Eb. unfold openEnd.
  replace (row p + (axisDir a).1 + Z.of_nat kf * (axisDir a).1)
    with (row p + (Z.of_nat kf + 1) * (axisDir a).1) by lia.
  replace (col p + (axisDir a).2 + Z.of_nat kf * (axisDir a).2)
    with (col p + (Z.of_nat kf + 1) * (axisDir a).2) by lia.
  replace (row p + - (axisDir a).1 + Z.of_nat kb * - (axisDir a).1)
    with (row p + (Z.of_nat kb + 1) * - (axisDir a).1) by lia.
  replace (col p + - (axisDir a).2 + Z.of_nat kb * - (axisDir a).2)
    with (col p + (Z.of_nat kb + 1) * - (axisDir a).2) by lia.
  f_equal; try lia.
  repeat match goal with |- context [if ?c then _ else _] => destruct c end; lia.
Qed.

(** The ladder of the source is the table of the specification. *)
Lemma axisScore_tableValue count openEnds :
  axisScore count openEnds = tableValue count openEnds.
Proof.
  unfold axisScore, tableValue.
  destruct (Z.leb_spec 5 count); case_decide; try lia.
  destruct (Z.eqb_spec count 4) as [->|];
    [|destruct (Z.eqb_spec count 3) as [->|];
      [|destruct (Z.eqb_spec count 2) as [->|]]].
  1-3: destruct (Z.eqb_spec openEnds 2) as [->|]; [done|];
       destruct (Z.eqb_spec openEnds 1) as [->|]; [done|];
       by destruct openEnds as [|[[]|[]|]|].
  by destruct count as [|[[[]|[]|]|[[]|[]|]|]|].
Qed.

(** ** The scored fallback *)

Lemma ltb_irrefl (a : float) : PrimFloat.ltb a a = false.
Proof.
  destruct (PrimFloat.ltb a a) eqn:E; [|done]. by rewrite (ltb_asym a a E) in E.
Qed.

Lemma bestMove_loop_cons score x ps st :
  bestMove_loop score (x :: ps) st =
  bestMove_loop score ps (if PrimFloat.ltb st.1 (score x) then (score x, Some x) else st).
Proof. reflexivity. Qed.

(** The loop keeps the first score that no later score exceeds, and every
    score before it is strictly below it (or not a number). *)
Lemma bestMove_loop_spec score ps best mv :
  (bestMove_loop score ps (best, mv) = (best, mv) ∧
   ∀ q, q ∈ ps → PrimFloat.ltb best (score q) = false) ∨
  (∃ l1 p l2,
      ps = l1 ++ p :: l2 ∧
      bestMove_loop score ps (best, mv) = (score p, Some p) ∧
      PrimFloat.ltb best (score p) = true ∧
      (∀ q, q ∈ l1 →
            PrimFloat.ltb (score q) (score p) = true ∨ PrimFloat.is_nan (score q) = true) ∧
      (∀ q, q ∈ l2 → PrimFloat.ltb (score p) (score q) = false)).
Proof.
  revert best mv. induction ps as [|x ps IH]; intros best mv.
  - left. split; [done|]. intros q Hq. by apply elem_of_nil in Hq.
  - rewrite bestMove_loop_cons. cbn [fst].
    destruct (PrimFloat.ltb best (score x)) eqn:E.
    + right. destruct (IH (score x) (Some x))
        as [[-> Hall]|(l1 & p & l2 & -> & -> & Hlt & Hl1 & Hl2)].
      * exists [], x, ps. by repeat split; try done; intros q Hq; apply elem_of_nil in Hq.
      * exists (x :: l1), p, l2. split; [done|]. split; [done|].
        split; [by eapply ltb_trans|]. split; [|done].
        intros q [->|Hq]%elem_of_cons; [by left|by apply Hl1].
    + destruct (IH best mv)
        as [[-> Hall]|(l1 & p & l2 & -> & -> & Hlt & Hl1 & Hl2)].
      * left. split; [done|]. intros q [->|Hq]%elem_of_cons; [done|by apply Hall].
      * right. exists (x :: l1), p, l2. split; [done|]. split; [done|].
        split; [done|]. split; [|done].
        intros q [->|Hq]%elem_of_cons; [by eapply ltb_below|by apply Hl1].
Qed.

Lemma scoredFallback_first b mover ps :
  ps ≠ [] →
  ∃ l1 p l2,
    ps = l1 ++ p :: l2 ∧
    scoredFallback b mover ps = Some p ∧
    (∀ q, q ∈ l1 →
          PrimFloat.ltb (scoreOf b mover q) (scoreOf b mover p) = true ∨
          PrimFloat.is_nan (scoreOf b mover q) = true) ∧
    (∀ q, q ∈ l2 → PrimFloat.ltb (scoreOf b mover p) (scoreOf b mover q) = false).
Proof.
  destruct ps as [|p0 ps]; [done|]. intros _. unfold scoredFallback. cbn [head].
  destruct (bestMove_loop_spec (scoreOf b mover) (p0 :: ps) neg_infinity (Some p0))
    as [[-> Hall]|(l1 & p & l2 & Hps & -> & Hlt & Hl1 & Hl2)].
  - exists [], p0, ps. split; [done|]. split; [done|]. split.
    + intros q Hq. by apply elem_of_nil in Hq.
    + intros q Hq. apply ltb_neg_infinity, Hall. by right.
  - exists l1, p, l2. by rewrite Hps.
Qed.

Lemma head_filter_maximum (score : Position → float) (ps l1 : list Position) p l2 :
  p ∈ ps →
  (∀ q, q ∈ l1 → PrimFloat.ltb (score q) (score p) = true) →
  (∀ q, q ∈ ps → PrimFloat.ltb (score p) (score q) = false) →
  head (filter (λ x, forallb (λ q, negb (PrimFloat.ltb (score x) (score q))) ps = true)
               (l1 ++ p :: l2)) = Some p.
Proof.
  intros Hp Hl1 Hmax. rewrite filter_app.
  assert (filter (λ x, forallb (λ q, negb (PrimFloat.ltb (score x) (score q))) ps = true) l1
          = []) as ->.
  { apply elem_of_nil_inv. intros q [Hq Hin]%list_elem_of_filter.
    rewrite forallb_forall in Hq. specialize (Hq p).
    rewrite <- list_elem_of_In in Hq. specialize (Hq Hp).
    rewrite (Hl1 q Hin) in Hq. done. }
  rewrite filter_cons_True; [done|].
  apply forallb_forall. intros q Hq%list_elem_of_In. apply negb_true_iff. by apply Hmax.
Qed.

Lemma forallb_scored (score : Position → float) (g : float → bool) (ps : list Position) :
  forallb (λ y : Position * float, g y.2) ((λ p, (p, score p)) <$> ps) =
  forallb (λ q, g (score q)) ps.
Proof. induction ps as [|q ps IH]; [done|]. cbn. by rewrite <- IH. Qed.

Lemma head_filter_scored (score : Position → float) (ps l : list Position) :
  fst <$> head (filter (λ x : Position * float,
                          forallb (λ y : Position * float, negb (PrimFloat.ltb x.2 y.2))
                                  ((λ p, (p, score p)) <$> ps) = true)
                       ((λ p, (p, score p)) <$> l)) =
  head (filter (λ p, forallb (λ q, negb (PrimFloat.ltb (score p) (score q))) ps = true) l).
Proof.
  induction l as [|x l IH]; [done|].
  rewrite fmap_cons, !filter_cons. cbn [snd].
  rewrite (forallb_scored score (λ s, negb (PrimFloat.ltb (score x) s)) ps).
  case_decide; [done|apply IH].
Qed.

(** [firstMaximum] computes every score once; it is the first position
    that no position exceeds. *)
Lemma firstMaximum_unfold (score : Position → float) (ps : list Position) :
  firstMaximum score ps =
  head (filter (λ p, forallb (λ q, negb (PrimFloat.ltb (score p) (score q))) ps = true) ps).
Proof. apply head_filter_scored. Qed.

Lemma firstMaximum_intro (score : Position → float) (l1 : list Position) p l2 :
  (∀ q, q ∈ l1 → PrimFloat.ltb (score q) (score p) = true) →
  (∀ q, q ∈ l2 → PrimFloat.ltb (score p) (score q) = false) →
  firstMaximum score (l1 ++ p :: l2) = Some p.
Proof.
  intros Hl1 Hl2. rewrite firstMaximum_unfold. apply head_filter_maximum; [|done|].
  - apply elem_of_app. right. apply list_elem_of_here.
  - intros q [Hq|[->|Hq]%elem_of_cons]%elem_of_app.
    + by apply ltb_asym, Hl1.
    + apply ltb_irrefl.
    + by apply Hl2.
Qed.

(** ** Reaching the example states *)

Lemma reachable_playMoves g ps : reachable g → reachable (playMoves g ps).
Proof.
  revert g. induction ps as [|p ps IH]; intros g Hg; [done|].
  apply IH. by apply reach_place.
Qed.

Lemma reachable_defaultGame : reachable defaultGame.
Proof. by apply (reach_new None). Qed.

Lemma reachable_smallGame : reachable smallGame.
Proof. by apply (reach_new smallConfig). Qed.

(** * The claims *)

(** C2.  Whatever the state of the engine: when [p] is off the board, or
    the cell at [p] holds a stone, or the status is not [playing],
    [placeStone] returns [false] and the board, the log, the status, the
    player to move, the last move, the winning line and the move counters
    of both players are what they were. *)
Theorem placeStone_illegal_unchanged g p now :
  inBounds (boardSize (config g)) (row p) (col p) = false ∨
  (∃ s, cellAt (board g) (row p) (col p) = Some (Some s)) ∨
  gameStatus g ≠ playing →
  (placeStone g p now).1 = false ∧
  board (placeStone g p now).2 = board g ∧
  history (placeStone g p now).2 = history g ∧
  gameStatus (placeStone g p now).2 = gameStatus g ∧
  currentPlayer (placeStone g p now).2 = currentPlayer g ∧
  lastMove (placeStone g p now).2 = lastMove g ∧
  winningPositions (placeStone g p now).2 = winningPositions g ∧
  players (placeStone g p now).2 = players g.
Proof.
  intros H. rewrite placeStone_rejected; [done|].
  destruct H as [H|[[s H]|H]]; [by left| |by right; right].
  right. left. congruence.
Qed.

Lemma placeStone_illegal_unchanged_witness :
  (∃ s, cellAt (board eightMoves) 7 7 = Some (Some s)) ∧
  (placeStone eightMoves (mkPosition 7 7) 9).1 = false ∧
  board (placeStone eightMoves (mkPosition 7 7) 9).2 = board eightMoves.
Proof.
  assert (H : ∃ s, cellAt (board eightMoves) 7 7 = Some (Some s))
    by (exists black; vm_compute; reflexivity).
  split; [exact H|].
  pose proof (placeStone_illegal_unchanged eightMoves (mkPosition 7 7) 9
                (or_intror (or_introl H))) as W.
  split; [apply W | apply W].
Defined.

(** C1.  In a reachable [playing] state, for a cell [p] on the board that
    is empty: [placeStone] writes the stone of the player to move at [p],
    and then
    - if some axis through [p] carries a contiguous run of at least
      [winCount] stones of that player, the status becomes that player's
      win and the winning line is set to the cells gathered on the first
      such axis in the order horizontal, vertical, main diagonal,
      anti-diagonal: a gap-free stretch of that axis through [p], at least
      [winCount] cells, [p] among them, every one holding that player's
      stone;
    - if no axis does, the status is not a win and the winning line is
      still absent. *)
Theorem placeStone_win_detection g p now :
  reachable g →
  gameStatus g = playing →
  isValidPosition g p = true →
  cellAt (board g) (row p) (col p) = Some None →
  let n := boardSize (config g) in
  let w := winCount (config g) in
  let s := currentPlayer g in
  let b' := setCell (board g) (row p) (col p) (Some s) in
  let g' := (placeStone g p now).2 in
  (placeStone g p now).1 = true ∧
  board g' = b' ∧
  ((∃ a, axisReaches n b' s a p w) →
     gameStatus g' = winStatus s ∧
     ∃ a l,
       firstReaching n b' s p w a ∧
       winningPositions g' = Some l ∧
       contiguousLine a p l ∧
       w <= Z.of_nat (length l) ∧
       p ∈ l ∧
       ∀ q, q ∈ l → holds n b' s q) ∧
  ((∀ a, ¬ axisReaches n b' s a p w) →
     ¬ isWin (gameStatus g') ∧ winningPositions g' = None).
Proof.
  intros Hreach Hs Hv Hc n w s b' g'.
  pose proof (inv_line g (reachable_invariant g Hreach) (or_introl Hs)) as Hnone.
  subst g'.
  destruct (placeStone_outcome g p now Hv Hc Hs)
    as [(a & l & Hfirst & Hline & Hlen & Hin & Hall & ->)
       |[(Hno & _ & ->)|(Hno & _ & ->)]]; cbn [fst snd];
    (split; [done|]); (split; [done|]).
  - split.
    + intros _. split; [done|]. exists a, l. by repeat (split; [done|]).
    + intros Hno. destruct Hfirst as [Hr _]. by destruct (Hno a).
  - split.
    + intros [a Ha]. by destruct (Hno a).
    + intros _. split; [|done]. by intros [?|?].
  - split.
    + intros [a Ha]. by destruct (Hno a).
    + intros _. split; [|done]. simpl. rewrite Hs. by intros [?|?].
Qed.

Lemma placeStone_win_detection_witness :
  gameStatus (placeStone eightMoves (mkPosition 7 11) 9).2 =
  winStatus (currentPlayer eightMoves) ∧
  ∃ a l,
    firstReaching (boardSize (config eightMoves))
      (setCell (board eightMoves) (row (mkPosition 7 11)) (col (mkPosition 7 11))
               (Some (currentPlayer eightMoves)))
      (currentPlayer eightMoves) (mkPosition 7 11) (winCount (config eightMoves)) a ∧
    winningPositions (placeStone eightMoves (mkPosition 7 11) 9).2 = Some l ∧
    contiguousLine a (mkPosition 7 11) l ∧
    winCount (config eightMoves) <= Z.of_nat (length l) ∧
    mkPosition 7 11 ∈ l ∧
    ∀ q, q ∈ l →
         holds (boardSize (config eightMoves))
           (setCell (board eightMoves) (row (mkPosition 7 11)) (col (mkPosition 7 11))
                    (Some (currentPlayer eightMoves)))
           (currentPlayer eightMoves) q.
Proof.
  assert (Hreach : reachable eightMoves)
    by apply reachable_playMoves, reachable_defaultGame.
  assert (Hs : gameStatus eightMoves = playing) by (vm_compute; reflexivity).
  assert (Hv : isValidPosition eightMoves (mkPosition 7 11) = true)
    by (vm_compute; reflexivity).
  assert (Hc : cellAt (board eightMoves) (row (mkPosition 7 11)) (col (mkPosition 7 11))
               = Some None) by (vm_compute; reflexivity).
  pose proof (placeStone_win_detection eightMoves (mkPosition 7 11) 9 Hreach Hs Hv Hc) as W.
  cbv zeta in W. destruct W as (_ & _ & Hwin & _).
  apply Hwin. exists horizontal, 0%nat, 4%nat. split; [|vm_compute; discriminate].
  intros t Ht.
  assert (t = -4 ∨ t = -3 ∨ t = -2 ∨ t = -1 ∨ t = 0) as [-> | [-> | [-> | [-> | ->]]]]
    by lia; vm_compute; split; reflexivity.
Defined.

(** C3 as stated fails: [undo] refuses once the game is over, so a
    placement that wins is not taken back.  After the eight moves of the
    scenario black completes five in a row at (7,11); [placeStone]
    returns [true], the following [undo] returns [false]. *)
Lemma undo_after_winning_move_refused :
  reachable eightMoves ∧
  gameStatus eightMoves = playing ∧
  (placeStone eightMoves (mkPosition 7 11) 9).1 = true ∧
  ¬ undoRestores eightMoves (mkPosition 7 11) 9.
Proof.
  split; [apply reachable_playMoves, reachable_defaultGame|].
  split; [vm_compute; reflexivity|]. split; [vm_compute; reflexivity|].
  intros [H _]. vm_compute in H. discriminate.
Qed.

(** C3, amended.  In a reachable [playing] state, when [placeStone]
    returns [true] and the game goes on (the status is still [playing]),
    the [undo] that follows returns [true] and gives back the board, the
    log, the player to move and the last move exactly; when the placement
    ended the game, [undo] returns [false] and changes nothing. *)
Theorem placeStone_undo_restores g p now :
  reachable g →
  gameStatus g = playing →
  (placeStone g p now).1 = true →
  (gameStatus (placeStone g p now).2 = playing → undoRestores g p now) ∧
  (gameStatus (placeStone g p now).2 ≠ playing →
   undo (placeStone g p now).2 = (false, (placeStone g p now).2)).
Proof.
  intros Hreach Hs Htrue. split; [|intros H; apply undo_rejected; by right].
  destruct (placeStone_true g p now Htrue) as (Hv & Hc & _).
  pose proof (reachable_invariant g Hreach) as Hinv.
  unfold undoRestores.
  destruct (placeStone_outcome g p now Hv Hc Hs)
    as [(a & l & _ & _ & _ & _ & _ & ->)|[(_ & _ & ->)|(_ & _ & ->)]]; cbn [snd].
  - simpl. by destruct (currentPlayer g).
  - done.
  - intros _.
    rewrite (undo_accepted _ (history g)
               (mkHistoryItem p (currentPlayer g) (Z.of_nat (length (history g)) + 1) now))
      by done.
    cbn [fst snd board history currentPlayer lastMove set_currentPlayer stonePlaced
         position stone].
    split; [done|]. split; [|split; [done|split]].
    + rewrite setCell_setCell. by apply setCell_id.
    + destruct (last (history g)) eqn:E; [done|].
      apply last_None in E. rewrite (inv_player g Hinv (or_introl Hs)), E. done.
    + symmetry. apply (inv_last g Hinv).
Qed.

Lemma placeStone_undo_restores_witness :
  undoRestores eightMoves (mkPosition 8 8) 9.
Proof.
  assert (Hreach : reachable eightMoves)
    by apply reachable_playMoves, reachable_defaultGame.
  assert (Hs : gameStatus eightMoves = playing) by (vm_compute; reflexivity).
  assert (Ht : (placeStone eightMoves (mkPosition 8 8) 9).1 = true)
    by (vm_compute; reflexivity).
  assert (Hs' : gameStatus (placeStone eightMoves (mkPosition 8 8) 9).2 = playing)
    by (vm_compute; reflexivity).
  exact (proj1 (placeStone_undo_restores eightMoves (mkPosition 8 8) 9 Hreach Hs Ht) Hs').
Defined.

(** ** Sequences of placements *)

Lemma placeStone_history_length g p now :
  length (history (placeStone g p now).2) =
  (length (history g) + if (placeStone g p now).1 then 1 else 0)%nat.
Proof.
  destruct (isValidPosition g p) eqn:Hv;
    [|rewrite placeStone_rejected by (by left); simpl; lia].
  destruct (decide (cellAt (board g) (row p) (col p) = Some None)) as [Hc|Hc];
    [|rewrite placeStone_rejected by (right; by left); simpl; lia].
  destruct (decide (gameStatus g = playing)) as [Hs|Hs];
    [|rewrite placeStone_rejected by (right; by right); simpl; lia].
  destruct (placeStone_outcome g p now Hv Hc Hs)
    as [(a & l & _ & _ & _ & _ & _ & ->)|[(_ & _ & ->)|(_ & _ & ->)]];
    simpl; by rewrite length_app.
Qed.

Lemma placeAll_invariant g calls : invariant g → invariant (placeAll g calls).1.
Proof.
  revert g. induction calls as [|[p now] calls IH]; intros g Hinv; [done|].
  simpl. by apply IH, invariant_placeStone.
Qed.

Lemma placeAll_history_length g calls :
  length (history (placeAll g calls).1) = (length (history g) + (placeAll g calls).2)%nat.
Proof.
  revert g. induction calls as [|[p now] calls IH]; intros g; simpl; [lia|].
  rewrite IH, placeStone_history_length. lia.
Qed.

(** Once the game is over no later call is accepted; so the accepted
    calls of a sequence all left the game running exactly when the status
    is [playing] at its end. *)
Lemma placeAll_game_over g calls :
  gameStatus g ≠ playing → placeAll g calls = (g, 0%nat).
Proof.
  intros Hs. induction calls as [|[p now] calls IH]; [done|].
  simpl. rewrite placeStone_rejected by (right; by right). simpl. by rewrite IH.
Qed.

(** C4.  Starting from a freshly constructed engine, after any sequence of
    [placeStone] calls (so also after every prefix of one) the number of
    non-empty cells is the length of the log; and if the [N] calls that
    returned [true] all left the game running, black is to move when [N]
    is even and white when [N] is odd. *)
Theorem placeAll_count_and_turn cfg g0 calls :
  constructor cfg = Some g0 →
  countStones (board (placeAll g0 calls).1) = length (history (placeAll g0 calls).1) ∧
  (gameStatus (placeAll g0 calls).1 = playing →
   currentPlayer (placeAll g0 calls).1 =
   if Nat.even (placeAll g0 calls).2 then black else white).
Proof.
  intros Hnew.
  pose proof (placeAll_invariant g0 calls (invariant_constructor cfg g0 Hnew)) as Hinv.
  split; [apply (inv_count _ Hinv)|].
  intros Hs. rewrite (inv_player _ Hinv (or_introl Hs)), placeAll_history_length.
  unfold constructor in Hnew. case_decide; [|done].
  apply (inj Some) in Hnew. by subst g0.
Qed.

Lemma placeAll_count_and_turn_witness :
  countStones (board (placeAll defaultGame
     [(mkPosition 7 7, 1); (mkPosition 7 7, 2); (mkPosition 0 0, 3); (mkPosition 7 8, 4)]).1) =
  length (history (placeAll defaultGame
     [(mkPosition 7 7, 1); (mkPosition 7 7, 2); (mkPosition 0 0, 3); (mkPosition 7 8, 4)]).1) ∧
  currentPlayer (placeAll defaultGame
     [(mkPosition 7 7, 1); (mkPosition 7 7, 2); (mkPosition 0 0, 3); (mkPosition 7 8, 4)]).1 =
  if Nat.even (placeAll defaultGame
     [(mkPosition 7 7, 1); (mkPosition 7 7, 2); (mkPosition 0 0, 3); (mkPosition 7 8, 4)]).2
  then black else white.
Proof.
  assert (Hnew : constructor None = Some defaultGame) by reflexivity.
  destruct (placeAll_count_and_turn None defaultGame
     [(mkPosition 7 7, 1); (mkPosition 7 7, 2); (mkPosition 0 0, 3); (mkPosition 7 8, 4)]
     Hnew) as [Hcount Hturn].
  split; [exact Hcount|]. apply Hturn. vm_compute. reflexivity.
Defined.

(** ** Draws *)

Lemma boardSquare_stonePlaced g p now : boardSquare g → boardSquare (stonePlaced g p now).
Proof.
  intros (Hn & Hlen & Hrows). split; [done|]. simpl. split.
  - by rewrite length_setCell.
  - by apply Forall_length_setCell.
Qed.

(** C5.  For a [placeStone] that returns [true] on the square board: the
    status becomes [draw] exactly when, with the stone placed, every cell
    of the [boardSize] x [boardSize] grid is occupied and no axis through
    the placed stone reaches [winCount]; and exactly when
    [getEmptyPositions] is empty and the status is not a win. *)
Theorem placeStone_draw_iff g p now :
  boardSquare g →
  (placeStone g p now).1 = true →
  let g' := (placeStone g p now).2 in
  let n := boardSize (config g) in
  (gameStatus g' = draw ↔
   allOccupied n (board g') ∧
   ∀ a, ¬ axisReaches n (board g') (currentPlayer g) a p (winCount (config g))) ∧
  (gameStatus g' = draw ↔ getEmptyPositions g' = [] ∧ ¬ isWin (gameStatus g')).
Proof.
  intros Hsq Htrue g' n. subst g'.
  destruct (placeStone_true g p now Htrue) as (Hv & Hc & Hs).
  pose proof (boardSquare_stonePlaced g p now Hsq) as Hsq4.
  pose proof (isDraw_allOccupied _ Hsq4) as Hocc.
  pose proof (isDraw_getEmptyPositions (stonePlaced g p now)) as Hemp.
  destruct (placeStone_outcome g p now Hv Hc Hs)
    as [(a & l & [Hr _] & _ & _ & _ & _ & ->)|[(Hno & Hd & ->)|(Hno & Hd & ->)]];
    cbn [snd].
  - split; (split; [by destruct (currentPlayer g)|]).
    + intros [_ Hno]. by destruct (Hno a).
    + intros [_ Hnw]. destruct Hnw. simpl. unfold isWin. destruct (currentPlayer g); eauto.
  - split; (split; [intros _|done]).
    + split; [by apply Hocc|done].
    + split; [by apply Hemp|]. by intros [?|?].
  - simpl. rewrite Hs. split; (split; [done|]).
    + intros [Ho _]. apply Hocc in Ho. simpl in Ho. congruence.
    + intros [He _]. apply Hemp in He. congruence.
Qed.

Lemma placeStone_draw_iff_witness :
  gameStatus (placeStone almostFull (mkPosition 2 2) 9).2 = draw.
Proof.
  assert (Hsq : boardSquare almostFull).
  { apply (inv_square almostFull), reachable_invariant, reachable_playMoves,
      reachable_smallGame. }
  assert (Ht : (placeStone almostFull (mkPosition 2 2) 9).1 = true)
    by (vm_compute; reflexivity).
  pose proof (placeStone_draw_iff almostFull (mkPosition 2 2) 9 Hsq Ht) as W.
  cbv zeta in W. destruct W as [_ [_ W]]. apply W. split.
  - vm_compute. reflexivity.
  - intros [H|H]; vm_compute in H; discriminate.
Defined.

(** ** The constructor *)

(** C9 as stated fails: a configuration with [boardSize = 2] and
    [winCount = 5] is neither rejected nor clamped. *)
Lemma constructor_accepts_unwinnable_config :
  ¬ rejectsOrClamps (Some (mkPartialGameConfig (Some 2) (Some 5) None None None)).
Proof. vm_compute. intros H. by apply H. Qed.

(** C9, amended.  The constructor does not compare [winCount] with
    [boardSize]: whenever [boardSize] is an array length it builds the
    engine, with [boardSize] and [winCount] exactly as given (also when
    [winCount] exceeds [boardSize]), an empty [boardSize] x [boardSize]
    board, black to move and the status [playing]. *)
Theorem constructor_keeps_config bs w m d t :
  0 <= bs < 4294967296 →
  ∃ g,
    constructor (Some (mkPartialGameConfig (Some bs) (Some w) m d t)) = Some g ∧
    boardSize (config g) = bs ∧
    winCount (config g) = w ∧
    board g = emptyBoard bs ∧
    currentPlayer g = black ∧
    gameStatus g = playing.
Proof.
  intros Hbs. unfold constructor. simpl. rewrite decide_True by lia. eauto 10.
Qed.

Lemma constructor_keeps_config_witness :
  ∃ g,
    constructor (Some (mkPartialGameConfig (Some 2) (Some 5) None None None)) = Some g ∧
    boardSize (config g) = 2 ∧
    winCount (config g) = 5 ∧
    board g = emptyBoard 2 ∧
    currentPlayer g = black ∧
    gameStatus g = playing.
Proof. apply (constructor_keeps_config 2 5 None None None). lia. Defined.

(** ** The simulated win test of the opponent *)

Lemma countAxis_checkAxis g p s direction :
  boardSize (config g) = boardLength (board g) →
  cellAt (board g) (row p) (col p) = Some (Some s) →
  countAxis (board g) p s direction = (checkAxis g p direction).2.
Proof.
  intros Hn Hc. unfold countAxis, checkAxis. rewrite Hc, Hn.
  replace (Z.to_nat (boardLength (board g))) with (length (board g))
    by (unfold boardLength; lia).
  generalize [mkPosition (row p) (col p)]. generalize 1.
  induction direction as [|d direction IH]; intros count positions; [done|].
  cbn [fold_left]. rewrite scanLine_steps, countLine_steps. cbn [fst snd]. apply IH.
Qed.

(** C10.  On an engine whose board is [b] (so that [boardSize] is
    [b.length]) and whose connection length is [w], when the cell at [p]
    holds [s]: the win test of the opponent, [checkWinAt(b, p, s, w)], and
    the win check of the engine at [p] give the same answer. *)
Theorem checkWinAt_agrees_with_checkWin g p s :
  boardSize (config g) = boardLength (board g) →
  cellAt (board g) (row p) (col p) = Some (Some s) →
  checkWinAt (board g) p s (winCount (config g)) = (checkWin g p).1.
Proof.
  intros Hn Hc. unfold checkWinAt, checkWin.
  induction directions as [|direction dirs IH]; [done|].
  cbn [checkWinAt_loop checkWin_loop].
  rewrite (countAxis_checkAxis g p s direction Hn Hc).
  destruct (winCount (config g) <=? (checkAxis g p direction).2); [done|apply IH].
Qed.

Lemma checkWinAt_agrees_with_checkWin_witness :
  checkWinAt (board wonGame) (mkPosition 7 11) black (winCount (config wonGame)) =
  (checkWin wonGame (mkPosition 7 11)).1.
Proof.
  apply (checkWinAt_agrees_with_checkWin wonGame (mkPosition 7 11) black);
    vm_compute; reflexivity.
Defined.
(** ** The tiers of the opponent *)

(** On the engine's own board the win test of the opponent is the win
    check of the engine, axis by axis. *)
Lemma checkWinAt_loop_checkWin_loop g p s dirs :
  boardSize (config g) = boardLength (board g) →
  cellAt (board g) (row p) (col p) = Some (Some s) →
  checkWinAt_loop (board g) p s (winCount (config g)) dirs = (checkWin_loop g p dirs).1.
Proof.
  intros Hn Hc. induction dirs as [|direction dirs IH]; [done|].
  cbn [checkWinAt_loop checkWin_loop].
  rewrite (countAxis_checkAxis g p s direction Hn Hc).
  destruct (winCount (config g) <=? (checkAxis g p direction).2); [done|apply IH].
Qed.

(** The simulation of the opponent finds [pos] winning for [s] exactly
    when, with a stone of [s] on the empty cell [pos] of the square board,
    some axis through [pos] holds a run of [w] stones of [s]. *)
Lemma winsAt_completes (b : Board) s w pos :
  Forall (λ rw : list (option Stone), length rw = length b) b →
  cellAt b (row pos) (col pos) = Some None →
  winsAt b s w pos = true ↔
  ∃ a, axisReaches (boardLength b) (setCell b (row pos) (col pos) (Some s)) s a pos w.
Proof.
  intros Hsq Hc.
  set (g := mkGame (setCell b (row pos) (col pos) (Some s)) s playing None [] None
              (mkGameConfig (boardLength (setCell b (row pos) (col pos) (Some s))) w pvp
                            None None)
              (initialPlayers pvp)).
  assert (Hlen : boardLength (setCell b (row pos) (col pos) (Some s)) = boardLength b)
    by (unfold boardLength; by rewrite length_setCell).
  assert (Hcell : cellAt (board g) (row pos) (col pos) = Some (Some s))
    by (by apply (cellAt_setCell_eq _ _ _ _ None)).
  assert (Hholds : holds (boardSize (config g)) (board g) s pos).
  { split; [|done]. cbn [boardSize config g]. rewrite Hlen.
    apply cellAt_Some in Hc as (Hr & Hcol & rw & Hrw & Hx).
    rewrite Forall_lookup in Hsq. specialize (Hsq _ _ Hrw).
    apply lookup_lt_Some in Hrw. apply lookup_lt_Some in Hx.
    apply inBounds_true. unfold boardLength. lia. }
  unfold winsAt, checkWinAt.
  change (checkWinAt_loop (setCell b (row pos) (col pos) (Some s)) pos s w directions)
    with (checkWinAt_loop (board g) pos s (winCount (config g)) directions).
  rewrite (checkWinAt_loop_checkWin_loop g pos s directions eq_refl Hcell).
  fold (checkWin g pos). rewrite <- Hlen.
  change (boardLength (setCell b (row pos) (col pos) (Some s))) with (boardSize (config g)).
  change (setCell b (row pos) (col pos) (Some s)) with (board g).
  change w with (winCount (config g)).
  destruct (checkWin_spec g pos s Hholds) as [(a & l & [Hr _] & -> & _)|[Hno ->]].
  - split; [|done]. intros _. by exists a.
  - split; [done|]. intros [a Ha]. by destruct (Hno a).
Qed.

Lemma head_filter_split {A} (P : A → Prop) `{!∀ x, Decision (P x)} (l : list A) x :
  head (filter P l) = Some x →
  ∃ l1 l2, l = l1 ++ x :: l2 ∧ P x ∧ ∀ y, y ∈ l1 → ¬ P y.
Proof.
  induction l as [|a l IH]; [done|]. rewrite filter_cons. case_decide as Ha.
  - intros [= ->]. exists [], l. split; [done|]. split; [done|].
    intros y Hy. by apply elem_of_nil in Hy.
  - intros (l1 & l2 & -> & Hx & Hl1)%IH. exists (a :: l1), l2. split; [done|].
    split; [done|]. intros y [->|Hy]%elem_of_cons; [done|by apply Hl1].
Qed.

Lemma head_filter_none {A} (P : A → Prop) `{!∀ x, Decision (P x)} (l : list A) :
  head (filter P l) = None → ∀ y, y ∈ l → ¬ P y.
Proof.
  intros Hnil%head_None y Hy HP.
  assert (Hin : y ∈ filter P l) by (by apply list_elem_of_filter).
  rewrite Hnil in Hin. by apply elem_of_nil in Hin.
Qed.

(** * The claims on the opponent *)

(** C6.  For every opponent (its engine's configuration and its stone),
    every board and every list of empty cells of that board, the hard
    tier returns the position the normal tier returns.  On a square board
    and a non-empty list, that position is chosen by the priority order
    win, block, scored fallback, each layer scanning the list in its
    order:
    - the first position of the list where a stone of the opponent would
      complete a run of [winCount] on some axis, if there is one;
    - else the first position where a stone of the other player would;
    - else the first position whose score no later position exceeds and
      which exceeds the score of every earlier one.
    The hard tier looks no further ahead than that. *)
Theorem getHardMove_is_getNormalMove ai b ps :
  let s := aiStone ai in
  let w := winCount (config (game ai)) in
  let completes (mover : Stone) (pos : Position) :=
    ∃ a, axisReaches (boardLength b) (setCell b (row pos) (col pos) (Some mover))
                     mover a pos w in
  allEmpty b ps →
  getHardMove ai b ps = getNormalMove ai b ps ∧
  (Forall (λ rw : list (option Stone), length rw = length b) b →
   ps ≠ [] →
   ∃ l1 p l2,
     ps = l1 ++ p :: l2 ∧
     getNormalMove ai b ps = Some p ∧
     ((completes s p ∧ ∀ q, q ∈ l1 → ¬ completes s q) ∨
      ((∀ q, q ∈ ps → ¬ completes s q) ∧
       completes (opponentOf s) p ∧ ∀ q, q ∈ l1 → ¬ completes (opponentOf s) q) ∨
      ((∀ q, q ∈ ps → ¬ completes s q ∧ ¬ completes (opponentOf s) q) ∧
       (∀ q, q ∈ l1 → PrimFloat.ltb (scoreOf b s q) (scoreOf b s p) = true ∨
                       PrimFloat.is_nan (scoreOf b s q) = true) ∧
       (∀ q, q ∈ l2 → PrimFloat.ltb (scoreOf b s p) (scoreOf b s q) = false)))).
Proof.
  intros s w completes He.
  split.
  { rewrite (getHardMove_priorities ai b ps He), (getNormalMove_priorities ai b ps He).
    destruct (head (filter _ ps)); [done|]. by destruct (head (filter _ ps)). }
  intros Hsq Hne.
  assert (Hw : ∀ mover q, q ∈ ps → winsAt b mover w q = true ↔ completes mover q).
  { intros mover q Hq. apply winsAt_completes; [done|].
    unfold allEmpty in He. rewrite Forall_forall in He. by apply He. }
  rewrite (getNormalMove_priorities ai b ps He).
  fold s w.
  destruct (head (filter (λ pos, winsAt b s w pos = true) ps)) as [p|] eqn:E1.
  { destruct (head_filter_split _ _ _ E1) as (l1 & l2 & Hps & Hp & Hl1).
    exists l1, p, l2. do 2 (split; [done|]). left. split.
    - apply Hw; [|done]. rewrite Hps. apply elem_of_app. right. apply list_elem_of_here.
    - intros q Hq Hc. apply (Hl1 q Hq), Hw; [|done]. rewrite Hps. apply elem_of_app. by left. }
  pose proof (head_filter_none _ _ E1) as Hnone.
  assert (Hno : ∀ q, q ∈ ps → ¬ completes s q)
    by (intros q Hq Hc; by apply (Hnone q Hq), Hw).
  destruct (head (filter (λ pos, winsAt b (opponentOf s) w pos = true) ps)) as [p|] eqn:E2.
  { destruct (head_filter_split _ _ _ E2) as (l1 & l2 & Hps & Hp & Hl1).
    exists l1, p, l2. do 2 (split; [done|]). right. left. split; [done|]. split.
    - apply Hw; [|done]. rewrite Hps. apply elem_of_app. right. apply list_elem_of_here.
    - intros q Hq Hc. apply (Hl1 q Hq), Hw; [|done]. rewrite Hps. apply elem_of_app. by left. }
  pose proof (head_filter_none _ _ E2) as Hnone'.
  destruct (scoredFallback_first b s ps Hne) as (l1 & p & l2 & Hps & Hp & Hl1 & Hl2).
  exists l1, p, l2. do 2 (split; [done|]). right. right. split; [|done].
  intros q Hq. split; [by apply Hno|]. intros Hc. by apply (Hnone' q Hq), Hw.
Qed.

(** On [tinyRace] white can complete its row at (1,2); black would
    complete its own at (0,2), which comes first in the list: both tiers
    take the win. *)
Lemma getHardMove_is_getNormalMove_witness :
  (getHardMove (mkAI tinyRace normal white) (getBoard tinyRace) (getEmptyPositions tinyRace) =
   getNormalMove (mkAI tinyRace normal white) (getBoard tinyRace) (getEmptyPositions tinyRace) ∧
   ∃ l1 p l2,
     getEmptyPositions tinyRace = l1 ++ p :: l2 ∧
     getNormalMove (mkAI tinyRace normal white) (getBoard tinyRace)
                   (getEmptyPositions tinyRace) = Some p ∧
     (((∃ a, axisReaches (boardLength (getBoard tinyRace))
                (setCell (getBoard tinyRace) (row p) (col p)
                         (Some (aiStone (mkAI tinyRace normal white))))
                (aiStone (mkAI tinyRace normal white)) a p
                (winCount (config (game (mkAI tinyRace normal white))))) ∧
       ∀ q, q ∈ l1 →
         ¬ ∃ a, axisReaches (boardLength (getBoard tinyRace))
                  (setCell (getBoard tinyRace) (row q) (col q)
                           (Some (aiStone (mkAI tinyRace normal white))))
                  (aiStone (mkAI tinyRace normal white)) a q
                  (winCount (config (game (mkAI tinyRace normal white))))) ∨
      ((∀ q, q ∈ getEmptyPositions tinyRace →
          ¬ ∃ a, axisReaches (boardLength (getBoard tinyRace))
                   (setCell (getBoard tinyRace) (row q) (col q)
                            (Some (aiStone (mkAI tinyRace normal white))))
                   (aiStone (mkAI tinyRace normal white)) a q
                   (winCount (config (game (mkAI tinyRace normal white))))) ∧
       (∃ a, axisReaches (boardLength (getBoard tinyRace))
                (setCell (getBoard tinyRace) (row p) (col p)
                         (Some (opponentOf (aiStone (mkAI tinyRace normal white)))))
                (opponentOf (aiStone (mkAI tinyRace normal white))) a p
                (winCount (config (game (mkAI tinyRace normal white))))) ∧
       ∀ q, q ∈ l1 →
         ¬ ∃ a, axisReaches (boardLength (getBoard tinyRace))
                  (setCell (getBoard tinyRace) (row q) (col q)
                           (Some (opponentOf (aiStone (mkAI tinyRace normal white)))))
                  (opponentOf (aiStone (mkAI tinyRace normal white))) a q
                  (winCount (config (game (mkAI tinyRace normal white))))) ∨
      ((∀ q, q ∈ getEmptyPositions tinyRace →
          (¬ ∃ a, axisReaches (boardLength (getBoard tinyRace))
                    (setCell (getBoard tinyRace) (row q) (col q)
                             (Some (aiStone (mkAI tinyRace normal white))))
                    (aiStone (mkAI tinyRace normal white)) a q
                    (winCount (config (game (mkAI tinyRace normal white))))) ∧
          ¬ ∃ a, axisReaches (boardLength (getBoard tinyRace))
                   (setCell (getBoard tinyRace) (row q) (col q)
                            (Some (opponentOf (aiStone (mkAI tinyRace normal white)))))
                   (opponentOf (aiStone (mkAI tinyRace normal white))) a q
                   (winCount (config (game (mkAI tinyRace normal white))))) ∧
       (∀ q, q ∈ l1 →
          PrimFloat.ltb (scoreOf (getBoard tinyRace) (aiStone (mkAI tinyRace normal white)) q)
                        (scoreOf (getBoard tinyRace) (aiStone (mkAI tinyRace normal white)) p)
          = true ∨
          PrimFloat.is_nan (scoreOf (getBoard tinyRace)
                                    (aiStone (mkAI tinyRace normal white)) q) = true) ∧
       (∀ q, q ∈ l2 →
          PrimFloat.ltb (scoreOf (getBoard tinyRace) (aiStone (mkAI tinyRace normal white)) p)
                        (scoreOf (getBoard tinyRace) (aiStone (mkAI tinyRace normal white)) q)
          = false)))) ∧
  getNormalMove (mkAI tinyRace normal white) (getBoard tinyRace) (getEmptyPositions tinyRace)
  = Some (mkPosition 1 2) ∧
  head (getEmptyPositions tinyRace) = Some (mkPosition 0 2) ∧
  winsAt (getBoard tinyRace) black 3 (mkPosition 0 2) = true.
Proof.
  assert (He : allEmpty (getBoard tinyRace) (getEmptyPositions tinyRace))
    by (apply (bool_decide_unpack _); vm_compute; exact I).
  split; [|vm_compute; done].
  split.
  - apply (getHardMove_is_getNormalMove (mkAI tinyRace normal white) (getBoard tinyRace)
             (getEmptyPositions tinyRace) He).
  - apply (getHardMove_is_getNormalMove (mkAI tinyRace normal white) (getBoard tinyRace)
             (getEmptyPositions tinyRace) He).
    + apply (bool_decide_unpack _). vm_compute. exact I.
    + vm_compute. discriminate.
Defined.

(** The walk of the evaluator always ends: some number of consecutive
    stones is found in every direction. *)
Lemma consecutive_exists b s p a :
  (∃ k, consecutive b s p (axisDir a).1 (axisDir a).2 k) ∧
  (∃ k, consecutive b s p (- (axisDir a).1) (- (axisDir a).2) k).
Proof.
  split; eexists; apply consecutive_steps; [apply axisDir_unit|].
  destruct (axisDir_unit a) as (? & ? & ?). unfold unitDirection. lia.
Qed.

(** C7.  [evaluatePosition(board, p, s)] is the sum over the four axes of
    the table value of the axis, for the run length 1 plus the stones of
    [s] found in a row walking outward from [p] in both directions (the
    cell [p] itself is not looked at) and for the number of far ends that
    are on the board and empty. *)
Theorem evaluatePosition_table b p s (kf kb : Axis → nat) :
  (∀ a, consecutive b s p (axisDir a).1 (axisDir a).2 (kf a)) →
  (∀ a, consecutive b s p (- (axisDir a).1) (- (axisDir a).2) (kb a)) →
  let value a :=
    tableValue (1 + Z.of_nat (kf a) + Z.of_nat (kb a))
               (openEnd b p (axisDir a).1 (axisDir a).2 (kf a) +
                openEnd b p (- (axisDir a).1) (- (axisDir a).2) (kb a)) in
  evaluatePosition b p s =
  value horizontal + value vertical + value mainDiagonal + value antiDiagonal.
Proof.
  intros Hf Hb value. unfold evaluatePosition. rewrite directions_axes.
  cbn [axes fmap list_fmap fold_left].
  rewrite !(evalAxis_consecutive b p s _ _ _ (Hf _) (Hb _)). cbn [fst snd].
  rewrite !axisScore_tableValue. subst value. cbv beta. lia.
Qed.

Lemma evaluatePosition_table_witness :
  evaluatePosition (board afterCenter) (mkPosition 7 8) black = 50.
Proof.
  pose proof (evaluatePosition_table (board afterCenter) (mkPosition 7 8) black
                (λ _, 0%nat) (λ a, match a with horizontal => 1%nat | _ => 0%nat end)) as W.
  rewrite W; [vm_compute; reflexivity| |].
  - intros a. split; [intros t Ht; simpl in Ht; lia|]. destruct a; vm_compute; reflexivity.
  - intros a. split.
    + intros t Ht. destruct a; simpl in Ht; try lia.
      assert (t = 1) as -> by lia. vm_compute. reflexivity.
    + destruct a; vm_compute; reflexivity.
Defined.

(** C8.  The code departs from the claim: the distance in the score is
    not measured from the centre cell.  After black's opening move at
    (7,7) on the default board no position wins for either colour at once;
    the score of the claim, with the centre cell (7,7), makes (5,7) the
    first best position, and the selector returns (7,9). *)
Lemma normal_tier_not_centre_cell :
  forallb (λ pos, negb (winsAt (getBoard afterCenter) white 5 pos) &&
                  negb (winsAt (getBoard afterCenter) black 5 pos))
          (getEmptyPositions afterCenter) = true ∧
  firstMaximum (claimedScore (getBoard afterCenter) white) (getEmptyPositions afterCenter)
  = Some (mkPosition 5 7) ∧
  getNormalMove whiteNormal (getBoard afterCenter) (getEmptyPositions afterCenter)
  = Some (mkPosition 7 9) ∧
  getNormalMove whiteNormal (getBoard afterCenter) (getEmptyPositions afterCenter) ≠
  firstMaximum (claimedScore (getBoard afterCenter) white) (getEmptyPositions afterCenter).
Proof.
  split; [vm_compute; reflexivity|]. split; [vm_compute; reflexivity|].
  split; [vm_compute; reflexivity|]. vm_compute. discriminate.
Qed.

(** The opening rule, next to it in the source, does use the centre
    cell. *)
Lemma getNextMove_opening k :
  getNextMove (mkAI defaultGame normal white) k = Some (mkPosition 7 7).
Proof. vm_compute. reflexivity. Qed.

(** What the source measures the distance from: [board.length / 2], the
    exact quotient. *)
Lemma scoreOf_unfold b mover pos :
  scoreOf b mover pos =
  PrimFloat.sub
    (PrimFloat.sub
       (PrimFloat.add (numberOfZ 0) (numberOfZ (evaluatePosition b pos mover)))
       (numberOfZ (evaluatePosition b pos (opponentOf mover))))
    (PrimFloat.mul
       (PrimFloat.add
          (PrimFloat.abs (PrimFloat.sub (numberOfZ (row pos))
                                        (PrimFloat.div (numberOfZ (boardLength b)) (numberOfZ 2))))
          (PrimFloat.abs (PrimFloat.sub (numberOfZ (col pos))
                                        (PrimFloat.div (numberOfZ (boardLength b)) (numberOfZ 2)))))
       oneTenth).
Proof. reflexivity. Qed.

Lemma default_board_half : PrimFloat.div (numberOfZ 15) (numberOfZ 2) = 7.5%float.
Proof. reflexivity. Qed.

(** What the third loop of the normal tier computes.  When no position
    of the list wins at once for either colour, the selector returns the
    first position, in the order of the list, whose score no position
    exceeds; the distance term of the score is taken from
    [board.length / 2], the exact quotient (7.5 on the default board),
    where the opening rule of [getNextMove] takes the centre cell
    [Math.floor(board.length / 2)].  (Scores are numbers: none is
    NaN.) *)
Lemma getNormalMove_first_maximum ai b ps :
  let half := PrimFloat.div (numberOfZ (boardLength b)) (numberOfZ 2) in
  let score pos :=
    PrimFloat.sub
      (PrimFloat.sub
         (PrimFloat.add (numberOfZ 0) (numberOfZ (evaluatePosition b pos (aiStone ai))))
         (numberOfZ (evaluatePosition b pos (opponentOf (aiStone ai)))))
      (PrimFloat.mul
         (PrimFloat.add (PrimFloat.abs (PrimFloat.sub (numberOfZ (row pos)) half))
                        (PrimFloat.abs (PrimFloat.sub (numberOfZ (col pos)) half)))
         oneTenth) in
  allEmpty b ps →
  Forall (λ pos, winsAt b (aiStone ai) (winCount (config (game ai))) pos = false ∧
                 winsAt b (opponentOf (aiStone ai)) (winCount (config (game ai))) pos = false)
         ps →
  Forall (λ pos, PrimFloat.is_nan (score pos) = false) ps →
  getNormalMove ai b ps = firstMaximum score ps.
Proof.
  intros half score Hempty Hquiet Hnum.
  change score with (scoreOf b (aiStone ai)) in *. clear half score.
  rewrite (getNormalMove_priorities ai b ps Hempty).
  rewrite Forall_forall in Hquiet. rewrite Forall_forall in Hnum.
  assert (∀ s, (∀ pos, pos ∈ ps → winsAt b s (winCount (config (game ai))) pos = false) →
               filter (λ pos, winsAt b s (winCount (config (game ai))) pos = true) ps = [])
    as Hnil.
  { intros s Hs. apply elem_of_nil_inv. intros q [Hq Hin]%list_elem_of_filter.
    rewrite (Hs q Hin) in Hq. done. }
  rewrite !Hnil by (intros pos Hpos; by destruct (Hquiet pos Hpos)). cbn [head].
  destruct (decide (ps = [])) as [->|Hne]; [done|].
  destruct (scoredFallback_first b (aiStone ai) ps Hne)
    as (l1 & p & l2 & Hps & -> & Hl1 & Hl2).
  rewrite Hps. symmetry. apply firstMaximum_intro; [|done].
  intros q Hq. destruct (Hl1 q Hq) as [H|H]; [done|].
  rewrite Hnum in H; [done|]. rewrite Hps. apply elem_of_app. by left.
Qed.

Lemma getNormalMove_first_maximum_witness :
  getNormalMove whiteNormal (getBoard afterCenter) (getEmptyPositions afterCenter) =
  firstMaximum (scoreOf (getBoard afterCenter) white) (getEmptyPositions afterCenter).
Proof.
  apply (getNormalMove_first_maximum whiteNormal (getBoard afterCenter)
           (getEmptyPositions afterCenter));
    apply (bool_decide_unpack _); vm_compute; exact I.
Defined.

(** ** Move counters as binary64 numbers

    Below [2^53] in absolute value, [x + 1] and [x - 1] on an integer are
    exact; from [2^53] on they round. *)

Lemma digits2_size p : digits2_pos p = Pos.size p.
Proof. induction p; simpl; congruence. Qed.

Lemma shiftP_S q k : shiftP q (S k) = xO (shiftP q k).
Proof. reflexivity. Qed.

Lemma shiftP_add q a b : shiftP (shiftP q a) b = shiftP q (a + b).
Proof. unfold shiftP. rewrite Nat.add_comm. symmetry. apply Nat.iter_add. Qed.

Lemma size_shiftP q k : Zpos (Pos.size (shiftP q k)) = Zpos (Pos.size q) + Z.of_nat k.
Proof.
  induction k as [|k IH]; [simpl; lia|].
  rewrite shiftP_S. cbn [Pos.size]. rewrite Pos2Z.inj_succ, IH. lia.
Qed.

Lemma Zpos_shiftP q k : Zpos (shiftP q k) = Zpos q * 2 ^ Z.of_nat k.
Proof.
  induction k as [|k IH]; [simpl; lia|].
  rewrite shiftP_S, Pos2Z.inj_xO, IH, Nat2Z.inj_succ, Z.pow_succ_r by lia. lia.
Qed.

Lemma Pos_iter_shiftP q k : Pos.iter xO q k = shiftP q (Pos.to_nat k).
Proof. unfold shiftP. apply Pos2Nat.inj_iter. Qed.

Lemma iter_pos_nat {A} (f : A → A) n x : SpecFloat.iter_pos f n x = Nat.iter (Pos.to_nat n) f x.
Proof.
  revert x. induction n as [n IH|n IH|]; intros x; cbn [SpecFloat.iter_pos].
  - rewrite !IH, Pos2Nat.inj_xI. rewrite <- Nat.iter_succ_r, <- Nat.iter_add. f_equal. lia.
  - rewrite !IH, Pos2Nat.inj_xO. rewrite <- Nat.iter_add. f_equal. lia.
  - reflexivity.
Qed.

Lemma shr_1_shiftP q k :
  Nat.iter k shr_1 (Build_shr_record (Zpos (shiftP q k)) false false) =
  Build_shr_record (Zpos q) false false.
Proof.
  induction k as [|k IH]; [reflexivity|].
  rewrite Nat.iter_succ_r, shiftP_S. cbn [shr_1 orb]. apply IH.
Qed.

Lemma fexp_digits d : -1021 <= d → fexp prec emax d = d - 53.
Proof. unfold fexp, emin, prec, emax. lia. Qed.

Lemma size_pos q : 1 <= Zpos (Pos.size q).
Proof. lia. Qed.

(** A mantissa of 53 digits is left as it is. *)
Lemma shr_fexp_canon M e :
  Zpos (Pos.size M) = 53 → -1074 <= e →
  shr_fexp prec emax (Zpos M) e loc_Exact = (Build_shr_record (Zpos M) false false, e).
Proof.
  intros HM He. unfold shr_fexp. cbn [Zdigits2 shr_record_of_loc].
  rewrite digits2_size, HM, fexp_digits by lia.
  replace (53 + e - 53 - e) with 0 by lia. reflexivity.
Qed.

Lemma binary_round_aux_canon s M e :
  Zpos (Pos.size M) = 53 → -1074 <= e <= 971 →
  binary_round_aux prec emax s (Zpos M) e loc_Exact = S754_finite s M e.
Proof.
  intros HM He. unfold binary_round_aux.
  rewrite (shr_fexp_canon M e HM) by lia.
  cbn [shr_m loc_of_shr_record round_nearest_even].
  rewrite (shr_fexp_canon M e HM) by lia. cbn [shr_m].
  replace (e <=? emax - prec) with true; [done|].
  symmetry. apply Z.leb_le. unfold emax, prec. lia.
Qed.

Lemma size_canon q :
  Zpos (Pos.size q) <= 53 →
  Zpos (Pos.size (shiftP q (Z.to_nat (53 - Zpos (Pos.size q))))) = 53.
Proof. intros Hd. rewrite size_shiftP. lia. Qed.

(** An integer of at most 53 digits, given as it is. *)
Lemma binary_round_int s q :
  Zpos (Pos.size q) <= 53 → binary_round prec emax s q 0 = SFint s q.
Proof.
  intros Hd. unfold binary_round, shl_align.
  rewrite digits2_size, fexp_digits by lia.
  destruct (Zpos (Pos.size q) + 0 - 53 - 0) as [|n|n] eqn:E; [|lia|].
  - assert (H53 : Zpos (Pos.size q) = 53) by lia.
    replace (Zpos (Pos.size q) + 0 - 53) with 0 by lia.
    rewrite binary_round_aux_canon by lia.
    unfold SFint. rewrite H53. reflexivity.
  - rewrite Pos_iter_shiftP.
    assert (Pos.to_nat n = Z.to_nat (53 - Zpos (Pos.size q))) as -> by lia.
    rewrite binary_round_aux_canon by (rewrite ?size_canon; lia).
    unfold SFint. f_equal; lia.
Qed.

(** The same integer with 52 more binary places. *)
Lemma binary_round_shift s q :
  Zpos (Pos.size q) <= 53 → binary_round prec emax s (shiftP q 52) (-52) = SFint s q.
Proof.
  intros Hd. pose proof (size_pos q) as H1. unfold binary_round, shl_align.
  rewrite digits2_size, size_shiftP, fexp_digits by lia.
  destruct (Zpos (Pos.size q) + Z.of_nat 52 + -52 - 53 - -52) as [|n|n] eqn:E; [| |lia].
  - (* one digit: already canonical *)
    assert (Hone : Zpos (Pos.size q) = 1) by lia.
    rewrite binary_round_aux_canon by (rewrite ?size_shiftP; lia).
    unfold SFint. rewrite Hone. reflexivity.
  - unfold binary_round_aux, shr_fexp at 1. cbn [Zdigits2 shr_record_of_loc].
    rewrite digits2_size, size_shiftP, fexp_digits by lia.
    unfold shr. rewrite E.
    rewrite iter_pos_nat.
    assert (Hsplit : shiftP q 52 =
                     shiftP (shiftP q (Z.to_nat (53 - Zpos (Pos.size q)))) (Pos.to_nat n)).
    { rewrite shiftP_add. f_equal. lia. }
    rewrite Hsplit, shr_1_shiftP.
    cbn [shr_m loc_of_shr_record round_nearest_even].
    rewrite shr_fexp_canon by (rewrite ?size_canon; lia). cbn [shr_m].
    replace (-52 + Zpos n <=? emax - prec) with true
      by (symmetry; apply Z.leb_le; unfold emax, prec; lia).
    unfold SFint. f_equal; lia.
Qed.

Lemma size_safe q : Zpos q < 2 ^ 53 → Zpos (Pos.size q) <= 53.
Proof.
  intros Hq. pose proof (Pos.size_le q) as Hle.
  apply Pos2Z.pos_le_pos in Hle. rewrite Pos2Z.inj_pow, (Pos2Z.inj_xO q) in Hle.
  destruct (Z.le_gt_cases (Zpos (Pos.size q)) 53) as [|Hgt]; [done|].
  assert (2 ^ 54 <= 2 ^ Zpos (Pos.size q)) by (apply Z.pow_le_mono_r; lia).
  lia.
Qed.

(** The numbers that hold the safe integers. *)
Lemma Prim2SF_numberOfZ z :
  - 2 ^ 53 < z < 2 ^ 53 →
  Prim2SF (numberOfZ z) =
  match z with
  | Z0 => S754_zero false
  | Zpos q => SFint false q
  | Zneg q => SFint true q
  end.
Proof.
  intros Hz. unfold numberOfZ.
  assert (Hsmall : ∀ q, Zpos q < 2 ^ 53 →
            Prim2SF (of_uint63 (Uint63.of_Z (Zpos q))) = SFint false q).
  { intros q Hq. rewrite of_uint63_spec, Uint63.of_Z_spec, Z.mod_small
      by (unfold Uint63.wB, Uint63.size; simpl; lia).
    apply binary_round_int, size_safe, Hq. }
  destruct z as [|q|q].
  - reflexivity.
  - change (Zpos q <? 0) with false. cbv iota. apply Hsmall. lia.
  - change (Zneg q <? 0) with true. cbv iota.
    rewrite opp_spec. change (- Zneg q) with (Zpos q). rewrite Hsmall by lia. reflexivity.
Qed.

Lemma shl_align_int q :
  Zpos (Pos.size q) <= 53 →
  shl_align (shiftP q (Z.to_nat (53 - Zpos (Pos.size q)))) (Zpos (Pos.size q) - 53) (-52)
  = (shiftP q 52, -52).
Proof.
  intros Hd. pose proof (size_pos q) as H1. unfold shl_align.
  destruct (-52 - (Zpos (Pos.size q) - 53)) as [|n|n] eqn:E; [|lia|].
  - assert (Hone : Zpos (Pos.size q) = 1) by lia. rewrite Hone. reflexivity.
  - rewrite Pos_iter_shiftP, shiftP_add. do 2 f_equal. lia.
Qed.

(** Binary64 keeps an integer of at most 53 digits given with 52 binary
    places. *)
Lemma binary_normalize_int w :
  - 2 ^ 53 < w < 2 ^ 53 →
  binary_normalize prec emax (w * 2 ^ 52) (-52) false =
  match w with
  | Z0 => S754_zero false
  | Zpos q => SFint false q
  | Zneg q => SFint true q
  end.
Proof.
  intros Hw. destruct w as [|q|q].
  - reflexivity.
  - change (2 ^ 52) with (2 ^ Z.of_nat 52). rewrite <- Zpos_shiftP.
    cbn [binary_normalize]. apply binary_round_shift, size_safe. lia.
  - change (Zneg q) with (- Zpos q). rewrite Z.mul_opp_l.
    change (2 ^ 52) with (2 ^ Z.of_nat 52). rewrite <- Zpos_shiftP.
    cbn [Z.opp binary_normalize]. apply binary_round_shift, size_safe. lia.
Qed.

Lemma SFadd_int_one sx qx sy :
  Zpos (Pos.size qx) <= 53 →
  SFadd prec emax (SFint sx qx) (SFint sy 1) =
  binary_normalize prec emax ((signedInt sx qx + signedInt sy 1) * 2 ^ 52) (-52) false.
Proof.
  intros Hx. pose proof (size_pos qx).
  change (SFint sy 1) with (S754_finite sy (shiftP 1 52) (-52)).
  unfold SFint. cbn [SFadd].
  rewrite Z.min_r by lia. rewrite shl_align_int by done.
  change (shl_align (shiftP 1 52) (-52) (-52)) with (shiftP 1 52, -52).
  cbn [fst]. f_equal.
  rewrite Z.mul_add_distr_r. change (2 ^ 52) with (2 ^ Z.of_nat 52).
  f_equal; [destruct sx|destruct sy]; unfold signedInt, cond_Zopp;
    rewrite ?Zpos_shiftP; try change (Zneg ?q) with (- Zpos q); lia.
Qed.

(** Adding or subtracting one is exact on the safe integers
    ([Number.isSafeInteger]). *)
Lemma number_add_one z d :
  d = 1 ∨ d = -1 →
  - 2 ^ 53 < z < 2 ^ 53 →
  - 2 ^ 53 < z + d < 2 ^ 53 →
  PrimFloat.add (numberOfZ z) (numberOfZ d) = numberOfZ (z + d).
Proof.
  intros Hd Hz Hzd. apply Prim2SF_inj.
  rewrite add_spec, (Prim2SF_numberOfZ z Hz), (Prim2SF_numberOfZ (z + d) Hzd).
  rewrite <- (binary_normalize_int (z + d) Hzd).
  assert (Hy : ∃ sy, Prim2SF (numberOfZ d) = SFint sy 1 ∧ signedInt sy 1 = d).
  { destruct Hd as [-> | ->]; [exists false|exists true]; split; reflexivity. }
  destruct Hy as (sy & -> & <-). unfold SF64add.
  destruct z as [|q|q].
  - destruct sy; reflexivity.
  - apply (SFadd_int_one false q sy), size_safe. lia.
  - apply (SFadd_int_one true q sy), size_safe. lia.
Qed.

(** [x - 1] is [x + (-1)]. *)
Lemma sub_one_add (x : float) :
  PrimFloat.sub x (numberOfZ 1) = PrimFloat.add x (numberOfZ (-1)).
Proof.
  apply Prim2SF_inj. rewrite sub_spec, add_spec.
  change (Prim2SF (numberOfZ 1)) with (S754_finite false (shiftP 1 52) (-52)).
  change (Prim2SF (numberOfZ (-1))) with (S754_finite true (shiftP 1 52) (-52)).
  unfold SF64sub, SF64add. destruct (Prim2SF x) as [s|s| |s m e]; try reflexivity.
Qed.

Lemma rounds_at_2_53 :
  PrimFloat.add (numberOfZ (2 ^ 53)) (numberOfZ 1) = numberOfZ (2 ^ 53) ∧
  PrimFloat.sub (numberOfZ (2 ^ 53)) (numberOfZ 1) = numberOfZ (2 ^ 53 - 1).
Proof. split; reflexivity. Qed.

(** * More of the code *)

(** ** Lines on a board that changes in one cell *)

Lemma along_along a q t u : along a (along a q t) u = along a q (t + u).
Proof. unfold along. simpl. f_equal; lia. Qed.

(** A run through [q] is a run through each of its cells. *)
Lemma axisReaches_recentre n b s a q w (i j : nat) t :
  runThrough n b s a q i j →
  w <= Z.of_nat i + Z.of_nat j + 1 →
  - Z.of_nat j <= t <= Z.of_nat i →
  axisReaches n b s a (along a q t) w.
Proof.
  intros Hrun Hw Ht. exists (Z.to_nat (Z.of_nat i - t)), (Z.to_nat (Z.of_nat j + t)).
  split; [|lia]. intros u Hu. rewrite along_along. apply Hrun. lia.
Qed.

Lemma holds_setCell_ne n (b : Board) p v s q :
  q ≠ p →
  holds n (setCell b (row p) (col p) v) s q ↔ holds n b s q.
Proof.
  intros Hne. unfold holds. rewrite cellAt_setCell_ne; [done|].
  intros [= Hr Hc]. apply Hne. destruct p, q. simpl in *. congruence.
Qed.

(** Writing a stone: a line on the new board goes through the new stone
    or was there before. *)
Lemma axisReaches_setCell_stone n (b : Board) p x s s' a q w :
  cellAt b (row p) (col p) = Some x →
  axisReaches n (setCell b (row p) (col p) (Some s)) s' a q w →
  axisReaches n (setCell b (row p) (col p) (Some s)) s a p w ∨ axisReaches n b s' a q w.
Proof.
  intros Hx (i & j & Hrun & Hw).
  destruct (decide (p ∈ segment a q i j)) as [Hin|Hout].
  - left. apply elem_of_segment in Hin as (t & Ht & ->).
    destruct (Hrun t Ht) as [_ Hcell].
    rewrite (cellAt_setCell_eq _ _ _ _ _ Hx) in Hcell.
    assert (s' = s) as -> by congruence.
    by apply (axisReaches_recentre n _ s a q w i j t).
  - right. exists i, j. split; [|done]. intros t Ht.
    apply (holds_setCell_ne n b p (Some s)); [|by apply Hrun].
    intros E. apply Hout, elem_of_segment. exists t. by rewrite E.
Qed.

(** Taking a stone off makes no line. *)
Lemma axisReaches_setCell_clear n (b : Board) p x s a q w :
  cellAt b (row p) (col p) = Some x →
  axisReaches n (setCell b (row p) (col p) None) s a q w →
  axisReaches n b s a q w.
Proof.
  intros Hx (i & j & Hrun & Hw). exists i, j. split; [|done]. intros t Ht.
  destruct (decide (along a q t = p)) as [E|Hne].
  - destruct (Hrun t Ht) as [_ Hcell]. rewrite E in Hcell.
    rewrite (cellAt_setCell_eq _ _ _ _ _ Hx) in Hcell. done.
  - apply (holds_setCell_ne n b p None); [done|by apply Hrun].
Qed.

Lemma axisReaches_holds n b s a q w : axisReaches n b s a q w → holds n b s q.
Proof.
  intros (i & j & Hrun & _). rewrite <- (along_0 a q). apply Hrun. lia.
Qed.

Lemma axisReaches_emptyBoard n s a q w : ¬ axisReaches n (emptyBoard n) s a q w.
Proof.
  intros [Hb Hc]%axisReaches_holds. apply inBounds_true in Hb as [? ?].
  rewrite cellAt_emptyBoard in Hc by done. done.
Qed.

(** ** The board, the log and the outcome *)

Lemma logInvariant_fresh g :
  invariant g →
  board g = emptyBoard (boardSize (config g)) →
  gameStatus g = playing → winningPositions g = None → history g = [] →
  logInvariant g.
Proof.
  intros Hinv Hb Hs Hw Hh. split; try done.
  - intros r c s. unfold logEntry. rewrite Hh, Hb. split.
    + unfold cellAt, emptyBoard. case_decide as Hrc; [|done].
      intros Hcell. destruct (replicate _ _ !! Z.to_nat r) as [rw|] eqn:E; [|done].
      apply lookup_replicate in E as [-> _]. simpl in Hcell.
      apply lookup_replicate in Hcell as [? _]. done.
    + intros (item & Hin & _). by apply elem_of_nil in Hin.
  - rewrite Hh. intros k item. by rewrite lookup_nil.
  - rewrite Hs. by intros [?|?].
  - intros _. split; [done|]. intros s a p. rewrite Hb. apply axisReaches_emptyBoard.
  - rewrite Hs. done.
Qed.

Lemma logInvariant_constructor cfg g : constructor cfg = Some g → logInvariant g.
Proof.
  intros Hnew. pose proof (invariant_constructor cfg g Hnew) as Hinv.
  unfold constructor in Hnew. case_decide; [|done].
  apply (inj Some) in Hnew. subst g. by apply logInvariant_fresh.
Qed.

Lemma logInvariant_reset g : logInvariant g → logInvariant (reset g).
Proof.
  intros H. apply logInvariant_fresh; try done. apply invariant_reset, H.
Qed.

(** The entries of the log after a stone is written. *)
Lemma logEntry_stonePlaced g p now r c s :
  logEntry (stonePlaced g p now) r c s ↔
  logEntry g r c s ∨ (p = mkPosition r c ∧ currentPlayer g = s).
Proof.
  unfold logEntry. simpl. split.
  - intros (item & [Hin| ->%list_elem_of_singleton]%elem_of_app & Hp & Hs); [left; eauto|].
    right. done.
  - intros [(item & Hin & Hp & Hs)|[Hp Hs]].
    + exists item. split; [apply elem_of_app; by left|done].
    + eexists. split; [apply elem_of_app; right; apply list_elem_of_here|done].
Qed.

Lemma log_board_stonePlaced g p now :
  logInvariant g →
  cellAt (board g) (row p) (col p) = Some None →
  ∀ r c s, cellAt (board (stonePlaced g p now)) r c = Some (Some s) ↔
           logEntry (stonePlaced g p now) r c s.
Proof.
  intros H Hc r c s. rewrite logEntry_stonePlaced. simpl.
  destruct (decide (p = mkPosition r c)) as [->|Hne].
  - simpl in *. rewrite (cellAt_setCell_eq _ _ _ _ _ Hc). split.
    + intros [= ->]. by right.
    + intros [He|[_ ->]]; [|done]. apply (log_board g H) in He. congruence.
  - rewrite cellAt_setCell_ne.
    + rewrite (log_board g H). split; [by left|]. by intros [?|[? _]].
    + intros [= Hr Hcol]. apply Hne. destruct p. simpl in *. congruence.
Qed.

Lemma log_numbers_stonePlaced g p now :
  logInvariant g →
  ∀ k item, history (stonePlaced g p now) !! k = Some item →
            moveNumber item = Z.of_nat k + 1.
Proof.
  intros H k item. simpl.
  intros [[Hk E]|[-> <-]]%lookup_snoc_Some; [by apply (log_numbers g H)|done].
Qed.

Lemma logInvariant_placeStone g p now : logInvariant g → logInvariant (placeStone g p now).2.
Proof.
  intros H.
  pose proof (invariant_placeStone g p now (log_base g H)) as Hbase.
  destruct (isValidPosition g p) eqn:Hv;
    [|by rewrite placeStone_rejected by (by left)].
  destruct (decide (cellAt (board g) (row p) (col p) = Some None)) as [Hc|Hc];
    [|by rewrite placeStone_rejected by (right; by left)].
  destruct (decide (gameStatus g = playing)) as [Hs|Hs];
    [|by rewrite placeStone_rejected by (right; by right)].
  pose proof (log_board_stonePlaced g p now H Hc) as Hboard.
  pose proof (log_numbers_stonePlaced g p now H) as Hnum.
  assert (Hline : winningPositions g = None).
  { apply (log_running g H). rewrite Hs. by intros [?|?]. }
  assert (Hold : ∀ s a q, ¬ axisReaches (boardSize (config g)) (board g) s a q
                            (winCount (config g))).
  { apply (log_running g H). rewrite Hs. by intros [?|?]. }
  assert (Hnew : (∀ a, ¬ axisReaches (boardSize (config g)) (board (stonePlaced g p now))
                          (currentPlayer g) a p (winCount (config g))) →
                 ∀ s a q, ¬ axisReaches (boardSize (config g)) (board (stonePlaced g p now))
                            s a q (winCount (config g))).
  { intros Hno s a q Hr. cbn in Hr.
    destruct (axisReaches_setCell_stone _ _ _ _ _ _ _ _ _ Hc Hr) as [Hp|Hq].
    - by apply (Hno a).
    - by apply (Hold s a q). }
  unfold logEntry in Hboard.
  destruct (placeStone_outcome g p now Hv Hc Hs)
    as [(a & l & Hfirst & Hcl & Hlen & Hin & Hall & Heq)
       |[(Hno & Hd & Heq)|(Hno & Hd & Heq)]];
    rewrite Heq in Hbase |- *; cbn [snd] in *;
    (split; [exact Hbase|exact Hboard|exact Hnum| | | ]);
    cbn [board history gameStatus winningPositions currentPlayer config
         set_gameStatus set_winningPositions set_currentPlayer].
  - intros _. split; [done|].
    eexists l, _. cbn. rewrite last_snoc.
    split; [done|]. split; [reflexivity|]. do 2 (split; [done|]).
    split; [by exists a|]. split; [done|]. exact Hall.
  - intros Hnw. destruct Hnw. unfold isWin. destruct (currentPlayer g); eauto.
  - by destruct (currentPlayer g).
  - by intros [?|?].
  - intros _. split; [done|]. by apply Hnew.
  - intros _. by apply isDraw_getEmptyPositions in Hd.
  - cbn. rewrite Hs. by intros [?|?].
  - intros _. split; [done|]. by apply Hnew.
  - cbn. by rewrite Hs.
Qed.

Lemma logInvariant_undo g : logInvariant g → logInvariant (undo g).2.
Proof.
  intros H.
  pose proof (invariant_undo g (log_base g H)) as Hbase.
  destruct (decide (gameStatus g = playing)) as [Hs|Hs];
    [|by rewrite undo_rejected by (by right)].
  destruct (last (history g)) as [item|] eqn:Hl;
    [|apply last_None in Hl; by rewrite undo_rejected by (by left)].
  apply last_Some in Hl as [h Hh].
  rewrite (undo_accepted g h item Hh Hs) in Hbase |- *. cbn [snd] in *.
  assert (Hrun : ¬ isWin (gameStatus g)) by (rewrite Hs; by intros [?|?]).
  destruct (log_running g H Hrun) as [Hline Hold].
  destruct (inv_cells g (log_base g H) item) as [x Hx];
    [rewrite Hh; apply elem_of_app; right; apply list_elem_of_here|].
  pose proof (inv_distinct g (log_base g H)) as Hnd.
  rewrite Hh, fmap_app in Hnd. apply NoDup_app in Hnd as (_ & Hnd & _).
  split; [exact Hbase| | | | | ];
    cbn [board history gameStatus winningPositions currentPlayer config].
  - intros r c s. unfold logEntry. cbn [history].
    destruct (decide (position item = mkPosition r c)) as [E|Hne].
    + assert (r = row (position item) ∧ c = col (position item)) as [-> ->]
        by (by rewrite E).
      rewrite (cellAt_setCell_eq _ _ _ _ _ Hx). split; [done|].
      intros (it & Hin & Hp & _). destruct (Hnd (position it)).
      * apply list_elem_of_fmap. eauto.
      * rewrite Hp, <- E. apply list_elem_of_here.
    + rewrite cellAt_setCell_ne.
      * rewrite (log_board g H). unfold logEntry. rewrite Hh. split.
        -- intros (it & [Hin| ->%list_elem_of_singleton]%elem_of_app & Hp & Hst);
             [eauto|done].
        -- intros (it & Hin & Hp & Hst). exists it. split; [|done].
           apply elem_of_app. by left.
      * intros [= Hr Hc]. apply Hne. destruct (position item). simpl in *. congruence.
  - intros k it Hk. apply (log_numbers g H). rewrite Hh. apply lookup_app_Some. by left.
  - intros Hw. by destruct Hrun.
  - intros _. split; [done|]. intros s a q Hr.
    apply (Hold s a q). by eapply axisReaches_setCell_clear.
  - by rewrite Hs.
Qed.

(** Every state of an engine satisfies [logInvariant]. *)
Lemma reachable_logInvariant g : reachable g → logInvariant g.
Proof.
  induction 1 as [cfg g H|g p now _ IH|g _ IH|g _ IH|g s info Hr IH|g Hr IH Hs|g Hr IH Hs].
  - by eapply logInvariant_constructor.
  - by apply logInvariant_placeStone.
  - by apply logInvariant_undo.
  - by apply logInvariant_reset.
  - pose proof (reachable_invariant _ (reach_update g s info Hr)) as Hbase.
    destruct IH as [_ Hboard Hnum Hwin Hrun Hdraw]. by destruct s; split.
  - pose proof (reachable_invariant _ (reach_pause g Hr Hs)) as Hbase.
    destruct IH as [_ Hboard Hnum Hwin Hrun Hdraw]. split; try done.
    + by intros [?|?].
    + intros _. apply Hrun. rewrite Hs. by intros [?|?].
  - pose proof (reachable_invariant _ (reach_resume g Hr Hs)) as Hbase.
    destruct IH as [_ Hboard Hnum Hwin Hrun Hdraw]. split; try done.
    + by intros [?|?].
    + intros _. apply Hrun. rewrite Hs. by intros [?|?].
Qed.

(** ** Counting the empty cells *)

Lemma bind_ext_elem {A B} (f g : A → list B) (l : list A) :
  (∀ x, x ∈ l → f x = g x) → l ≫= f = l ≫= g.
Proof.
  induction l as [|x l IH]; intros H; [done|].
  rewrite !bind_cons, (H x), IH; [done| |apply list_elem_of_here].
  intros y Hy. apply H. by right.
Qed.

(** In one row: the cells found empty and the stones make up the row. *)
Lemma row_count {B} (f : Z → B) (pre rw : list (option Stone)) :
  (length (c ← seqZ (Z.of_nat (length pre)) (Z.of_nat (length rw));
           if bool_decide ((pre ++ rw) !! Z.to_nat c = Some None) then [f c] else []) +
   length (filter (λ o : option Stone, is_Some o) rw) = length rw)%nat.
Proof.
  revert pre. induction rw as [|x rw IH]; intros pre; [done|].
  rewrite seqZ_cons by (simpl; lia). rewrite bind_cons, length_app, filter_cons.
  rewrite Nat2Z.id, list_lookup_middle by done.
  specialize (IH (pre ++ [x])). rewrite <- app_assoc, length_app in IH. cbn [app] in IH.
  replace (Z.succ (Z.of_nat (length pre))) with (Z.of_nat (length pre + length [x]))
    by (simpl; lia).
  replace (Z.pred (Z.of_nat (length (x :: rw)))) with (Z.of_nat (length rw))
    by (simpl; lia).
  destruct x as [s|].
  - rewrite bool_decide_eq_false_2 by done. rewrite decide_True by eauto. simpl in *. lia.
  - rewrite bool_decide_eq_true_2 by done.
    rewrite decide_False by apply is_Some_None. simpl in *. lia.
Qed.

Lemma board_count (n : nat) (pre rows : Board) :
  Forall (λ rw, length rw = n) rows →
  (length (r ← seqZ (Z.of_nat (length pre)) (Z.of_nat (length rows));
           c ← seqZ 0 (Z.of_nat n);
           if bool_decide (cellAt (pre ++ rows) r c = Some None)
           then [mkPosition r c] else []) +
   length (filter (λ o : option Stone, is_Some o) (concat rows)) = length rows * n)%nat.
Proof.
  intros Hrows. revert pre. induction Hrows as [|rw rows Hrw _ IH]; intros pre; [done|].
  rewrite (seqZ_cons (Z.of_nat (length pre))) by (simpl; lia).
  rewrite bind_cons, length_app.
  rewrite concat_cons, filter_app, length_app.
  specialize (IH (pre ++ [rw])). rewrite <- app_assoc, length_app in IH. cbn [app] in IH.
  replace (Z.succ (Z.of_nat (length pre))) with (Z.of_nat (length pre + length [rw]))
    by (simpl; lia).
  replace (Z.pred (Z.of_nat (length (rw :: rows)))) with (Z.of_nat (length rows))
    by (simpl; lia).
  pose proof (row_count (mkPosition (Z.of_nat (length pre))) [] rw) as Hrow.
  cbn [app length] in Hrow. rewrite Hrw in Hrow.
  rewrite (bind_ext_elem _
             (λ c, if bool_decide (rw !! Z.to_nat c = Some None)
                   then [mkPosition (Z.of_nat (length pre)) c] else [])).
  - change (Z.of_nat 0) with 0 in Hrow. cbn [length] in IH |- *.
    rewrite Nat.mul_succ_l. lia.
  - intros c Hc%elem_of_seqZ. unfold cellAt. rewrite decide_True by lia.
    rewrite Nat2Z.id, list_lookup_middle by done. done.
Qed.

(** On the square board the empty cells and the stones are all the
    cells. *)
Lemma getEmptyPositions_count g :
  boardSquare g →
  (length (getEmptyPositions g) + countStones (board g) =
   Z.to_nat (boardSize (config g)) * Z.to_nat (boardSize (config g)))%nat.
Proof.
  intros (Hn & Hlen & Hrows).
  pose proof (board_count (Z.to_nat (boardSize (config g))) [] (board g) Hrows) as H.
  cbn [app length] in H. rewrite Hlen, !Z2Nat.id in H by done. exact H.
Qed.

(** ** The order of [getEmptyPositions] *)

Lemma StronglySorted_seqZ m n : StronglySorted Z.lt (seqZ m n).
Proof.
  destruct (decide (0 <= n)) as [Hn|Hn]; [|rewrite seqZ_nil by lia; constructor].
  rewrite <- (Z2Nat.id n Hn). induction (Z.to_nat n) as [|k IH]; [constructor|].
  rewrite seqZ_S. apply StronglySorted_app_2; [|done|repeat constructor].
  intros x y Hx%elem_of_seqZ ->%list_elem_of_singleton. lia.
Qed.

Lemma StronglySorted_bind {A B} (R1 : relation A) (R : relation B) (f : A → list B)
    (l : list A) :
  StronglySorted R1 l →
  (∀ x, x ∈ l → StronglySorted R (f x)) →
  (∀ x y a b, R1 x y → a ∈ f x → b ∈ f y → R a b) →
  StronglySorted R (l ≫= f).
Proof.
  intros Hl Hf Hcross. induction Hl as [|x l Hl IH Hx]; [constructor|].
  rewrite bind_cons. apply StronglySorted_app_2.
  - intros a b Ha (y & Hb & Hy)%list_elem_of_bind.
    rewrite Forall_forall in Hx. eapply Hcross; [by apply Hx|done|done].
  - apply Hf, list_elem_of_here.
  - apply IH. intros y Hy. apply Hf. by right.
Qed.

Lemma getEmptyPositions_sorted g : StronglySorted rowMajor (getEmptyPositions g).
Proof.
  unfold getEmptyPositions.
  apply (StronglySorted_bind Z.lt); [apply StronglySorted_seqZ| |].
  - intros r _. apply (StronglySorted_bind Z.lt); [apply StronglySorted_seqZ| |].
    + intros c _. case_bool_decide; repeat constructor.
    + intros c c' p q Hlt Hp Hq. right.
      destruct (bool_decide (cellAt (board g) r c = Some None));
        [|by apply elem_of_nil in Hp].
      destruct (bool_decide (cellAt (board g) r c' = Some None));
        [|by apply elem_of_nil in Hq].
      apply list_elem_of_singleton in Hp as ->. apply list_elem_of_singleton in Hq as ->.
      done.
  - intros r r' p q Hlt (c & Hp & _)%list_elem_of_bind (c' & Hq & _)%list_elem_of_bind.
    left.
    destruct (bool_decide (cellAt (board g) r c = Some None));
      [|by apply elem_of_nil in Hp].
    destruct (bool_decide (cellAt (board g) r' c' = Some None));
      [|by apply elem_of_nil in Hq].
    apply list_elem_of_singleton in Hp as ->. apply list_elem_of_singleton in Hq as ->.
    done.
Qed.

Lemma rowMajor_irrefl p : ¬ rowMajor p p.
Proof. unfold rowMajor. lia. Qed.

Lemma StronglySorted_NoDup {A} (R : relation A) (l : list A) :
  (∀ x, ¬ R x x) → StronglySorted R l → NoDup l.
Proof.
  intros Hirr. induction 1 as [|x l Hl IH Hx]; [constructor|].
  constructor; [|done]. intros Hin. rewrite Forall_forall in Hx.
  by apply (Hirr x), Hx.
Qed.

(** ** More on the engine *)

Lemma Position_eq (p q : Position) : row p = row q → col p = col q → p = q.
Proof. destruct p, q. simpl. congruence. Qed.

Lemma cellAt_inBounds g r c x :
  boardSquare g → cellAt (board g) r c = Some x →
  inBounds (boardSize (config g)) r c = true.
Proof.
  intros (Hn & Hlen & Hrows) (Hr & Hc & rw & Hrw & Hx)%cellAt_Some.
  apply inBounds_true. rewrite Forall_lookup in Hrows.
  pose proof (lookup_lt_Some _ _ _ Hrw). pose proof (lookup_lt_Some _ _ _ Hx) as Hlt.
  rewrite (Hrows _ _ Hrw) in Hlt. lia.
Qed.

(** A run on the board is no longer than the board is wide. *)
Lemma runThrough_bound n b s a p (i j : nat) :
  runThrough n b s a p i j → Z.of_nat i + Z.of_nat j + 1 <= n.
Proof.
  intros Hrun.
  destruct (Hrun (Z.of_nat i) ltac:(lia)) as [[? ?]%inBounds_true _].
  destruct (Hrun (- Z.of_nat j) ltac:(lia)) as [[? ?]%inBounds_true _].
  destruct a; simpl in *; lia.
Qed.

Lemma contiguousLine_reaches n b s a p l w :
  contiguousLine a p l →
  (∀ q, q ∈ l → holds n b s q) →
  w <= Z.of_nat (length l) →
  axisReaches n b s a p w.
Proof.
  intros (i & j & Hperm) Hall Hw. exists i, j. split.
  - intros t Ht. apply Hall. rewrite Hperm. apply elem_of_segment. eauto.
  - rewrite Hperm, length_segment in Hw. lia.
Qed.

(** ** Steps of a move counter *)

Lemma stepNumber_up z :
  - 2 ^ 53 < z → z + 1 < 2 ^ 53 → stepNumber (numberOfZ z) 1 = numberOfZ (z + 1).
Proof.
  intros Hlo Hhi. unfold stepNumber. change (1 <? 0) with false. cbv iota.
  apply number_add_one; [by left|lia|lia].
Qed.

Lemma stepNumber_down z :
  - 2 ^ 53 < z - 1 → z < 2 ^ 53 → stepNumber (numberOfZ z) (-1) = numberOfZ (z - 1).
Proof.
  intros Hlo Hhi. unfold stepNumber. change (-1 <? 0) with true. cbv iota.
  change (- -1) with 1. rewrite sub_one_add.
  apply (number_add_one z (-1)); [by right|lia|lia].
Qed.

(** At [2^53] the two steps no longer cancel: [2^53 + 1] rounds to
    [2^53], and [-2^53 - 1] to [-2^53]. *)
Lemma stepNumber_rounds :
  stepNumber (stepNumber (numberOfZ (2 ^ 53)) 1) (-1) = numberOfZ (2 ^ 53 - 1) ∧
  stepNumber (stepNumber (numberOfZ (- 2 ^ 53)) (-1)) 1 = numberOfZ (- 2 ^ 53 + 1).
Proof. split; vm_compute; reflexivity. Qed.

(** On a counter that holds an integer with room for one more, [++] and
    then [--] give the counter back; so do [--] and then [++] on one with
    room for one less. *)
Lemma addMoveCount_cancel ps s z :
  moveCount (playerOf ps s) = numberOfZ z → - 2 ^ 53 < z → z + 1 < 2 ^ 53 →
  addMoveCount (addMoveCount ps s 1) s (-1) = ps.
Proof.
  intros Hz Hlo Hhi.
  destruct ps as [pb pw], s; cbn [playerOf players_black players_white] in Hz;
    unfold addMoveCount; cbn [players_black players_white set_moveCount moveCount];
    rewrite Hz, stepNumber_up, stepNumber_down by lia;
    replace (z + 1 - 1) with z by lia; rewrite <- Hz; by destruct pb, pw.
Qed.

Lemma addMoveCount_cancel_down ps s z :
  moveCount (playerOf ps s) = numberOfZ z → - 2 ^ 53 < z - 1 → z < 2 ^ 53 →
  addMoveCount (addMoveCount ps s (-1)) s 1 = ps.
Proof.
  intros Hz Hlo Hhi.
  destruct ps as [pb pw], s; cbn [playerOf players_black players_white] in Hz;
    unfold addMoveCount; cbn [players_black players_white set_moveCount moveCount];
    rewrite Hz, stepNumber_down, stepNumber_up by lia;
    replace (z - 1 + 1) with z by lia; rewrite <- Hz; by destruct pb, pw.
Qed.

(** A placement after which the game goes on is undone completely, when
    the counter of the mover holds an integer with room for one more: the
    engine is again the one it was, move counters included. *)
Lemma undo_placeStone_id g p now z :
  reachable g →
  moveCount (playerOf (players g) (currentPlayer g)) = numberOfZ z →
  - 2 ^ 53 < z → z + 1 < 2 ^ 53 →
  (placeStone g p now).1 = true →
  gameStatus (placeStone g p now).2 = playing →
  undo (placeStone g p now).2 = (true, g).
Proof.
  intros Hreach Hz Hlo Hhi Htrue.
  destruct (placeStone_true g p now Htrue) as (Hv & Hc & Hs).
  pose proof (reachable_invariant g Hreach) as Hinv.
  destruct (placeStone_outcome g p now Hv Hc Hs)
    as [(a & l & _ & _ & _ & _ & _ & ->)|[(_ & _ & ->)|(_ & _ & ->)]]; cbn [snd].
  - simpl. by destruct (currentPlayer g).
  - done.
  - intros _.
    rewrite (undo_accepted _ (history g)
               (mkHistoryItem p (currentPlayer g) (Z.of_nat (length (history g)) + 1) now))
      by done.
    cbn [fst snd board history currentPlayer lastMove set_currentPlayer stonePlaced
         position stone gameStatus winningPositions config players].
    rewrite setCell_setCell, (setCell_id _ _ _ _ Hc),
      (addMoveCount_cancel _ _ z Hz Hlo Hhi).
    rewrite <- (inv_last g Hinv).
    assert (match last (history g) with Some _ => currentPlayer g | None => black end
            = currentPlayer g) as ->.
    { destruct (last (history g)) eqn:E; [done|].
      apply last_None in E. rewrite (inv_player g Hinv (or_introl Hs)), E. done. }
    by destruct g.
Qed.

Lemma placeAll_app g l1 l2 :
  placeAll g (l1 ++ l2) =
  ((placeAll (placeAll g l1).1 l2).1, ((placeAll g l1).2 + (placeAll (placeAll g l1).1 l2).2)%nat).
Proof.
  revert g. induction l1 as [|[p now] l1 IH]; intros g.
  - simpl. by destruct (placeAll g l2).
  - simpl. rewrite IH. simpl. f_equal. lia.
Qed.

Lemma placeAll_accepted_le g calls : ((placeAll g calls).2 <= length calls)%nat.
Proof.
  revert g. induction calls as [|[p now] calls IH]; intros g; simpl; [lia|].
  specialize (IH (placeStone g p now).2). destruct (placeStone g p now).1; lia.
Qed.

Lemma placeAll_reachable g calls : reachable g → reachable (placeAll g calls).1.
Proof.
  revert g. induction calls as [|[p now] calls IH]; intros g Hg; [done|].
  simpl. by apply IH, reach_place.
Qed.

(** A running game on a board with a cell has a free cell. *)
Lemma open_of_empty_log g :
  invariant g → history g = [] → 0 < boardSize (config g) → getEmptyPositions g ≠ [].
Proof.
  intros Hinv Hh Hn He.
  pose proof (getEmptyPositions_count g (inv_square g Hinv)) as Hc.
  rewrite (inv_count g Hinv), Hh, He in Hc. simpl in Hc.
  assert (0 < Z.to_nat (boardSize (config g)))%nat by lia. nia.
Qed.

Lemma reachable_open g :
  reachable g →
  gameStatus g = playing ∨ gameStatus g = paused →
  0 < boardSize (config g) →
  getEmptyPositions g ≠ [].
Proof.
  induction 1 as [cfg g Hc|g p now Hg IH|g Hg IH|g Hg IH|g s info Hg IH|g Hg IH Hs|g Hg IH Hs].
  - intros _. apply open_of_empty_log; [by apply (invariant_constructor cfg)|].
    unfold constructor in Hc. case_decide; [|done]. by simplify_eq.
  - destruct (placeStone g p now).1 eqn:Htrue.
    + destruct (placeStone_true g p now Htrue) as (Hv & Hc & Hs).
      destruct (placeStone_outcome g p now Hv Hc Hs)
        as [(a & l & _ & _ & _ & _ & _ & ->)|[(_ & _ & ->)|(_ & Hd & ->)]]; cbn [snd].
      * simpl. by destruct (currentPlayer g); intros [?|?].
      * simpl. by intros [?|?].
      * intros _ _ He. apply (isDraw_getEmptyPositions (stonePlaced g p now)) in He.
        congruence.
    + assert (placeStone g p now = (false, g)) as ->; [|exact IH].
      destruct (isValidPosition g p) eqn:Hv; [|by apply placeStone_rejected; left].
      destruct (decide (cellAt (board g) (row p) (col p) = Some None)) as [Hc|Hc];
        [|by apply placeStone_rejected; right; left].
      destruct (decide (gameStatus g = playing)) as [Hs|Hs];
        [|by apply placeStone_rejected; right; right].
      destruct (placeStone_outcome g p now Hv Hc Hs)
        as [(a & l & _ & _ & _ & _ & _ & E)|[(_ & _ & E)|(_ & _ & E)]];
        by rewrite E in Htrue.
  - pose proof (reachable_invariant g Hg) as Hinv.
    destruct (decide (gameStatus g = playing)) as [Hs|Hs];
      [|by rewrite undo_rejected by (by right)].
    destruct (last (history g)) as [item|] eqn:Hl;
      [|apply last_None in Hl; by rewrite undo_rejected by (by left)].
    apply last_Some in Hl as [h Hh].
    rewrite (undo_accepted g h item Hh Hs). cbn [snd]. intros _ _ He.
    destruct (inv_cells g Hinv item) as [x Hx];
      [rewrite Hh; apply elem_of_app; right; apply list_elem_of_here|].
    assert (Hin : position item ∈
              getEmptyPositions
                (mkGame (setCell (board g) (row (position item)) (col (position item)) None)
                   (match last h with Some _ => stone item | None => black end)
                   (gameStatus g) (winningPositions g) h (position <$> last h) (config g)
                   (addMoveCount (players g) (stone item) (-1)))).
    { apply getEmptyPositions_elem. cbn [board config]. split.
      - by apply (cellAt_inBounds g _ _ (Some x)); [apply (inv_square g Hinv)|].
      - by rewrite (cellAt_setCell_eq _ _ _ _ _ Hx). }
    rewrite He in Hin. by apply elem_of_nil in Hin.
  - intros _. apply open_of_empty_log; [by apply invariant_reset, reachable_invariant|done].
  - unfold updatePlayerInfo. destruct s; exact IH.
  - intros _. apply IH. by left.
  - intros _. apply IH. by right.
Qed.

(** [played] states are states of an engine. *)
Lemma played_reachable g0 g : reachable g0 → played g0 g → reachable g.
Proof.
  intros H0. induction 1; [done|by apply reach_place|by apply reach_undo|
    by apply reach_reset|by apply reach_pause|by apply reach_resume].
Qed.

(** A single stone is a run of length one. *)
Lemma stone_reaches_one n b s a p w : holds n b s p → w <= 1 → axisReaches n b s a p w.
Proof.
  intros Hp Hw. exists 0%nat, 0%nat. split; [|simpl; lia].
  intros t Ht. assert (t = 0) as -> by (simpl in Ht; lia). by rewrite along_0.
Qed.

(** * Properties of the engine *)

(** X1.  [undo] returns [true] exactly when the log is not empty and the
    status is [playing]; when it returns [false] the engine is what it
    was. *)
Theorem undo_succeeds_iff g :
  ((undo g).1 = true ↔ history g ≠ [] ∧ gameStatus g = playing) ∧
  ((undo g).1 = false → (undo g).2 = g).
Proof.
  destruct (decide (gameStatus g = playing)) as [Hs|Hs].
  - destruct (last (history g)) as [item|] eqn:Hl.
    + apply last_Some in Hl as [h Hh].
      rewrite (undo_accepted g h item Hh Hs). cbn [fst snd]. split; [|done].
      split; [intros _|done]. split; [|done]. rewrite Hh. by destruct h.
    + apply last_None in Hl. rewrite undo_rejected by (by left). cbn [fst snd].
      split; [|done]. split; [done|]. by intros [? _].
  - rewrite undo_rejected by (by right). cbn [fst snd].
    split; [|done]. split; [done|]. by intros [_ ?].
Qed.

(** X2.  [placeStone] accepts a position exactly when the game is running
    and the position is one of those [getEmptyPositions] lists. *)
Theorem placeStone_accepts_iff g p now :
  (placeStone g p now).1 = true ↔ gameStatus g = playing ∧ p ∈ getEmptyPositions g.
Proof.
  rewrite getEmptyPositions_elem, <- isValidPosition_inBounds. split.
  - intros (Hv & Hc & Hs)%placeStone_true. done.
  - intros (Hs & Hv & Hc).
    destruct (placeStone_outcome g p now Hv Hc Hs)
      as [(a & l & _ & _ & _ & _ & _ & ->)|[(_ & _ & ->)|(_ & _ & ->)]]; done.
Qed.

(** X3.  [getEmptyPositions] lists the empty cells in row-major order,
    each one once: a position is in the list exactly when it is on the
    board ([0 <= row, col < boardSize]) and its cell is empty, the list is
    sorted by row and then by column, and no position is in it twice. *)
Theorem getEmptyPositions_row_major g :
  (∀ q, q ∈ getEmptyPositions g ↔
        inBounds (boardSize (config g)) (row q) (col q) = true ∧
        cellAt (board g) (row q) (col q) = Some None) ∧
  StronglySorted rowMajor (getEmptyPositions g) ∧ NoDup (getEmptyPositions g).
Proof.
  split; [intros q; apply getEmptyPositions_elem|].
  split; [apply getEmptyPositions_sorted|].
  apply (StronglySorted_NoDup rowMajor); [apply rowMajor_irrefl|apply getEmptyPositions_sorted].
Qed.

(** X4.  In every state of an engine the empty cells and the entries of
    the log add up to the [boardSize * boardSize] cells of the board. *)
Theorem empty_cells_plus_log g :
  reachable g →
  (length (getEmptyPositions g) + length (history g) =
   Z.to_nat (boardSize (config g)) * Z.to_nat (boardSize (config g)))%nat.
Proof.
  intros Hinv%reachable_invariant.
  rewrite <- (inv_count g Hinv). apply getEmptyPositions_count, (inv_square g Hinv).
Qed.

Lemma empty_cells_plus_log_witness :
  (length (getEmptyPositions almostFull) + length (history almostFull) =
   Z.to_nat (boardSize (config almostFull)) * Z.to_nat (boardSize (config almostFull)))%nat.
Proof.
  apply (empty_cells_plus_log almostFull).
  apply reachable_playMoves, reachable_smallGame.
Defined.

(** X5.  In every state of an engine the board is what the log says: a
    cell holds a stone exactly when an entry of the log put that stone
    there; and the last move, when there is one, is on the board and its
    cell holds a stone. *)
Theorem board_is_log g :
  reachable g →
  (∀ r c s, cellAt (board g) r c = Some (Some s) ↔ logEntry g r c s) ∧
  (∀ p, lastMove g = Some p →
        isValidPosition g p = true ∧
        ∃ s, cellAt (board g) (row p) (col p) = Some (Some s)).
Proof.
  intros Hlog%reachable_logInvariant. pose proof (log_base g Hlog) as Hinv.
  split; [apply (log_board g Hlog)|].
  intros p Hp. rewrite (inv_last g Hinv) in Hp.
  destruct (last (history g)) as [item|] eqn:Hl; [|done].
  injection Hp as <-.
  destruct (inv_cells g Hinv item) as [s Hs].
  { apply last_Some in Hl as [h ->]. apply elem_of_app. right. apply list_elem_of_here. }
  split; [|by exists s]. rewrite isValidPosition_inBounds.
  by apply (cellAt_inBounds g _ _ (Some s)); [apply (inv_square g Hinv)|].
Qed.

Lemma board_is_log_witness :
  (∀ r c s, cellAt (board almostFull) r c = Some (Some s) ↔ logEntry almostFull r c s) ∧
  (∀ p, lastMove almostFull = Some p →
        isValidPosition almostFull p = true ∧
        ∃ s, cellAt (board almostFull) (row p) (col p) = Some (Some s)).
Proof.
  apply (board_is_log almostFull).
  apply reachable_playMoves, reachable_smallGame.
Defined.

(** X6.  In every state of an engine the entry at index [k] of the log
    has move number [k + 1], the colour of the player who moves when [k]
    stones are on the board (black for even [k]), and a position on the
    board; and no two entries have the same position. *)
Theorem log_numbered_alternating g k item :
  reachable g →
  history g !! k = Some item →
  moveNumber item = Z.of_nat k + 1 ∧
  stone item = playerAtMove k ∧
  isValidPosition g (position item) = true ∧
  ∀ k' item', history g !! k' = Some item' → position item' = position item → k' = k.
Proof.
  intros Hlog%reachable_logInvariant Hk. pose proof (log_base g Hlog) as Hinv.
  split; [by apply (log_numbers g Hlog)|]. split; [by apply (inv_turns g Hinv)|]. split.
  - destruct (inv_cells g Hinv item) as [s Hs]; [by eapply list_elem_of_lookup_2|].
    rewrite isValidPosition_inBounds.
    by apply (cellAt_inBounds g _ _ (Some s)); [apply (inv_square g Hinv)|].
  - intros k' item' Hk' Hp.
    apply (NoDup_lookup _ k' k (position item) (inv_distinct g Hinv));
      rewrite list_lookup_fmap; [by rewrite Hk', <- Hp|by rewrite Hk].
Qed.

Lemma log_numbered_alternating_witness :
  moveNumber (mkHistoryItem (mkPosition 0 1) white 2 0) = Z.of_nat 1 + 1 ∧
  stone (mkHistoryItem (mkPosition 0 1) white 2 0) = playerAtMove 1 ∧
  isValidPosition almostFull (position (mkHistoryItem (mkPosition 0 1) white 2 0)) = true ∧
  ∀ k' item', history almostFull !! k' = Some item' →
              position item' = position (mkHistoryItem (mkPosition 0 1) white 2 0) → k' = 1%nat.
Proof.
  apply (log_numbered_alternating almostFull 1 (mkHistoryItem (mkPosition 0 1) white 2 0)).
  - apply reachable_playMoves, reachable_smallGame.
  - vm_compute. reflexivity.
Defined.

(** X7.  In every state of an engine whose status is a win: the winner is
    the player who made the last move, who is still the player to move;
    the winning line is set, is a gap-free stretch of one axis through
    the last move, has at least [winCount] cells, and every cell of it
    holds the winner's stone. *)
Theorem win_has_line_and_winner g :
  reachable g →
  isWin (gameStatus g) →
  gameStatus g = winStatus (currentPlayer g) ∧
  ∃ l item a,
    winningPositions g = Some l ∧
    last (history g) = Some item ∧
    lastMove g = Some (position item) ∧
    stone item = currentPlayer g ∧
    position item ∈ l ∧
    contiguousLine a (position item) l ∧
    winCount (config g) <= Z.of_nat (length l) ∧
    ∀ q, q ∈ l → holds (boardSize (config g)) (board g) (currentPlayer g) q.
Proof.
  intros Hlog%reachable_logInvariant Hw. pose proof (log_base g Hlog) as Hinv.
  destruct (log_win g Hlog Hw) as (Hs & l & item & Hl & Hlast & Hst & Hin & [a Ha] & Hlen & Hall).
  split; [done|]. exists l, item, a. rewrite (inv_last g Hinv), Hlast. done.
Qed.

Lemma win_has_line_and_winner_witness :
  gameStatus wonGame = winStatus (currentPlayer wonGame) ∧
  ∃ l item a,
    winningPositions wonGame = Some l ∧
    last (history wonGame) = Some item ∧
    lastMove wonGame = Some (position item) ∧
    stone item = currentPlayer wonGame ∧
    position item ∈ l ∧
    contiguousLine a (position item) l ∧
    winCount (config wonGame) <= Z.of_nat (length l) ∧
    ∀ q, q ∈ l → holds (boardSize (config wonGame)) (board wonGame) (currentPlayer wonGame) q.
Proof.
  apply (win_has_line_and_winner wonGame).
  - apply reach_place, reachable_playMoves, reachable_defaultGame.
  - left. vm_compute. reflexivity.
Defined.

(** X8.  In every state of an engine the status is a win exactly when
    the winning line is set, and exactly when somewhere on the board some
    axis holds a run of [winCount] stones of one colour. *)
Theorem win_iff_line_on_board g :
  reachable g →
  (isWin (gameStatus g) ↔ winningPositions g ≠ None) ∧
  (isWin (gameStatus g) ↔
   ∃ s a p, axisReaches (boardSize (config g)) (board g) s a p (winCount (config g))).
Proof.
  intros Hlog%reachable_logInvariant.
  assert (Hdec : isWin (gameStatus g) ∨ ¬ isWin (gameStatus g)).
  { unfold isWin. destruct (gameStatus g); try (by left; eauto);
      right; by intros [?|?]. }
  split; split.
  - intros (_ & l & item & -> & _)%(log_win g Hlog). done.
  - intros Hne. destruct Hdec as [?|Hrun]; [done|].
    by destruct (log_running g Hlog Hrun) as [? _].
  - intros Hw. destruct (log_win g Hlog Hw)
      as (_ & l & item & _ & _ & _ & _ & [a Ha] & Hlen & Hall).
    exists (currentPlayer g), a, (position item).
    by apply (contiguousLine_reaches _ _ _ _ _ l).
  - intros (s & a & p & Hr). destruct Hdec as [?|Hrun]; [done|].
    destruct (log_running g Hlog Hrun) as [_ Hno]. by destruct (Hno s a p).
Qed.

Lemma win_iff_line_on_board_witness :
  (isWin (gameStatus almostFull) ↔ winningPositions almostFull ≠ None) ∧
  (isWin (gameStatus almostFull) ↔
   ∃ s a p, axisReaches (boardSize (config almostFull)) (board almostFull) s a p
                        (winCount (config almostFull))).
Proof.
  apply (win_iff_line_on_board almostFull).
  apply reachable_playMoves, reachable_smallGame.
Defined.

(** X9.  In every state of an engine with a board of at least one cell
    in which nobody has won: the status is [draw] exactly when no cell is
    empty, and exactly when the log has [boardSize * boardSize]
    entries.  So a game that is running or paused always has a free
    cell. *)
Theorem draw_iff_board_full g :
  reachable g →
  0 < boardSize (config g) →
  ¬ isWin (gameStatus g) →
  (gameStatus g = draw ↔ getEmptyPositions g = []) ∧
  (gameStatus g = draw ↔
   length (history g) =
   (Z.to_nat (boardSize (config g)) * Z.to_nat (boardSize (config g)))%nat).
Proof.
  intros Hreach Hn Hw.
  pose proof (reachable_logInvariant g Hreach) as Hlog.
  pose proof (log_base g Hlog) as Hinv.
  assert (Hfull : gameStatus g = draw ↔ getEmptyPositions g = []).
  { split; [apply (log_draw g Hlog)|]. intros He.
    destruct (gameStatus g) eqn:Hs; try done.
    - by destruct (reachable_open g Hreach); [left|..].
    - destruct Hw. by left.
    - destruct Hw. by right.
    - by destruct (reachable_open g Hreach); [right|..]. }
  split; [done|]. rewrite Hfull.
  pose proof (getEmptyPositions_count g (inv_square g Hinv)) as Hc.
  rewrite (inv_count g Hinv) in Hc.
  split; [intros He; rewrite He in Hc; simpl in Hc; lia|].
  intros Hl. apply length_zero_iff_nil. lia.
Qed.

Lemma draw_iff_board_full_witness :
  (gameStatus almostFull = draw ↔ getEmptyPositions almostFull = []) ∧
  (gameStatus almostFull = draw ↔
   length (history almostFull) =
   (Z.to_nat (boardSize (config almostFull)) * Z.to_nat (boardSize (config almostFull)))%nat).
Proof.
  apply (draw_iff_board_full almostFull).
  - apply reachable_playMoves, reachable_smallGame.
  - vm_compute. reflexivity.
  - intros [H|H]; vm_compute in H; discriminate H.
Defined.

Lemma placeStone_false g p now : (placeStone g p now).1 = false → placeStone g p now = (false, g).
Proof.
  intros Hf.
  destruct (isValidPosition g p) eqn:Hv; [|by apply placeStone_rejected; left].
  destruct (decide (cellAt (board g) (row p) (col p) = Some None)) as [Hc|Hc];
    [|by apply placeStone_rejected; right; left].
  destruct (decide (gameStatus g = playing)) as [Hs|Hs];
    [|by apply placeStone_rejected; right; right].
  destruct (placeStone_outcome g p now Hv Hc Hs)
    as [(a & l & _ & _ & _ & _ & _ & E)|[(_ & _ & E)|(_ & _ & E)]];
    by rewrite E in Hf.
Qed.

Lemma reachable_quickGame : reachable quickGame.
Proof.
  by apply (reach_new (Some (mkPartialGameConfig (Some 3) (Some 1) None None None))).
Qed.

Lemma reachable_tinyGame : reachable tinyGame.
Proof.
  by apply (reach_new (Some (mkPartialGameConfig (Some 3) (Some 3) None None None))).
Qed.

(** While nobody has won and the connection length is at most 1, the
    board of an engine is empty. *)
Lemma no_stone_when_one_wins g r c s :
  logInvariant g → ¬ isWin (gameStatus g) → winCount (config g) <= 1 →
  cellAt (board g) r c ≠ Some (Some s).
Proof.
  intros Hlog Hrun Hw Hc.
  destruct (log_running g Hlog Hrun) as [_ Hno].
  apply (Hno s horizontal (mkPosition r c)), stone_reaches_one; [|done].
  split; [|done]. simpl.
  by apply (cellAt_inBounds g _ _ (Some s)); [apply (inv_square g (log_base g Hlog))|].
Qed.

(** ** Move counters and setup *)

Lemma addMoveCount_names ps s d :
  name (players_black (addMoveCount ps s d)) = name (players_black ps) ∧
  name (players_white (addMoveCount ps s d)) = name (players_white ps) ∧
  playerStone (players_black (addMoveCount ps s d)) = playerStone (players_black ps) ∧
  playerStone (players_white (addMoveCount ps s d)) = playerStone (players_white ps) ∧
  timeUsed (players_black (addMoveCount ps s d)) = timeUsed (players_black ps) ∧
  timeUsed (players_white (addMoveCount ps s d)) = timeUsed (players_white ps).
Proof. by destruct s. Qed.

Lemma addMoveCount_moveCount ps s d s' :
  moveCount (playerOf (addMoveCount ps s d) s') =
  if decide (s' = s) then stepNumber (moveCount (playerOf ps s)) d
  else moveCount (playerOf ps s').
Proof. destruct s, s'; by case_decide. Qed.

Lemma countMoves_snoc s h item :
  countMoves s (h ++ [item]) =
  (countMoves s h + if decide (stone item = s) then 1 else 0)%nat.
Proof.
  unfold countMoves. rewrite filter_app, length_app. f_equal.
  rewrite filter_cons, filter_nil. by destruct (decide (stone item = s)).
Qed.

(** What [placeStone] and [undo] do to the log and to the players. *)
Lemma placeStone_players g p now :
  placeStone g p now = (false, g) ∨
  ((placeStone g p now).1 = true ∧
   config (placeStone g p now).2 = config g ∧
   players (placeStone g p now).2 = addMoveCount (players g) (currentPlayer g) 1 ∧
   history (placeStone g p now).2 =
   history g ++ [mkHistoryItem p (currentPlayer g) (Z.of_nat (length (history g)) + 1) now]).
Proof.
  destruct (placeStone g p now).1 eqn:Htrue; [right|left; by apply placeStone_false].
  destruct (placeStone_true g p now Htrue) as (Hv & Hc & Hs).
  destruct (placeStone_outcome g p now Hv Hc Hs)
    as [(a & l & _ & _ & _ & _ & _ & ->)|[(_ & _ & ->)|(_ & _ & ->)]]; done.
Qed.

Lemma undo_players g :
  undo g = (false, g) ∨
  ∃ h item,
    history g = h ++ [item] ∧ gameStatus g = playing ∧ (undo g).1 = true ∧
    config (undo g).2 = config g ∧
    players (undo g).2 = addMoveCount (players g) (stone item) (-1) ∧
    history (undo g).2 = h.
Proof.
  destruct (decide (gameStatus g = playing)) as [Hs|Hs];
    [|left; by rewrite undo_rejected by (by right)].
  destruct (last (history g)) as [item|] eqn:Hl;
    [|apply last_None in Hl; left; by rewrite undo_rejected by (by left)].
  apply last_Some in Hl as [h Hh]. right. exists h, item.
  by rewrite (undo_accepted g h item Hh Hs).
Qed.

(** ** Counters that stay exact *)

Lemma safeCounters_weaken g room room' :
  room' <= room → safeCounters g room → safeCounters g room'.
Proof.
  intros Hle Hsafe s. destruct (Hsafe s) as (z & Hz & Hlo & Hhi).
  exists z. split; [done|]. lia.
Qed.

Lemma placeStone_safeCounters g p now room :
  0 <= room → safeCounters g (room + 1) → safeCounters (placeStone g p now).2 room.
Proof.
  intros Hroom Hsafe.
  destruct (placeStone_players g p now) as [->|(_ & _ & Hps & _)];
    [apply (safeCounters_weaken g (room + 1)); [lia|done]|].
  intros s. rewrite Hps, addMoveCount_moveCount. case_decide as Hs.
  - subst s. destruct (Hsafe (currentPlayer g)) as (z & -> & Hlo & Hhi).
    exists (z + 1). rewrite stepNumber_up by lia. split; [done|]. lia.
  - destruct (Hsafe s) as (z & Hz & Hlo & Hhi). exists z. split; [done|]. lia.
Qed.

Lemma placeAll_safeCounters g calls room :
  0 <= room → safeCounters g (room + Z.of_nat (length calls)) →
  safeCounters (placeAll g calls).1 room.
Proof.
  intros Hroom. revert g. induction calls as [|[p now] calls IH]; intros g Hsafe.
  - apply (safeCounters_weaken g (room + Z.of_nat (length (@nil (Position * Z)))));
      [simpl; lia|done].
  - simpl. apply IH, placeStone_safeCounters; [lia|].
    apply (safeCounters_weaken g (room + Z.of_nat (length ((p, now) :: calls))));
      [cbn [length]; lia|done].
Qed.

(** A constructed engine has its counters at zero. *)
Lemma safeCounters_fresh g room :
  moveCount (players_black (players g)) = 0%float →
  moveCount (players_white (players g)) = 0%float →
  0 <= room < 2 ^ 53 →
  safeCounters g room.
Proof.
  intros Hb Hw Hroom [|]; exists 0; (split; [done|lia]).
Qed.

(** The log never has more entries than the board has cells. *)
Lemma log_fits_board g :
  reachable g →
  Z.of_nat (length (history g)) <= boardSize (config g) * boardSize (config g).
Proof.
  intros Hinv%reachable_invariant.
  pose proof (getEmptyPositions_count g (inv_square g Hinv)) as Hcount.
  rewrite (inv_count g Hinv) in Hcount. nia.
Qed.

Lemma countMoves_le s h : (countMoves s h <= length h)%nat.
Proof. apply length_filter. Qed.

Lemma played_config g0 g : played g0 g → config g = config g0.
Proof.
  induction 1 as [|g p now _ IH|g _ IH|g _ IH|g _ IH Hs|g _ IH Hs]; [done|..|done|done|done].
  - destruct (placeStone_players g p now) as [->|(_ & -> & _)]; done.
  - destruct (undo_players g) as [->|(h & item & _ & _ & _ & -> & _)]; done.
Qed.

(** Where [updatePlayerInfo] is not called, an engine keeps its
    configuration and the names and colours of its players, and no time
    is booked. *)
Lemma played_setup g0 g :
  timeUsed (players_black (players g0)) = 0 →
  timeUsed (players_white (players g0)) = 0 →
  played g0 g →
  config g = config g0 ∧
  name (players_black (players g)) = name (players_black (players g0)) ∧
  name (players_white (players g)) = name (players_white (players g0)) ∧
  playerStone (players_black (players g)) = playerStone (players_black (players g0)) ∧
  playerStone (players_white (players g)) = playerStone (players_white (players g0)) ∧
  timeUsed (players_black (players g)) = 0 ∧
  timeUsed (players_white (players g)) = 0.
Proof.
  intros Htb Htw.
  induction 1 as [|g p now _ IH|g _ IH|g _ IH|g _ IH Hs|g _ IH Hs].
  - by rewrite Htb, Htw.
  - destruct IH as (Hc & Hn1 & Hn2 & Hs1 & Hs2 & Ht1 & Ht2).
    destruct (placeStone_players g p now) as [->|(_ & -> & -> & _)]; [done|].
    destruct (addMoveCount_names (players g) (currentPlayer g) 1)
      as (-> & -> & -> & -> & -> & ->).
    done.
  - destruct IH as (Hc & Hn1 & Hn2 & Hs1 & Hs2 & Ht1 & Ht2).
    destruct (undo_players g) as [->|(h & item & Hh' & _ & _ & -> & -> & _)]; [done|].
    destruct (addMoveCount_names (players g) (stone item) (-1))
      as (-> & -> & -> & -> & -> & ->).
    done.
  - destruct IH as (Hc & Hn1 & Hn2 & Hs1 & Hs2 & Ht1 & Ht2).
    simpl. done.
  - exact IH.
  - exact IH.
Qed.

(** Where [updatePlayerInfo] is not called, on a board of fewer than
    [2^53] cells, each move counter is the number of log entries of its
    colour. *)
Lemma played_counters g0 g s :
  reachable g0 →
  history g0 = [] →
  moveCount (players_black (players g0)) = 0%float →
  moveCount (players_white (players g0)) = 0%float →
  boardSize (config g0) * boardSize (config g0) < 2 ^ 53 →
  played g0 g →
  moveCount (playerOf (players g) s) = numberOfZ (Z.of_nat (countMoves s (history g))).
Proof.
  intros Hreach0 Hh Hb Hw Hsize Hp. revert s.
  induction Hp as [|g p now Hp IH|g Hp IH|g Hp IH|g Hp IH Hs|g Hp IH Hs]; intros s.
  - rewrite Hh. by destruct s; simpl; rewrite ?Hb, ?Hw.
  - pose proof (played_reachable g0 g Hreach0 Hp) as Hreach.
    pose proof (log_fits_board _ (reach_place g p now Hreach)) as Hfit.
    pose proof (played_config g0 _ (played_place g0 g p now Hp)) as Hcfg.
    rewrite Hcfg in Hfit.
    destruct (placeStone_players g p now) as [->|(_ & _ & Hps & Hh')]; [apply IH|].
    rewrite Hps, Hh' in *. rewrite addMoveCount_moveCount, countMoves_snoc. cbn [stone].
    pose proof (countMoves_le (currentPlayer g) (history g)) as Hle.
    rewrite length_app in Hfit. cbn [length] in Hfit.
    repeat case_decide; try congruence.
    + subst s. rewrite IH, stepNumber_up by lia. f_equal. lia.
    + rewrite IH. f_equal. lia.
  - pose proof (played_reachable g0 g Hreach0 Hp) as Hreach.
    pose proof (log_fits_board _ Hreach) as Hfit.
    pose proof (played_config g0 _ Hp) as Hcfg. rewrite Hcfg in Hfit.
    destruct (undo_players g) as [->|(h & item & Hh' & _ & _ & _ & Hps & Hh'')]; [apply IH|].
    rewrite Hps, Hh''. rewrite addMoveCount_moveCount.
    pose proof (IH s) as IHs. pose proof (IH (stone item)) as IHi.
    rewrite Hh', countMoves_snoc in IHs, IHi.
    pose proof (countMoves_le (stone item) h) as Hle.
    rewrite Hh', length_app in Hfit. cbn [length] in Hfit.
    repeat case_decide; try congruence.
    + subst s. rewrite IHi, stepNumber_down by lia. f_equal. lia.
    + rewrite IHs. f_equal. lia.
  - by destruct s.
  - exact (IH s).
  - exact (IH s).
Qed.

Lemma countMoves_turns h :
  (∀ k item, h !! k = Some item → stone item = playerAtMove k) →
  (countMoves black h + countMoves white h = length h)%nat ∧
  countMoves black h = (countMoves white h + if Nat.even (length h) then 0 else 1)%nat.
Proof.
  induction h as [|x h IH] using rev_ind; intros Hturn; [done|].
  destruct IH as [Hsum Hdiff].
  { intros k item Hk. apply Hturn. by apply lookup_app_l_Some. }
  assert (Hx : stone x = playerAtMove (length h)).
  { apply Hturn. by rewrite lookup_app_r, Nat.sub_diag by lia. }
  rewrite !countMoves_snoc, length_app, Hx. cbn [length].
  rewrite Nat.add_1_r, Nat.even_succ, <- Nat.negb_even.
  unfold playerAtMove. destruct (Nat.even (length h)); simpl;
    repeat case_decide; try congruence; lia.
Qed.

Lemma played_playMoves g0 g ps : played g0 g → played g0 (playMoves g ps).
Proof.
  revert g. induction ps as [|p ps IH]; intros g Hg; [done|].
  apply IH. by apply played_place.
Qed.

(** X10.  From any state of an engine whose move counters hold integers
    with room for the placements (integers [z] with [-2^53 < z] and
    [z + length calls < 2^53]): when every call of a sequence of
    [placeStone] calls returned [true] and the game is still running, as
    many calls of [undo] give back the engine exactly as it was, move
    counters included. *)
Theorem undo_all_placements g calls :
  reachable g →
  safeCounters g (Z.of_nat (length calls)) →
  (placeAll g calls).2 = length calls →
  gameStatus (placeAll g calls).1 = playing →
  undoTimes (length calls) (placeAll g calls).1 = g.
Proof.
  intros Hreach. induction calls as [|[p now] calls IH] using rev_ind; [done|].
  rewrite placeAll_app, length_app. cbn [fst snd placeAll length].
  rewrite Nat.add_1_r, Nat.add_0_r. intros Hsafe Hcount Hs.
  pose proof (placeAll_accepted_le g calls) as Hle.
  assert (Hsafe1 : safeCounters (placeAll g calls).1 1).
  { apply placeAll_safeCounters; [lia|].
    apply (safeCounters_weaken g (Z.of_nat (S (length calls)))); [lia|done]. }
  set (g1 := (placeAll g calls).1) in *.
  assert (Htrue : (placeStone g1 p now).1 = true)
    by (destruct (placeStone g1 p now).1; [done|lia]).
  rewrite Htrue in Hcount.
  cbn [undoTimes].
  destruct (Hsafe1 (currentPlayer g1)) as (z & Hz & Hlo & Hhi).
  rewrite (undo_placeStone_id g1 p now z (placeAll_reachable g calls Hreach) Hz Hlo Hhi
             Htrue Hs).
  cbn [snd]. apply IH; [|lia|].
  - apply (safeCounters_weaken g (Z.of_nat (S (length calls)))); [lia|done].
  - by destruct (placeStone_true g1 p now Htrue) as (_ & _ & ?).
Qed.

Lemma undo_all_placements_witness :
  undoTimes (length [(mkPosition 1 1, 5); (mkPosition 0 0, 6); (mkPosition 2 1, 7)])
            (placeAll smallGame [(mkPosition 1 1, 5); (mkPosition 0 0, 6); (mkPosition 2 1, 7)]).1
  = smallGame.
Proof.
  apply (undo_all_placements smallGame
           [(mkPosition 1 1, 5); (mkPosition 0 0, 6); (mkPosition 2 1, 7)]).
  - apply reachable_smallGame.
  - apply safeCounters_fresh; [reflexivity|reflexivity|simpl; lia].
  - vm_compute. reflexivity.
  - vm_compute. reflexivity.
Defined.

(** X11.  With a connection length of at most 1 the first stone decides
    the game: whenever such an engine accepts a placement, the board was
    empty, the mover wins at once, and the winning line is the placed
    stone alone. *)
Theorem first_stone_wins g p now :
  reachable g →
  winCount (config g) <= 1 →
  (placeStone g p now).1 = true →
  history g = [] ∧
  gameStatus (placeStone g p now).2 = winStatus (currentPlayer g) ∧
  winningPositions (placeStone g p now).2 = Some [p].
Proof.
  intros Hlog%reachable_logInvariant Hw Htrue.
  destruct (placeStone_true g p now Htrue) as (Hv & Hc & Hs).
  assert (Hrun : ¬ isWin (gameStatus g)) by (rewrite Hs; by intros [?|?]).
  split.
  - destruct (history g) as [|item h] eqn:Hh; [done|].
    destruct (no_stone_when_one_wins g (row (position item)) (col (position item))
                (stone item) Hlog Hrun Hw).
    apply (log_board g Hlog). exists item. rewrite Hh.
    split; [apply list_elem_of_here|]. by destruct (position item).
  - pose proof (stonePlaced_holds g p now Hv Hc) as Hp.
    destruct (placeStone_outcome g p now Hv Hc Hs)
      as [(a & l & _ & (i & j & Hperm) & _ & _ & Hall & ->)
         |[(Hno & _ & _)|(Hno & _ & _)]]; cbn [snd];
      [|by destruct (Hno horizontal); apply stone_reaches_one..].
    split; [done|]. cbn [winningPositions set_gameStatus set_winningPositions]. f_equal.
    assert (Hone : ∀ t, - Z.of_nat j <= t <= Z.of_nat i → t = 0).
    { intros t Ht. apply (along_inj a p). rewrite along_0.
      destruct (Hall (along a p t)) as [_ Hcell].
      { rewrite Hperm. apply elem_of_segment. eauto. }
      cbn [board stonePlaced] in Hcell.
      destruct (decide ((row p, col p) = (row (along a p t), col (along a p t)))) as [E|E].
      - injection E as E1 E2. by apply Position_eq.
      - rewrite cellAt_setCell_ne in Hcell by done.
        by destruct (no_stone_when_one_wins g _ _ _ Hlog Hrun Hw Hcell). }
    assert (i = 0%nat) as -> by (specialize (Hone (Z.of_nat i)); lia).
    assert (j = 0%nat) as -> by (specialize (Hone (- Z.of_nat j)); lia).
    unfold segment in Hperm. simpl in Hperm. rewrite along_0 in Hperm.
    by apply Permutation_singleton_r in Hperm.
Qed.

Lemma first_stone_wins_witness :
  history quickGame = [] ∧
  gameStatus (placeStone quickGame (mkPosition 2 0) 4).2 = winStatus (currentPlayer quickGame) ∧
  winningPositions (placeStone quickGame (mkPosition 2 0) 4).2 = Some [mkPosition 2 0].
Proof.
  apply (first_stone_wins quickGame (mkPosition 2 0) 4).
  - apply reachable_quickGame.
  - vm_compute. discriminate.
  - vm_compute. reflexivity.
Defined.

(** X12.  With a connection length greater than the side of the board
    nobody ever wins: no state of such an engine has a win status. *)
Theorem no_win_on_short_board g :
  reachable g →
  boardSize (config g) < winCount (config g) →
  ¬ isWin (gameStatus g).
Proof.
  intros Hlog%reachable_logInvariant Hn Hw.
  destruct (log_win g Hlog Hw)
    as (_ & l & item & _ & _ & _ & _ & (a & i & j & Hperm) & Hlen & Hall).
  pose proof (runThrough_bound (boardSize (config g)) (board g) (currentPlayer g) a
                (position item) i j) as Hb.
  rewrite Hperm, length_segment in Hlen.
  assert (Z.of_nat i + Z.of_nat j + 1 <= boardSize (config g)); [|lia].
  apply Hb. intros t Ht. apply Hall. rewrite Hperm. apply elem_of_segment. eauto.
Qed.

Lemma no_win_on_short_board_witness : ¬ isWin (gameStatus almostFull).
Proof.
  apply (no_win_on_short_board almostFull).
  - apply reachable_playMoves, reachable_smallGame.
  - vm_compute. reflexivity.
Defined.

(** X13.  In a running state of an engine with a move in the log, where
    the move counter of the player who made the last move holds an integer
    [z] with [-2^53 < z - 1] and [z < 2^53]: after [undo], it is the turn
    of the player whose move was taken back, and placing that stone again,
    at the same position and time, is accepted and gives back the engine
    exactly as it was before the [undo], move counters included. *)
Theorem undo_then_place_again g h item z :
  reachable g →
  history g = h ++ [item] →
  gameStatus g = playing →
  moveCount (playerOf (players g) (stone item)) = numberOfZ z →
  - 2 ^ 53 < z - 1 →
  z < 2 ^ 53 →
  currentPlayer (undo g).2 = stone item ∧
  placeStone (undo g).2 (position item) (timestamp item) = (true, g).
Proof.
  intros Hreach Hh Hs Hz Hlo Hhi.
  pose proof (reachable_logInvariant g Hreach) as Hlog.
  pose proof (log_base g Hlog) as Hinv.
  assert (Hrun : ¬ isWin (gameStatus g)) by (rewrite Hs; by intros [?|?]).
  assert (Hcell : cellAt (board g) (row (position item)) (col (position item))
                  = Some (Some (stone item))).
  { apply (log_board g Hlog). exists item. rewrite Hh. split; [|by destruct (position item)].
    apply elem_of_app. right. apply list_elem_of_here. }
  assert (Hin : inBounds (boardSize (config g)) (row (position item)) (col (position item))
                = true)
    by (by apply (cellAt_inBounds g _ _ (Some (stone item))); [apply (inv_square g Hinv)|]).
  assert (Hnum : moveNumber item = Z.of_nat (length h) + 1).
  { apply (log_numbers g Hlog). by rewrite Hh, lookup_app_r, Nat.sub_diag by lia. }
  assert (Hst : stone item = playerAtMove (length h)).
  { apply (inv_turns g Hinv). by rewrite Hh, lookup_app_r, Nat.sub_diag by lia. }
  assert (Hcur : currentPlayer g = opponentOf (stone item)).
  { rewrite (inv_player g Hinv (or_introl Hs)), Hh, length_app, Hst. simpl.
    rewrite Nat.add_1_r, playerAtMove_S. by destruct (playerAtMove (length h)). }
  assert (Hturn : match last h with Some _ => stone item | None => black end = stone item).
  { destruct (last h) eqn:E; [done|]. apply last_None in E. by rewrite Hst, E. }
  pose proof (reach_undo g Hreach) as Hreach'.
  rewrite (undo_accepted g h item Hh Hs) in Hreach' |- *. cbn [snd] in *.
  rewrite Hturn in Hreach' |- *.
  set (g' := mkGame _ _ _ _ _ _ _ _) in *.
  split; [done|].
  assert (Hv : isValidPosition g' (position item) = true)
    by (by rewrite isValidPosition_inBounds).
  assert (Hc : cellAt (board g') (row (position item)) (col (position item)) = Some None)
    by (subst g'; cbn [board]; by rewrite (cellAt_setCell_eq _ _ _ _ _ Hcell)).
  assert (Hb : board (stonePlaced g' (position item) (timestamp item)) = board g).
  { subst g'. cbn [board stonePlaced currentPlayer].
    by rewrite setCell_setCell, (setCell_id _ _ _ _ Hcell). }
  destruct (placeStone_outcome g' (position item) (timestamp item) Hv Hc Hs)
    as [(a & l & [Hr _] & _)|[(_ & Hd & _)|(_ & _ & ->)]].
  - rewrite Hb in Hr. destruct (log_running g Hlog Hrun) as [_ Hno].
    by destruct (Hno (stone item) a (position item)).
  - apply isDraw_getEmptyPositions in Hd.
    assert (He : getEmptyPositions g = getEmptyPositions (stonePlaced g' (position item) (timestamp item)))
      by (unfold getEmptyPositions; by rewrite Hb).
    destruct (reachable_open g Hreach); [by left| |congruence].
    apply inBounds_true in Hin. lia.
  - f_equal. unfold set_currentPlayer, stonePlaced. subst g'.
    cbn [board currentPlayer gameStatus winningPositions history lastMove config players].
    rewrite setCell_setCell, (setCell_id _ _ _ _ Hcell), <- Hcur, <- Hnum.
    rewrite (addMoveCount_cancel_down (players g) (stone item) z Hz Hlo Hhi).
    assert (mkHistoryItem (position item) (stone item) (moveNumber item) (timestamp item)
            = item) as -> by (by destruct item).
    rewrite <- Hh.
    assert (Some (position item) = lastMove g) as ->.
    { by rewrite (inv_last g Hinv), Hh, last_snoc. }
    by destruct g.
Qed.

Lemma undo_then_place_again_witness :
  currentPlayer (undo almostFull).2 = stone (mkHistoryItem (mkPosition 2 1) white 8 0) ∧
  placeStone (undo almostFull).2 (position (mkHistoryItem (mkPosition 2 1) white 8 0))
             (timestamp (mkHistoryItem (mkPosition 2 1) white 8 0)) = (true, almostFull).
Proof.
  apply (undo_then_place_again almostFull
           [mkHistoryItem (mkPosition 0 0) black 1 0; mkHistoryItem (mkPosition 0 1) white 2 0;
            mkHistoryItem (mkPosition 0 2) black 3 0; mkHistoryItem (mkPosition 1 0) white 4 0;
            mkHistoryItem (mkPosition 1 1) black 5 0; mkHistoryItem (mkPosition 1 2) white 6 0;
            mkHistoryItem (mkPosition 2 0) black 7 0]
           (mkHistoryItem (mkPosition 2 1) white 8 0) 4).
  - apply reachable_playMoves, reachable_smallGame.
  - vm_compute. reflexivity.
  - vm_compute. reflexivity.
  - vm_compute. reflexivity.
  - lia.
  - lia.
Defined.

(** X14.  Whatever was played on a constructed engine (placements,
    undos, pauses, resets; no [updatePlayerInfo]): [reset] gives back the
    engine the constructor built. *)
Theorem reset_gives_constructed cfg g0 g :
  constructor cfg = Some g0 →
  played g0 g →
  reset g = g0.
Proof.
  intros Hc Hp.
  unfold constructor in Hc. case_decide; [|done]. injection Hc as <-.
  destruct (λ H1 H2, played_setup _ g H1 H2 Hp)
    as (Hcfg & Hn1 & Hn2 & Hs1 & Hs2 & _); [reflexivity..|].
  unfold reset. rewrite Hcfg, Hn1, Hn2, Hs1, Hs2. reflexivity.
Qed.

Lemma reset_gives_constructed_witness : reset almostFull = smallGame.
Proof.
  apply (reset_gives_constructed smallConfig smallGame almostFull).
  - vm_compute. reflexivity.
  - apply played_playMoves, played_start.
Defined.

(** X15.  Whatever was played on a constructed engine (placements,
    undos, pauses, resets; no [updatePlayerInfo]) whose board has fewer
    than [2^53] cells: the move counter of each player is the number of
    log entries of that colour, which for a log of [N] entries is [N/2]
    rounded up for black and rounded down for white. *)
Theorem move_counters_follow_log cfg g0 g :
  constructor cfg = Some g0 →
  played g0 g →
  boardSize (config g0) * boardSize (config g0) < 2 ^ 53 →
  moveCount (players_black (players g)) = numberOfZ (Z.of_nat (countMoves black (history g))) ∧
  moveCount (players_white (players g)) = numberOfZ (Z.of_nat (countMoves white (history g))) ∧
  moveCount (players_black (players g)) = numberOfZ ((Z.of_nat (length (history g)) + 1) / 2) ∧
  moveCount (players_white (players g)) = numberOfZ (Z.of_nat (length (history g)) / 2).
Proof.
  intros Hc Hp Hsize.
  pose proof (reach_new cfg g0 Hc) as Hreach0.
  assert (Hinv : invariant g) by (by apply reachable_invariant, (played_reachable g0)).
  assert (Hcount : ∀ s, moveCount (playerOf (players g) s)
                        = numberOfZ (Z.of_nat (countMoves s (history g)))).
  { intros s. apply (played_counters g0 g s Hreach0); [..|done|done];
      unfold constructor in Hc; (case_decide; [|done]); by injection Hc as <-. }
  pose proof (Hcount black) as Hb. pose proof (Hcount white) as Hw.
  cbn [playerOf] in Hb, Hw.
  destruct (countMoves_turns (history g) (inv_turns g Hinv)) as [Hsum Hdiff].
  rewrite Hb, Hw. do 2 (split; [done|]).
  destruct (Nat.even (length (history g))) eqn:E.
  - apply Nat.even_spec in E as [m Hm]. split; f_equal.
    + apply Z.div_unique with (r := 1); lia.
    + apply Z.div_unique with (r := 0); lia.
  - assert (Ho : Nat.odd (length (history g)) = true) by (by rewrite <- Nat.negb_even, E).
    apply Nat.odd_spec in Ho as [m Hm]. split; f_equal.
    + apply Z.div_unique with (r := 0); lia.
    + apply Z.div_unique with (r := 1); lia.
Qed.

Lemma move_counters_follow_log_witness :
  moveCount (players_black (players almostFull))
  = numberOfZ (Z.of_nat (countMoves black (history almostFull))) ∧
  moveCount (players_white (players almostFull))
  = numberOfZ (Z.of_nat (countMoves white (history almostFull))) ∧
  moveCount (players_black (players almostFull))
  = numberOfZ ((Z.of_nat (length (history almostFull)) + 1) / 2) ∧
  moveCount (players_white (players almostFull))
  = numberOfZ (Z.of_nat (length (history almostFull)) / 2).
Proof.
  apply (move_counters_follow_log smallConfig smallGame almostFull).
  - vm_compute. reflexivity.
  - apply played_playMoves, played_start.
  - vm_compute. reflexivity.
Defined.

(** ** More on the opponent *)

Lemma countStones_zero_cell (b : Board) r c x :
  countStones b = 0%nat → cellAt b r c = Some x → x = None.
Proof.
  intros H0 (Hr & Hc & rw & Hrw & Hx)%cellAt_Some.
  apply list_elem_of_split_length in Hrw as (b1 & b2 & -> & _).
  apply list_elem_of_split_length in Hx as (r1 & r2 & -> & _).
  unfold countStones in H0.
  rewrite !concat_app, !concat_cons, !filter_app, !filter_cons, !length_app in H0.
  destruct x as [s|]; [|done].
  rewrite decide_True in H0 by (by eexists). simpl in H0. lia.
Qed.

Lemma boardLength_square g : boardSquare g → boardLength (board g) = boardSize (config g).
Proof. intros (Hn & Hlen & _). unfold boardLength. rewrite Hlen. lia. Qed.

(** The test of [getNextMove] for the opening move,
    [emptyPositions.length === board.length * board.length], holds exactly
    when no stone is on the board. *)
Lemma opening_test g :
  boardSquare g →
  Z.of_nat (length (getEmptyPositions g)) = boardLength (getBoard g) * boardLength (getBoard g)
  ↔ countStones (board g) = 0%nat.
Proof.
  intros Hsq. rewrite getBoard_board, (boardLength_square g Hsq).
  pose proof (getEmptyPositions_count g Hsq) as Hc.
  destruct Hsq as (Hn & _). split; intros H; nia.
Qed.

Lemma head_filter_elem {A} (P : A → Prop) `{!∀ x, Decision (P x)} (l : list A) x :
  head (filter P l) = Some x → P x ∧ x ∈ l.
Proof. intros Hx%head_Some_elem_of. by apply list_elem_of_filter in Hx. Qed.

(** The normal and the hard tier return one of the positions they are
    given. *)
Lemma getNormalMove_elem ai b ps :
  allEmpty b ps → ps ≠ [] → ∃ p, getNormalMove ai b ps = Some p ∧ p ∈ ps.
Proof.
  intros He Hne. rewrite (getNormalMove_priorities ai b ps He).
  destruct (head (filter (λ pos, winsAt b (aiStone ai) _ pos = true) ps)) as [p|] eqn:E1.
  { exists p. split; [done|]. by apply head_filter_elem in E1 as [_ ?]. }
  destruct (head (filter (λ pos, winsAt b (opponentOf (aiStone ai)) _ pos = true) ps))
    as [p|] eqn:E2.
  { exists p. split; [done|]. by apply head_filter_elem in E2 as [_ ?]. }
  destruct (scoredFallback_first b (aiStone ai) ps Hne) as (l1 & p & l2 & Hps & Hp & _).
  exists p. split; [done|]. rewrite Hps. apply elem_of_app. right. apply list_elem_of_here.
Qed.

Lemma getHardMove_elem ai b ps :
  allEmpty b ps → ps ≠ [] → ∃ p, getHardMove ai b ps = Some p ∧ p ∈ ps.
Proof.
  intros He Hne. rewrite (getHardMove_priorities ai b ps He).
  destruct (head (filter (λ pos, winsAt b (aiStone ai) _ pos = true) ps)) as [p|] eqn:E1.
  { exists p. split; [done|]. by apply head_filter_elem in E1 as [_ ?]. }
  destruct (head (filter (λ pos, winsAt b (opponentOf (aiStone ai)) _ pos = true) ps))
    as [p|] eqn:E2.
  { exists p. split; [done|]. by apply head_filter_elem in E2 as [_ ?]. }
  by apply getNormalMove_elem.
Qed.

(** What [getNextMove] returns: nothing on a full board, the centre on an
    empty one, the choice of the tier otherwise. *)
Lemma getNextMove_cases ai k :
  boardSquare (game ai) →
  getNextMove ai k =
  if bool_decide (getEmptyPositions (game ai) = []) then None
  else if bool_decide (countStones (board (game ai)) = 0%nat)
  then Some (mkPosition (boardSize (config (game ai)) / 2) (boardSize (config (game ai)) / 2))
  else match aiDifficulty ai with
       | easy => getEmptyPositions (game ai) !! k
       | normal => getNormalMove ai (board (game ai)) (getEmptyPositions (game ai))
       | hard => getHardMove ai (board (game ai)) (getEmptyPositions (game ai))
       end.
Proof.
  intros Hsq. unfold getNextMove. cbv zeta.
  pose proof (opening_test (game ai) Hsq) as Hopen.
  rewrite (bool_decide_ext _ (getEmptyPositions (game ai) = []))
    by apply length_zero_iff_nil.
  rewrite (bool_decide_ext _ _ Hopen).
  by rewrite getBoard_board, (boardLength_square _ Hsq).
Qed.

(** A cell that the simulation of the opponent finds winning for the
    player to move wins the game when it is played. *)
Lemma winsAt_placeStone g p now :
  boardSquare g →
  gameStatus g = playing →
  p ∈ getEmptyPositions g →
  winsAt (board g) (currentPlayer g) (winCount (config g)) p = true →
  (placeStone g p now).1 = true ∧
  gameStatus (placeStone g p now).2 = winStatus (currentPlayer g).
Proof.
  intros Hsq Hs [Hv Hc]%getEmptyPositions_elem Hw.
  rewrite <- isValidPosition_inBounds in Hv.
  pose proof (stonePlaced_holds g p now Hv Hc) as Hp.
  assert (Hcheck : (checkWin (stonePlaced g p now) p).1 = true).
  { unfold checkWin.
    rewrite <- (checkWinAt_loop_checkWin_loop _ p (currentPlayer g)); [exact Hw| |apply Hp].
    cbn [config board stonePlaced]. unfold boardLength. rewrite length_setCell.
    symmetry. apply (boardLength_square g Hsq). }
  destruct (placeStone_outcome g p now Hv Hc Hs)
    as [(a & l & _ & _ & _ & _ & _ & ->)|[(Hno & _ & _)|(Hno & _ & _)]]; [done|..];
    destruct (checkWin_spec (stonePlaced g p now) p (currentPlayer g) Hp)
      as [(a & l & [Hr _] & _)|[_ E]];
    solve [by destruct (Hno a) | by rewrite E in Hcheck].
Qed.

Lemma reachable_tinyRace : reachable tinyRace.
Proof. apply reachable_playMoves, reachable_tinyGame. Qed.

Lemma reachable_tinyThreat : reachable tinyThreat.
Proof. apply reachable_playMoves, reachable_tinyGame. Qed.

Lemma placeStone_accepts g p now :
  gameStatus g = playing → p ∈ getEmptyPositions g → (placeStone g p now).1 = true.
Proof.
  intros Hs [Hv Hc]%getEmptyPositions_elem. rewrite <- isValidPosition_inBounds in Hv.
  destruct (placeStone_outcome g p now Hv Hc Hs)
    as [(a & l & _ & _ & _ & _ & _ & ->)|[(_ & _ & ->)|(_ & _ & ->)]]; done.
Qed.

(** What the opponent returns on a square board is an empty cell, when
    there is one. *)
Lemma getNextMove_elem ai k :
  boardSquare (game ai) →
  (aiDifficulty ai = easy → (k < length (getEmptyPositions (game ai)))%nat) →
  getEmptyPositions (game ai) ≠ [] →
  ∃ p, getNextMove ai k = Some p ∧ p ∈ getEmptyPositions (game ai).
Proof.
  intros Hsq Hk Hne. rewrite (getNextMove_cases ai k Hsq).
  rewrite bool_decide_eq_false_2 by done.
  case_bool_decide as H0.
  - eexists. split; [done|]. apply getEmptyPositions_elem. cbn [row col].
    pose proof (getEmptyPositions_count (game ai) Hsq) as Hc.
    assert (Hn : 0 < boardSize (config (game ai))).
    { destruct (getEmptyPositions (game ai)); [done|]. simpl in Hc.
      destruct Hsq as (? & _). nia. }
    assert (Hmid : 0 <= boardSize (config (game ai)) / 2 < boardSize (config (game ai)))
      by (split; [apply Z.div_pos|apply Z.div_lt_upper_bound]; lia).
    split; [by apply inBounds_true|].
    destruct (boardSquare_cell (game ai) _ _ Hsq Hmid Hmid) as [x Hx].
    by rewrite Hx, (countStones_zero_cell _ _ _ _ H0 Hx).
  - pose proof (getEmptyPositions_allEmpty (game ai)) as He. rewrite getBoard_board in He.
    destruct (aiDifficulty ai).
    + destruct (lookup_lt_is_Some_2 (getEmptyPositions (game ai)) k (Hk eq_refl)) as [p Hp].
      exists p. split; [done|]. by eapply list_elem_of_lookup_2.
    + by apply getNormalMove_elem.
    + by apply getHardMove_elem.
Qed.

(** ** The evaluation and the win test *)

Lemma steps_ext fuel cond cond' dr dc r c :
  (∀ t : nat, cond (r + Z.of_nat t * dr) (c + Z.of_nat t * dc) =
              cond' (r + Z.of_nat t * dr) (c + Z.of_nat t * dc)) →
  steps fuel cond dr dc r c = steps fuel cond' dr dc r c.
Proof.
  revert r c. induction fuel as [|fuel IH]; intros r c Hext; [done|].
  cbn [steps]. pose proof (Hext 0%nat) as H0. simpl in H0.
  rewrite !Z.add_0_r in H0. rewrite H0. destruct (cond' r c); [|done].
  f_equal. apply IH. intros t. specialize (Hext (S t)).
  by replace (r + Z.of_nat (S t) * dr) with (r + dr + Z.of_nat t * dr) in Hext by lia;
     replace (c + Z.of_nat (S t) * dc) with (c + dc + Z.of_nat t * dc) in Hext by lia.
Qed.

(** The walks from [p] do not read the cell [p]. *)
Lemma steps_setCell (b : Board) p x s dr dc :
  unitDirection dr dc →
  steps (length (setCell b (row p) (col p) x)) (holdsAt (setCell b (row p) (col p) x) s)
        dr dc (row p + dr) (col p + dc) =
  steps (length b) (holdsAt b s) dr dc (row p + dr) (col p + dc).
Proof.
  intros Hunit. rewrite length_setCell. apply steps_ext. intros t.
  unfold holdsAt, boardLength. rewrite length_setCell, cellAt_setCell_ne; [done|].
  intros [= Hr Hc]. destruct Hunit as (? & ? & ?). nia.
Qed.

Lemma countAxis_setCell (b : Board) p x s a :
  countAxis (setCell b (row p) (col p) x) p s (axisDirections a) =
  (evalAxis b p s (axisDirections a)).1.
Proof.
  assert (Hunit : unitDirection (- (axisDir a).1) (- (axisDir a).2)).
  { destruct (axisDir_unit a) as (? & ? & ?). unfold unitDirection. lia. }
  unfold countAxis, evalAxis, axisDirections. cbn [fold_left fst snd].
  rewrite !countLine_steps, !evalWalk_steps. cbn [fst snd].
  fold (holdsAt (setCell b (row p) (col p) x) s). fold (holdsAt b s).
  rewrite (steps_setCell b p x s _ _ (axisDir_unit a)), (steps_setCell b p x s _ _ Hunit).
  lia.
Qed.

Lemma checkWinAt_loop_axes (b : Board) p s w (l : list Axis) :
  checkWinAt_loop b p s w (axisDirections <$> l) = true ↔
  ∃ a, a ∈ l ∧ w <= countAxis b p s (axisDirections a).
Proof.
  induction l as [|a l IH]; cbn [fmap list_fmap checkWinAt_loop].
  - split; [done|]. intros (a & Ha & _). by apply elem_of_nil in Ha.
  - destruct (Z.leb_spec w (countAxis b p s (axisDirections a))) as [Hle|Hlt].
    + split; [|done]. intros _. exists a. split; [apply list_elem_of_here|done].
    + rewrite IH. split.
      * intros (a' & Ha' & Hw). exists a'. split; [by apply list_elem_of_further|done].
      * intros (a' & Ha' & Hw). apply elem_of_cons in Ha' as [->|Ha']; [lia|]. eauto.
Qed.

Lemma axisScore_range count openEnds :
  0 <= axisScore count openEnds <= 100000 ∧
  (5 <= count → axisScore count openEnds = 100000) ∧
  (count < 5 → axisScore count openEnds <= 10000).
Proof.
  unfold axisScore.
  destruct (Z.leb_spec 5 count); [lia|].
  repeat match goal with |- context [if ?c then _ else _] => destruct c end; lia.
Qed.

(** * Properties of the opponent *)

(** X16.  On a square board [getNextMove] returns [null] only when no
    cell is empty, and otherwise one of the empty cells, whatever the
    tier (at the easy tier for a random index within the list); so while
    the game is running the engine accepts the move. *)
Theorem getNextMove_is_legal ai k :
  boardSquare (game ai) →
  (aiDifficulty ai = easy → (k < length (getEmptyPositions (game ai)))%nat) →
  match getNextMove ai k with
  | None => getEmptyPositions (game ai) = []
  | Some p =>
      p ∈ getEmptyPositions (game ai) ∧
      (gameStatus (game ai) = playing → ∀ now, (placeStone (game ai) p now).1 = true)
  end.
Proof.
  intros Hsq Hk.
  destruct (decide (getEmptyPositions (game ai) = [])) as [He|Hne].
  - rewrite (getNextMove_cases ai k Hsq), bool_decide_eq_true_2; done.
  - destruct (getNextMove_elem ai k Hsq Hk Hne) as (p & -> & Hp).
    split; [done|]. intros Hs now. by apply placeStone_accepts.
Qed.

Lemma getNextMove_is_legal_witness :
  match getNextMove (mkAI almostFull easy white) 0 with
  | None => getEmptyPositions (game (mkAI almostFull easy white)) = []
  | Some p =>
      p ∈ getEmptyPositions (game (mkAI almostFull easy white)) ∧
      (gameStatus (game (mkAI almostFull easy white)) = playing →
       ∀ now, (placeStone (game (mkAI almostFull easy white)) p now).1 = true)
  end.
Proof.
  apply (getNextMove_is_legal (mkAI almostFull easy white) 0).
  - apply inv_square, reachable_invariant, reachable_playMoves, reachable_smallGame.
  - intros _. vm_compute. lia.
Defined.

(** X17.  On an engine with a board of at least one cell and no move in
    the log, [getNextMove] returns the centre cell
    [(floor(boardSize/2), floor(boardSize/2))], whatever the tier, the
    colour and the random index. *)
Theorem getNextMove_opens_at_centre ai k :
  reachable (game ai) →
  history (game ai) = [] →
  0 < boardSize (config (game ai)) →
  getNextMove ai k =
  Some (mkPosition (boardSize (config (game ai)) / 2) (boardSize (config (game ai)) / 2)).
Proof.
  intros Hinv%reachable_invariant Hh Hn.
  rewrite (getNextMove_cases ai k (inv_square _ Hinv)).
  rewrite bool_decide_eq_false_2 by (by apply open_of_empty_log).
  rewrite bool_decide_eq_true_2; [done|]. by rewrite (inv_count _ Hinv), Hh.
Qed.

Lemma getNextMove_opens_at_centre_witness :
  getNextMove (mkAI smallGame hard black) 5 =
  Some (mkPosition (boardSize (config (game (mkAI smallGame hard black))) / 2)
                   (boardSize (config (game (mkAI smallGame hard black))) / 2)).
Proof.
  apply (getNextMove_opens_at_centre (mkAI smallGame hard black) 5).
  - apply reachable_smallGame.
  - reflexivity.
  - vm_compute. reflexivity.
Defined.

(** X18.  When it is the opponent's turn in a running game with a move
    in the log, and some empty cell completes a line for it: at the
    normal and the hard tier [getNextMove] returns the first such cell in
    row-major order, the engine accepts it, and the opponent has won. *)
Theorem getNextMove_takes_the_win ai k now p :
  reachable (game ai) →
  gameStatus (game ai) = playing →
  currentPlayer (game ai) = aiStone ai →
  aiDifficulty ai ≠ easy →
  history (game ai) ≠ [] →
  head (filter (λ pos, winsAt (board (game ai)) (aiStone ai) (winCount (config (game ai))) pos
                       = true)
               (getEmptyPositions (game ai))) = Some p →
  getNextMove ai k = Some p ∧
  (placeStone (game ai) p now).1 = true ∧
  gameStatus (placeStone (game ai) p now).2 = winStatus (aiStone ai).
Proof.
  intros Hinv%reachable_invariant Hs Hcur Hd Hh Hp.
  pose proof (inv_square _ Hinv) as Hsq.
  destruct (head_filter_elem _ _ _ Hp) as [Hw Hin].
  pose proof (getEmptyPositions_allEmpty (game ai)) as He. rewrite getBoard_board in He.
  split.
  - rewrite (getNextMove_cases ai k Hsq).
    rewrite bool_decide_eq_false_2 by (intros E; rewrite E in Hin; by apply elem_of_nil in Hin).
    rewrite bool_decide_eq_false_2
      by (rewrite (inv_count _ Hinv); by destruct (history (game ai))).
    destruct (aiDifficulty ai); [done| |].
    + by rewrite (getNormalMove_priorities ai _ _ He), Hp.
    + by rewrite (getHardMove_priorities ai _ _ He), Hp.
  - rewrite <- Hcur in Hw |- *. by apply winsAt_placeStone.
Qed.

Lemma getNextMove_takes_the_win_witness :
  getNextMove (mkAI tinyRace normal white) 0 = Some (mkPosition 1 2) ∧
  (placeStone (game (mkAI tinyRace normal white)) (mkPosition 1 2) 9).1 = true ∧
  gameStatus (placeStone (game (mkAI tinyRace normal white)) (mkPosition 1 2) 9).2
  = winStatus (aiStone (mkAI tinyRace normal white)).
Proof.
  apply (getNextMove_takes_the_win (mkAI tinyRace normal white) 0 9 (mkPosition 1 2)).
  - apply reachable_tinyRace.
  - vm_compute. reflexivity.
  - vm_compute. reflexivity.
  - discriminate.
  - vm_compute. discriminate.
  - vm_compute. reflexivity.
Defined.

(** X19.  With a move in the log, when no empty cell completes a line
    for the opponent but some empty cell completes one for the other
    player: at the normal and the hard tier [getNextMove] returns the
    first such cell in row-major order. *)
Theorem getNextMove_blocks ai k p :
  reachable (game ai) →
  aiDifficulty ai ≠ easy →
  history (game ai) ≠ [] →
  filter (λ pos, winsAt (board (game ai)) (aiStone ai) (winCount (config (game ai))) pos
                 = true)
         (getEmptyPositions (game ai)) = [] →
  head (filter (λ pos, winsAt (board (game ai)) (opponentOf (aiStone ai))
                              (winCount (config (game ai))) pos = true)
               (getEmptyPositions (game ai))) = Some p →
  getNextMove ai k = Some p.
Proof.
  intros Hinv%reachable_invariant Hd Hh Hnone Hp.
  pose proof (inv_square _ Hinv) as Hsq.
  destruct (head_filter_elem _ _ _ Hp) as [Hw Hin].
  pose proof (getEmptyPositions_allEmpty (game ai)) as He. rewrite getBoard_board in He.
  rewrite (getNextMove_cases ai k Hsq).
  rewrite bool_decide_eq_false_2 by (intros E; rewrite E in Hin; by apply elem_of_nil in Hin).
  rewrite bool_decide_eq_false_2
    by (rewrite (inv_count _ Hinv); by destruct (history (game ai))).
  destruct (aiDifficulty ai); [done| |].
  - by rewrite (getNormalMove_priorities ai _ _ He), Hnone, Hp.
  - by rewrite (getHardMove_priorities ai _ _ He), Hnone, Hp.
Qed.

Lemma getNextMove_blocks_witness :
  getNextMove (mkAI tinyThreat normal white) 0 = Some (mkPosition 0 2).
Proof.
  apply (getNextMove_blocks (mkAI tinyThreat normal white) 0 (mkPosition 0 2)).
  - apply reachable_tinyThreat.
  - discriminate.
  - vm_compute. discriminate.
  - vm_compute. reflexivity.
  - vm_compute. reflexivity.
Defined.

(** X20.  For an empty cell [p] of the board: the value
    [evaluatePosition] gives it for a colour lies between 0 and 400000,
    and it reaches 100000 exactly when a stone of that colour at [p]
    would complete five in a row, as the win test of the simulation sees
    it. *)
Theorem evaluatePosition_range_and_five b p s :
  cellAt b (row p) (col p) = Some None →
  0 <= evaluatePosition b p s <= 400000 ∧
  (100000 <= evaluatePosition b p s ↔ winsAt b s 5 p = true).
Proof.
  intros _. unfold winsAt, checkWinAt. rewrite directions_axes, checkWinAt_loop_axes.
  unfold evaluatePosition. rewrite directions_axes. cbn [axes fmap list_fmap fold_left].
  pose proof (λ a, countAxis_setCell b p (Some s) s a) as Hc.
  pose proof (λ a, axisScore_range (evalAxis b p s (axisDirections a)).1
                                   (evalAxis b p s (axisDirections a)).2) as Hr.
  destruct (Hr horizontal) as (? & ? & ?), (Hr vertical) as (? & ? & ?),
    (Hr mainDiagonal) as (? & ? & ?), (Hr antiDiagonal) as (? & ? & ?).
  split; [lia|]. split.
  - intros Hbig.
    destruct (Z.le_gt_cases 5 (evalAxis b p s (axisDirections horizontal)).1);
      [exists horizontal; rewrite Hc; split; [repeat constructor|done]|].
    destruct (Z.le_gt_cases 5 (evalAxis b p s (axisDirections vertical)).1);
      [exists vertical; rewrite Hc; split; [repeat constructor|done]|].
    destruct (Z.le_gt_cases 5 (evalAxis b p s (axisDirections mainDiagonal)).1);
      [exists mainDiagonal; rewrite Hc; split; [repeat constructor|done]|].
    destruct (Z.le_gt_cases 5 (evalAxis b p s (axisDirections antiDiagonal)).1);
      [exists antiDiagonal; rewrite Hc; split; [repeat constructor|done]|].
    lia.
  - intros (a & _ & Ha). rewrite Hc in Ha. destruct a; lia.
Qed.

Lemma evaluatePosition_range_and_five_witness :
  0 <= evaluatePosition (board eightMoves) (mkPosition 7 11) black <= 400000 ∧
  (100000 <= evaluatePosition (board eightMoves) (mkPosition 7 11) black ↔
   winsAt (board eightMoves) black 5 (mkPosition 7 11) = true).
Proof.
  apply (evaluatePosition_range_and_five (board eightMoves) (mkPosition 7 11) black).
  vm_compute. reflexivity.
Defined.

(** ** The controller *)

Lemma withGame_id c : withGame c (ctlGame c) = c.
Proof. by destruct c. Qed.

Lemma withGame_withGame c g g' : withGame (withGame c g) g' = withGame c g'.
Proof. done. Qed.

(** In a running game on a board with a cell, the normal and the hard
    tier find a cell to play. *)
Lemma ai_reply g s d k :
  reachable g → gameStatus g = playing → 0 < boardSize (config g) → d ≠ easy →
  ∃ p, getNextMove (mkAI g d s) k = Some p ∧ p ∈ getEmptyPositions g.
Proof.
  intros Hreach Hs Hn Hd.
  apply (getNextMove_elem (mkAI g d s) k).
  - apply inv_square, reachable_invariant, Hreach.
  - done.
  - apply reachable_open; [done|by left|done].
Qed.

(** What a click does when it schedules a reply of the opponent. *)
Lemma handleCellClick_scheduled c row col now :
  (handleCellClick c row col now).2 = true →
  (placeStone (ctlGame c) (mkPosition row col) now).1 = true ∧
  gameStatus (placeStone (ctlGame c) (mkPosition row col) now).2 = playing ∧
  (handleCellClick c row col now).1 =
  withGame c (placeStone (ctlGame c) (mkPosition row col) now).2.
Proof.
  unfold handleCellClick. cbv zeta.
  destruct (bool_decide (is_Some (ctlAi c)) && _); [done|].
  destruct (placeStone (ctlGame c) (mkPosition row col) now).1; [|done].
  cbn [ctlGame withGame ctlAi]. unfold getGameStatus.
  case_bool_decide as Hs; cbn [negb]; [|done].
  destruct (bool_decide (is_Some (ctlAi c)) && _); done.
Qed.

(** What the reply of the opponent does when it finds a cell that the
    engine accepts. *)
Lemma makeAIMove_accepted c s d k now p :
  ctlAi c = Some (s, d) →
  getNextMove (mkAI (ctlGame c) d s) k = Some p →
  (placeStone (ctlGame c) p now).1 = true →
  makeAIMove c k now =
  if bool_decide (gameStatus (placeStone (ctlGame c) p now).2 = playing)
  then withGame c (placeStone (ctlGame c) p now).2
  else handleGameEnd (withGame c (placeStone (ctlGame c) p now).2)
                     (gameStatus (placeStone (ctlGame c) p now).2).
Proof.
  intros Hai Hp Htrue. unfold makeAIMove, theAI. rewrite Hai. cbn [fmap option_fmap option_map fst snd].
  rewrite Hp. cbv zeta. rewrite Htrue. cbn [ctlGame withGame]. unfold getGameStatus.
  by case_bool_decide.
Qed.

(** ** The timers

    A timer callback writes [timeUsed] and nothing else; [placeStone] and
    [undo] neither read nor write it. *)

Lemma checkWin_loop_set_players g ps p dirs :
  checkWin_loop (set_players g ps) p dirs =
  ((checkWin_loop g p dirs).1, set_players (checkWin_loop g p dirs).2 ps).
Proof.
  induction dirs as [|direction dirs IH]; [done|]. cbn [checkWin_loop].
  change (checkAxis (set_players g ps) p direction) with (checkAxis g p direction).
  change (winCount (config (set_players g ps))) with (winCount (config g)).
  destruct (winCount (config g) <=? (checkAxis g p direction).2); [done|apply IH].
Qed.

Lemma checkWin_loop_players g p dirs : players (checkWin_loop g p dirs).2 = players g.
Proof.
  induction dirs as [|direction dirs IH]; [done|]. cbn [checkWin_loop].
  destruct (winCount (config g) <=? (checkAxis g p direction).2); [done|apply IH].
Qed.

Lemma placeStone_set_players (f : Players → Players) g p now :
  (∀ ps s d, f (addMoveCount ps s d) = addMoveCount (f ps) s d) →
  placeStone (set_players g (f (players g))) p now =
  ((placeStone g p now).1,
   set_players (placeStone g p now).2 (f (players (placeStone g p now).2))).
Proof.
  intros Hf.
  destruct (isValidPosition g p) eqn:Hv;
    [|by rewrite !placeStone_rejected by (by left)].
  destruct (decide (cellAt (board g) (row p) (col p) = Some None)) as [Hc|Hc];
    [|by rewrite !placeStone_rejected by (by right; left)].
  destruct (decide (gameStatus g = playing)) as [Hs|Hs];
    [|by rewrite !placeStone_rejected by (by right; right)].
  rewrite (placeStone_accepted g p now Hv Hc Hs).
  rewrite (placeStone_accepted (set_players g (f (players g))) p now Hv Hc Hs).
  cbv zeta.
  assert (stonePlaced (set_players g (f (players g))) p now
          = set_players (stonePlaced g p now) (f (players (stonePlaced g p now)))) as ->.
  { unfold stonePlaced, set_players. cbn [board currentPlayer gameStatus winningPositions
      history lastMove config players]. by rewrite Hf. }
  unfold checkWin. rewrite checkWin_loop_set_players. cbn [fst snd].
  rewrite <- (checkWin_loop_players (stonePlaced g p now) p directions).
  destruct (checkWin_loop (stonePlaced g p now) p directions) as [won g5]. cbn [fst snd].
  destruct won; [done|].
  change (isDraw (set_players g5 (f (players g5)))) with (isDraw g5).
  by destruct (isDraw g5).
Qed.

Lemma undo_set_players (f : Players → Players) g :
  (∀ ps s d, f (addMoveCount ps s d) = addMoveCount (f ps) s d) →
  undo (set_players g (f (players g))) =
  ((undo g).1, set_players (undo g).2 (f (players (undo g).2))).
Proof.
  intros Hf.
  destruct (decide (gameStatus g = playing)) as [Hs|Hs];
    [|by rewrite !undo_rejected by (by right)].
  destruct (last (history g)) as [item|] eqn:Hl;
    [|apply last_None in Hl; by rewrite !undo_rejected by (by left)].
  apply last_Some in Hl as [h Hh].
  rewrite (undo_accepted g h item Hh Hs).
  rewrite (undo_accepted (set_players g (f (players g))) h item Hh Hs).
  cbn [fst snd board gameStatus winningPositions config players set_players].
  by rewrite Hf.
Qed.

Lemma updatePlayerInfo_timeUsed g s time :
  updatePlayerInfo g s (timeUsedInfo time) = set_players g (withTimeUsed (players g) s time).
Proof. by destruct s. Qed.

Lemma withTimeUsed_addMoveCount s time ps s' d :
  withTimeUsed (addMoveCount ps s' d) s time = addMoveCount (withTimeUsed ps s time) s' d.
Proof. by destruct s, s'. Qed.

Lemma timeUpdates_cons g s time ticks :
  timeUpdates g ((s, time) :: ticks) = timeUpdates (updatePlayerInfo g s (timeUsedInfo time)) ticks.
Proof. done. Qed.

Lemma timeUpdates_app g ticks1 ticks2 :
  timeUpdates g (ticks1 ++ ticks2) = timeUpdates (timeUpdates g ticks1) ticks2.
Proof. apply fold_left_app. Qed.

Lemma placeStone_timeUpdates g ticks p now :
  placeStone (timeUpdates g ticks) p now =
  ((placeStone g p now).1, timeUpdates (placeStone g p now).2 ticks).
Proof.
  revert g. induction ticks as [|[s time] ticks IH]; intros g;
    [change (timeUpdates g []) with g; by destruct (placeStone g p now)|].
  rewrite timeUpdates_cons, IH, updatePlayerInfo_timeUsed.
  rewrite (placeStone_set_players (λ ps, withTimeUsed ps s time))
    by (intros; apply withTimeUsed_addMoveCount).
  cbn [fst snd]. by rewrite <- updatePlayerInfo_timeUsed.
Qed.

Lemma undo_timeUpdates g ticks :
  undo (timeUpdates g ticks) = ((undo g).1, timeUpdates (undo g).2 ticks).
Proof.
  revert g. induction ticks as [|[s time] ticks IH]; intros g;
    [change (timeUpdates g []) with g; by destruct (undo g)|].
  rewrite timeUpdates_cons, IH, updatePlayerInfo_timeUsed.
  rewrite (undo_set_players (λ ps, withTimeUsed ps s time))
    by (intros; apply withTimeUsed_addMoveCount).
  cbn [fst snd]. by rewrite <- updatePlayerInfo_timeUsed.
Qed.

(** The timers leave the status, the log and the configuration alone. *)
Lemma timeUpdates_frame g ticks :
  gameStatus (timeUpdates g ticks) = gameStatus g ∧
  history (timeUpdates g ticks) = history g ∧
  config (timeUpdates g ticks) = config g.
Proof.
  revert g. induction ticks as [|[s time] ticks IH]; intros g; [done|].
  rewrite timeUpdates_cons.
  destruct (IH (updatePlayerInfo g s (timeUsedInfo time))) as (-> & -> & ->). by destruct s.
Qed.

Lemma timeUpdates_reachable g ticks : reachable g → reachable (timeUpdates g ticks).
Proof.
  revert g. induction ticks as [|[s time] ticks IH]; intros g Hg; [done|].
  rewrite timeUpdates_cons. apply IH. by apply reach_update.
Qed.

Lemma timerTicks_withGame c ticks :
  timerTicks c ticks = withGame c (timeUpdates (ctlGame c) ticks).
Proof.
  revert c. induction ticks as [|[s time] ticks IH]; intros c; [by destruct c|].
  change (timerTicks c ((s, time) :: ticks)) with (timerTicks (onTimeUpdate c s time) ticks).
  by rewrite IH.
Qed.

(** * Properties of the controller *)

(** X21.  Against the opponent (normal or hard tier), with move counters
    that hold integers with room for one more move (integers [z] with
    [-2^53 < z] and [z + 1 < 2^53]): when a click was accepted, the
    opponent has replied, and the game is still running, [undoMove] takes
    back both stones, and the controller is what it was before the click
    but for the times the timers have written since: those written while
    the reply was waiting, and those written after it. *)
Theorem undoMove_takes_back_both c s d row col now ticks1 k now' ticks2 :
  reachable (ctlGame c) →
  safeCounters (ctlGame c) 1 →
  ctlAi c = Some (s, d) →
  d ≠ easy →
  (handleCellClick c row col now).2 = true →
  gameStatus (ctlGame (makeAIMove (timerTicks (handleCellClick c row col now).1 ticks1)
                                  k now')) = playing →
  undoMove (timerTicks (makeAIMove (timerTicks (handleCellClick c row col now).1 ticks1)
                                   k now') ticks2)
  = timerTicks c (ticks1 ++ ticks2).
Proof.
  intros Hreach Hsafe Hai Hd (Htrue & Hs1 & ->)%handleCellClick_scheduled.
  set (g := ctlGame c) in *. set (g1 := (placeStone g (mkPosition row col) now).2) in *.
  assert (Hreach1 : reachable g1) by (by apply reach_place).
  destruct (placeStone_true g _ now Htrue) as (Hv & Hc & Hs).
  assert (Hn : 0 < boardSize (config g1)).
  { destruct (placeStone_players g (mkPosition row col) now) as [E|(_ & E & _)];
      [by rewrite E in Htrue|].
    fold g1 in E. rewrite E. rewrite isValidPosition_inBounds in Hv.
    apply inBounds_true in Hv. simpl in Hv. lia. }
  (* the counter of the opponent's colour is untouched by the click *)
  assert (Hnext : currentPlayer g1 = opponentOf (currentPlayer g) ∧
                  players g1 = addMoveCount (players g) (currentPlayer g) 1).
  { subst g1. destruct (placeStone_outcome g _ now Hv Hc Hs)
      as [(a & l & _ & _ & _ & _ & _ & E)|[(_ & _ & E)|(_ & _ & E)]];
      rewrite E in Hs1 |- *; cbn [snd] in *; [by destruct (currentPlayer g)|done|done]. }
  destruct Hnext as [Hcur1 Hps1].
  destruct (Hsafe (currentPlayer g)) as (z & Hz & Hlo & Hhi).
  destruct (Hsafe (currentPlayer g1)) as (z1 & Hz1 & Hlo1 & Hhi1).
  assert (Hz1' : moveCount (playerOf (players g1) (currentPlayer g1)) = numberOfZ z1).
  { rewrite Hps1, addMoveCount_moveCount. case_decide as E; [|done].
    rewrite Hcur1 in E. by destruct (currentPlayer g). }
  rewrite timerTicks_withGame, withGame_withGame.
  change (ctlGame (withGame c g1)) with g1.
  set (G1 := timeUpdates g1 ticks1).
  destruct (timeUpdates_frame g1 ticks1) as (HsG & HhG & HcG). fold G1 in HsG, HhG, HcG.
  assert (HreachG : reachable G1) by (by apply timeUpdates_reachable).
  destruct (ai_reply G1 s d k HreachG) as (q & Hq & Hin); [congruence|congruence|done|].
  assert (HtrueG : (placeStone G1 q now').1 = true)
    by (apply placeStone_accepts; [congruence|done]).
  rewrite (makeAIMove_accepted (withGame c G1) s d k now' q Hai Hq HtrueG).
  change (ctlGame (withGame c G1)) with G1.
  unfold G1 in HtrueG |- *. rewrite placeStone_timeUpdates in HtrueG |- *.
  cbn [fst snd] in HtrueG |- *.
  set (g2 := (placeStone g1 q now').2).
  destruct (timeUpdates_frame g2 ticks1) as (Hs2 & _ & _).
  case_bool_decide as Hplaying; [|by intros E].
  intros _. rewrite Hs2 in Hplaying.
  rewrite withGame_withGame, !timerTicks_withGame.
  change (ctlGame (withGame c (timeUpdates g2 ticks1))) with (timeUpdates g2 ticks1).
  rewrite <- timeUpdates_app, withGame_withGame. fold g.
  unfold undoMove. cbv zeta.
  change (ctlGame (withGame c (timeUpdates g2 (ticks1 ++ ticks2))))
    with (timeUpdates g2 (ticks1 ++ ticks2)).
  rewrite undo_timeUpdates. subst g2.
  rewrite (undo_placeStone_id g1 q now' z1 Hreach1 Hz1' Hlo1 Hhi1 HtrueG Hplaying).
  cbn [fst snd ctlGame ctlAi withGame]. rewrite Hai, bool_decide_eq_true_2 by done.
  rewrite bool_decide_eq_true_2.
  - cbn [andb]. rewrite undo_timeUpdates. subst g1.
    by rewrite (undo_placeStone_id g _ now z Hreach Hz Hlo Hhi Htrue Hs1).
  - unfold getHistory. rewrite length_map.
    destruct (timeUpdates_frame g1 (ticks1 ++ ticks2)) as (_ & -> & _).
    destruct (placeStone_players g (mkPosition row col) now) as [E|(_ & _ & _ & E)];
      [by rewrite E in Htrue|].
    fold g1 in E. rewrite E, length_app. simpl. lia.
Qed.

Lemma undoMove_takes_back_both_witness :
  undoMove (timerTicks (makeAIMove (timerTicks (handleCellClick tinyController 0 0 3).1
                                               [(black, 1); (white, 1)])
                                   0 4)
                       [(white, 2)])
  = timerTicks tinyController ([(black, 1); (white, 1)] ++ [(white, 2)]).
Proof.
  apply (undoMove_takes_back_both tinyController white normal 0 0 3 [(black, 1); (white, 1)]
           0 4 [(white, 2)]).
  - apply reachable_tinyGame.
  - apply safeCounters_fresh; [reflexivity|reflexivity|simpl; lia].
  - reflexivity.
  - discriminate.
  - vm_compute. reflexivity.
  - vm_compute. reflexivity.
Defined.

(** X22.  In a running game on a board with a cell, the reply of the
    opponent (normal or hard tier) always places a stone: [getNextMove]
    returns an empty cell, the engine accepts it, and the log grows by
    that move, made in the colour of the player to move. *)
Theorem makeAIMove_places_a_stone c s d k now :
  reachable (ctlGame c) →
  ctlAi c = Some (s, d) →
  d ≠ easy →
  gameStatus (ctlGame c) = playing →
  0 < boardSize (config (ctlGame c)) →
  ∃ p,
    getNextMove (mkAI (ctlGame c) d s) k = Some p ∧
    p ∈ getEmptyPositions (ctlGame c) ∧
    ctlGame (makeAIMove c k now) = (placeStone (ctlGame c) p now).2 ∧
    history (ctlGame (makeAIMove c k now)) =
    history (ctlGame c) ++
    [mkHistoryItem p (currentPlayer (ctlGame c))
                   (Z.of_nat (length (history (ctlGame c))) + 1) now].
Proof.
  intros Hreach Hai Hd Hs Hn.
  destruct (ai_reply (ctlGame c) s d k Hreach Hs Hn Hd) as (p & Hp & Hin).
  pose proof (placeStone_accepts (ctlGame c) p now Hs Hin) as Htrue.
  exists p. do 2 (split; [done|]).
  assert (Hg : ctlGame (makeAIMove c k now) = (placeStone (ctlGame c) p now).2).
  { rewrite (makeAIMove_accepted c s d k now p Hai Hp Htrue). by case_bool_decide. }
  split; [done|]. rewrite Hg.
  destruct (placeStone_players (ctlGame c) p now) as [E|(_ & _ & _ & E)];
    [by rewrite E in Htrue|done].
Qed.

Lemma makeAIMove_places_a_stone_witness :
  ∃ p,
    getNextMove (mkAI (ctlGame tinyController) normal white) 0 = Some p ∧
    p ∈ getEmptyPositions (ctlGame tinyController) ∧
    ctlGame (makeAIMove tinyController 0 7) = (placeStone (ctlGame tinyController) p 7).2 ∧
    history (ctlGame (makeAIMove tinyController 0 7)) =
    history (ctlGame tinyController) ++
    [mkHistoryItem p (currentPlayer (ctlGame tinyController))
                   (Z.of_nat (length (history (ctlGame tinyController))) + 1) 7].
Proof.
  apply (makeAIMove_places_a_stone tinyController white normal 0 7).
  - apply reachable_tinyGame.
  - reflexivity.
  - discriminate.
  - reflexivity.
  - vm_compute. reflexivity.
Defined.

(** X23.  A click and a reply of the opponent book a game in the
    statistics exactly when the stone they place ends it, once, and in
    the column of its outcome: a win for black, a win for white, or a
    draw (a paused game is never booked as a draw). *)
Theorem game_end_counted_once c row col now k :
  countedOnce c (handleCellClick c row col now).1 ∧
  countedOnce c (makeAIMove c k now).
Proof.
  assert (Hplace : ∀ p,
    (placeStone (ctlGame c) p now).1 = true →
    (placeStone (ctlGame c) p now).2 ≠ ctlGame c ∧
    gameStatus (placeStone (ctlGame c) p now).2 ≠ paused).
  { intros p Htrue. destruct (placeStone_true _ p now Htrue) as (Hv & Hc & Hs). split.
    - destruct (placeStone_players (ctlGame c) p now) as [E|(_ & _ & _ & E)];
        [by rewrite E in Htrue|].
      intros E'. rewrite E' in E. apply (f_equal length) in E.
      rewrite length_app in E. simpl in E. lia.
    - destruct (placeStone_outcome _ p now Hv Hc Hs)
        as [(a & l & _ & _ & _ & _ & _ & ->)|[(_ & _ & ->)|(_ & _ & ->)]]; cbn [snd];
        [by destruct (currentPlayer (ctlGame c))|done|].
      simpl. by rewrite Hs. }
  assert (Hbook : ∀ p,
    (placeStone (ctlGame c) p now).1 = true →
    countedOnce c
      (if negb (bool_decide (gameStatus (placeStone (ctlGame c) p now).2 = playing))
       then handleGameEnd (withGame c (placeStone (ctlGame c) p now).2)
                          (gameStatus (placeStone (ctlGame c) p now).2)
       else withGame c (placeStone (ctlGame c) p now).2)).
  { intros p Htrue. destruct (Hplace p Htrue) as [Hne Hnp]. right.
    case_bool_decide as Hs; cbn [negb ctlGame withGame handleGameEnd statistics].
    - rewrite Hs. done.
    - do 2 (split; [done|]).
      by destruct (gameStatus (placeStone (ctlGame c) p now).2). }
  split.
  - unfold handleCellClick. cbv zeta.
    destruct (bool_decide (is_Some (ctlAi c)) && _); [by left|].
    destruct (placeStone (ctlGame c) (mkPosition row col) now).1 eqn:Htrue.
    + specialize (Hbook _ Htrue). cbn [ctlGame withGame ctlAi]. unfold getGameStatus.
      destruct (negb _); [done|]. by destruct (_ && _).
    + rewrite (placeStone_false _ _ _ Htrue). cbn [fst snd]. rewrite withGame_id. by left.
  - unfold makeAIMove. destruct (theAI c) as [ai|]; [|by left].
    destruct (getNextMove ai k) as [p|]; [|by left]. cbv zeta.
    destruct (placeStone (ctlGame c) p now).1 eqn:Htrue.
    + specialize (Hbook _ Htrue). cbn [ctlGame withGame]. unfold getGameStatus.
      by destruct (negb _).
    + rewrite (placeStone_false _ _ _ Htrue). cbn [fst snd]. rewrite withGame_id. by left.
Qed.

(** X24.  Pausing freezes the game: while the status is [paused] a
    click, a reply of the opponent and [undoMove] change nothing, and
    [togglePause] gives back the controller exactly as it was before the
    pause. *)
Theorem pause_freezes_the_game c row col now k :
  gameStatus (ctlGame c) = playing →
  (handleCellClick (togglePause c) row col now).1 = togglePause c ∧
  makeAIMove (togglePause c) k now = togglePause c ∧
  undoMove (togglePause c) = togglePause c ∧
  togglePause (togglePause c) = c.
Proof.
  intros Hs.
  assert (Htp : togglePause c = withGame c (setGameStatus (ctlGame c) paused)).
  { unfold togglePause, getGameStatus. by rewrite bool_decide_eq_true_2. }
  rewrite Htp. clear Htp.
  set (c1 := withGame c (setGameStatus (ctlGame c) paused)).
  assert (Hp : gameStatus (ctlGame c1) = paused) by done.
  assert (Hplace : ∀ p, placeStone (ctlGame c1) p now = (false, ctlGame c1)).
  { intros p. apply placeStone_rejected. right. right. by rewrite Hp. }
  split; [|split; [|split]].
  - unfold handleCellClick. cbv zeta.
    destruct (bool_decide (is_Some (ctlAi c1)) && _); [done|].
    rewrite Hplace. cbn [fst snd]. apply withGame_id.
  - unfold makeAIMove. destruct (theAI c1) as [ai|]; [|done].
    destruct (getNextMove ai k) as [p|]; [|done]. cbv zeta.
    rewrite Hplace. cbn [fst snd]. apply withGame_id.
  - unfold undoMove. cbv zeta. rewrite undo_rejected by (right; by rewrite Hp).
    cbn [fst snd]. apply withGame_id.
  - unfold togglePause, getGameStatus. rewrite Hp.
    rewrite bool_decide_eq_false_2, bool_decide_eq_true_2 by done.
    subst c1. destruct c as [g ? ? ? ? ?]. unfold withGame, setGameStatus, set_gameStatus.
    cbn in *. destruct g. cbn in *. by subst.
Qed.

Lemma pause_freezes_the_game_witness :
  (handleCellClick (togglePause tinyController) 1 1 8).1 = togglePause tinyController ∧
  makeAIMove (togglePause tinyController) 0 8 = togglePause tinyController ∧
  undoMove (togglePause tinyController) = togglePause tinyController ∧
  togglePause (togglePause tinyController) = tinyController.
Proof.
  apply (pause_freezes_the_game tinyController 1 1 8 0).
  reflexivity.
Defined.

(** ** Review mode *)

Lemma getHistory_history g : getHistory g = history g.
Proof. unfold getHistory. apply map_id. Qed.

Lemma set_lastMove_id g : set_lastMove g (lastMove g) = g.
Proof. by destruct g. Qed.

(** On the log of an engine the loop of [replayToStep] does not throw. *)
Lemma replayThrows_log c g x (j : nat) :
  reachable g →
  ctlGame c = set_lastMove g x →
  reviewHistory c = history g →
  reviewIndex c = Z.of_nat j →
  (j <= length (history g))%nat →
  replayThrows c = false.
Proof.
  intros Hreach Hg Hh Hi Hj. unfold replayThrows.
  pose proof (reachable_invariant g Hreach) as Hinv.
  apply negb_false_iff, forallb_forall. intros i Hin%in_seq.
  rewrite Hi, Nat2Z.id in Hin. rewrite Hh.
  destruct (lookup_lt_is_Some_2 (history g) i ltac:(lia)) as [item Hitem].
  rewrite Hitem. apply bool_decide_eq_true.
  destruct (inv_cells g Hinv item) as [s Hs]; [by eapply list_elem_of_lookup_2|].
  pose proof (cellAt_inBounds g _ _ _ (inv_square g Hinv) Hs) as Hb.
  apply inBounds_true in Hb.
  rewrite Hg, getBoard_board. cbn [board set_lastMove].
  rewrite (boardLength_square g (inv_square g Hinv)). lia.
Qed.

(** The controller after [startReview] and [j] calls of [nextStep]. *)
Lemma review_iter c (j : nat) :
  reachable (ctlGame c) →
  history (ctlGame c) ≠ [] →
  (j <= length (history (ctlGame c)))%nat →
  Nat.iter j nextStep (startReview c) =
  mkGameController
    (set_lastMove (ctlGame c)
       (match j with
        | O => lastMove (ctlGame c)
        | S i => position <$> history (ctlGame c) !! i
        end))
    (ctlAi c) (statistics c) true (history (ctlGame c)) (Z.of_nat j).
Proof.
  intros Hreach Hne. induction j as [|j IH]; intros Hj.
  - cbn [Nat.iter nat_rect]. unfold startReview. cbv zeta. rewrite getHistory_history.
    rewrite bool_decide_eq_false_2 by (by rewrite length_zero_iff_nil).
    by rewrite set_lastMove_id.
  - cbn [Nat.iter nat_rect]. change (nat_rect _ ?x (λ _, ?f) ?n) with (Nat.iter n f x).
    rewrite IH by lia. set (x := match j with O => _ | S _ => _ end).
    unfold nextStep. cbn [reviewIndex reviewHistory].
    destruct (Z.ltb_spec (Z.of_nat j) (Z.of_nat (length (history (ctlGame c))))); [|lia].
    unfold replayToStep.
    rewrite (replayThrows_log _ (ctlGame c) x (S j)); [|done|done|done|cbn; lia|done].
    cbn [withReviewIndex reviewIndex reviewHistory ctlGame ctlAi statistics isReviewMode
         withGame].
    destruct (Z.ltb_spec 0 (Z.of_nat j + 1)); [|lia].
    replace (Z.to_nat (Z.of_nat j + 1 - 1)) with j by lia.
    destruct (lookup_lt_is_Some_2 (history (ctlGame c)) j ltac:(lia)) as [item Hitem].
    rewrite Hitem. cbn [fmap option_fmap option_map].
    unfold withGame, withReviewIndex, set_lastMove.
    cbn [ctlGame ctlAi statistics isReviewMode reviewHistory reviewIndex
         board currentPlayer gameStatus winningPositions history lastMove config players].
    f_equal. lia.
Qed.

(** X25.  Stepping through a review: after [startReview] and [j] calls
    of [nextStep], with [j] from 1 to the length of the log, the cursor is
    at [j] and the engine is what it was except for the last move, which
    is the position of the [j]-th entry of the log; at the end of the log
    the engine is exactly what it was.  The board, the log, the status
    and the player to move are never touched. *)
Theorem review_steps_through_the_log c (j : nat) :
  reachable (ctlGame c) →
  (0 < j <= length (history (ctlGame c)))%nat →
  reviewIndex (Nat.iter j nextStep (startReview c)) = Z.of_nat j ∧
  ctlGame (Nat.iter j nextStep (startReview c)) =
  set_lastMove (ctlGame c) (position <$> history (ctlGame c) !! (j - 1)%nat) ∧
  (j = length (history (ctlGame c)) →
   ctlGame (Nat.iter j nextStep (startReview c)) = ctlGame c).
Proof.
  intros Hreach [H0 Hj].
  assert (Hne : history (ctlGame c) ≠ []) by (destruct (history (ctlGame c)); simpl in *; [lia|done]).
  rewrite (review_iter c j Hreach Hne Hj). cbn [reviewIndex ctlGame].
  destruct j as [|j]; [lia|]. replace (S j - 1)%nat with j by lia.
  do 2 (split; [done|]). intros Hlen.
  replace j with (pred (length (history (ctlGame c)))) by lia.
  rewrite <- last_lookup, <- (inv_last _ (reachable_invariant _ Hreach)).
  apply set_lastMove_id.
Qed.

Lemma review_steps_through_the_log_witness :
  reviewIndex (Nat.iter 2 nextStep (startReview (mkGameController tinyThreat None (mkStatistics 0 0 0 0) false [] 0)))
  = Z.of_nat 2 ∧
  ctlGame (Nat.iter 2 nextStep (startReview (mkGameController tinyThreat None (mkStatistics 0 0 0 0) false [] 0))) =
  set_lastMove (ctlGame (mkGameController tinyThreat None (mkStatistics 0 0 0 0) false [] 0))
    (position <$>
     history (ctlGame (mkGameController tinyThreat None (mkStatistics 0 0 0 0) false [] 0))
     !! (2 - 1)%nat) ∧
  (2%nat = length (history (ctlGame (mkGameController tinyThreat None (mkStatistics 0 0 0 0) false [] 0))) →
   ctlGame (Nat.iter 2 nextStep (startReview (mkGameController tinyThreat None (mkStatistics 0 0 0 0) false [] 0)))
   = ctlGame (mkGameController tinyThreat None (mkStatistics 0 0 0 0) false [] 0)).
Proof.
  apply (review_steps_through_the_log
           (mkGameController tinyThreat None (mkStatistics 0 0 0 0) false [] 0) 2).
  - apply reachable_tinyThreat.
  - vm_compute. lia.
Defined.

(** ** The simulation and the engine *)

(** On a square board of a running game: the cells that the simulation
    of the opponent finds winning for the player to move are the cells on
    which the engine accepts a stone and declares that player the
    winner. *)
Lemma winsAt_iff_placeStone g p now :
  boardSquare g →
  gameStatus g = playing →
  p ∈ getEmptyPositions g ∧ winsAt (board g) (currentPlayer g) (winCount (config g)) p = true ↔
  (placeStone g p now).1 = true ∧
  gameStatus (placeStone g p now).2 = winStatus (currentPlayer g).
Proof.
  intros Hsq Hs. split; [intros [Hin Hw]; by apply winsAt_placeStone|].
  intros [Htrue Hwin].
  destruct (placeStone_true g p now Htrue) as (Hv & Hc & _).
  assert (Hin : p ∈ getEmptyPositions g)
    by (apply getEmptyPositions_elem; by rewrite <- isValidPosition_inBounds).
  split; [done|].
  pose proof (stonePlaced_holds g p now Hv Hc) as Hp.
  unfold winsAt, checkWinAt.
  change (setCell (board g) (row p) (col p) (Some (currentPlayer g)))
    with (board (stonePlaced g p now)).
  change (winCount (config g)) with (winCount (config (stonePlaced g p now))).
  rewrite (checkWinAt_loop_checkWin_loop (stonePlaced g p now) p (currentPlayer g));
    [|cbn [config board stonePlaced]; unfold boardLength; rewrite length_setCell;
      symmetry; apply (boardLength_square g Hsq)|apply Hp].
  fold (checkWin (stonePlaced g p now) p).
  destruct (placeStone_outcome g p now Hv Hc Hs)
    as [(a & l & [Hr _] & _)|[(_ & _ & E)|(_ & _ & E)]].
  - destruct (checkWin_spec (stonePlaced g p now) p (currentPlayer g) Hp)
      as [(a' & l' & _ & -> & _)|[Hno _]]; [done|by destruct (Hno a)].
  - rewrite E in Hwin. simpl in Hwin. by destruct (currentPlayer g).
  - rewrite E in Hwin. simpl in Hwin. rewrite Hs in Hwin. by destruct (currentPlayer g).
Qed.

Lemma played_placeAll g0 g calls : played g0 g → played g0 (placeAll g calls).1.
Proof.
  revert g. induction calls as [|[p now] calls IH]; intros g Hg; [done|].
  simpl. by apply IH, played_place.
Qed.

(** X26.  A game without [undo] is over after at most
    [boardSize * boardSize] stones: of any sequence of [placeStone] calls
    on a constructed engine at most that many are accepted, and when that
    many were, the game is neither running nor paused. *)
Theorem game_over_within_board cfg g0 calls :
  constructor cfg = Some g0 →
  ((placeAll g0 calls).2 <=
   Z.to_nat (boardSize (config g0)) * Z.to_nat (boardSize (config g0)))%nat ∧
  (0 < boardSize (config g0) →
   (placeAll g0 calls).2 =
   (Z.to_nat (boardSize (config g0)) * Z.to_nat (boardSize (config g0)))%nat →
   gameStatus (placeAll g0 calls).1 ≠ playing ∧ gameStatus (placeAll g0 calls).1 ≠ paused).
Proof.
  intros Hc.
  assert (Hreach : reachable (placeAll g0 calls).1)
    by (by apply placeAll_reachable, (reach_new cfg)).
  pose proof (reachable_invariant _ Hreach) as Hinv.
  pose proof (played_placeAll g0 g0 calls (played_start g0)) as Hp.
  pose proof (placeAll_history_length g0 calls) as Hlen.
  unfold constructor in Hc. case_decide; [|done]. injection Hc as <-.
  pose proof (played_config _ _ Hp) as Hcfg.
  set (g0 := mkGame _ _ _ _ _ _ _ _) in *. set (g := (placeAll g0 calls).1) in *.
  cbn [history] in Hlen.
  pose proof (getEmptyPositions_count g (inv_square g Hinv)) as Hcount.
  rewrite (inv_count g Hinv), Hcfg, Hlen in Hcount. cbn [length] in Hcount.
  split; [lia|]. intros Hn Hfull.
  assert (He : getEmptyPositions g = []) by (apply length_zero_iff_nil; lia).
  split; intros Hs.
  - by destruct (reachable_open g Hreach); [left|rewrite Hcfg|].
  - by destruct (reachable_open g Hreach); [right|rewrite Hcfg|].
Qed.

Lemma game_over_within_board_witness :
  ((placeAll smallGame [(mkPosition 0 0, 1%Z); (mkPosition 0 0, 2%Z); (mkPosition 1 1, 3%Z)]).2 <=
   Z.to_nat (boardSize (config smallGame)) * Z.to_nat (boardSize (config smallGame)))%nat ∧
  (0 < boardSize (config smallGame) →
   (placeAll smallGame [(mkPosition 0 0, 1%Z); (mkPosition 0 0, 2%Z); (mkPosition 1 1, 3%Z)]).2 =
   (Z.to_nat (boardSize (config smallGame)) * Z.to_nat (boardSize (config smallGame)))%nat →
   gameStatus (placeAll smallGame [(mkPosition 0 0, 1%Z); (mkPosition 0 0, 2%Z); (mkPosition 1 1, 3%Z)]).1
   ≠ playing ∧
   gameStatus (placeAll smallGame [(mkPosition 0 0, 1%Z); (mkPosition 0 0, 2%Z); (mkPosition 1 1, 3%Z)]).1
   ≠ paused).
Proof.
  apply (game_over_within_board smallConfig smallGame
           [(mkPosition 0 0, 1%Z); (mkPosition 0 0, 2%Z); (mkPosition 1 1, 3%Z)]).
  vm_compute. reflexivity.
Defined.

(** X27.  On the square board of a running game, [findWinningMoves]
    lists exactly the cells on which the engine, were it the opponent's
    turn, would accept a stone and declare the opponent the winner; and
    [findBlockingMoves] exactly those on which it would do so for the
    other player. *)
Theorem find_moves_are_winning_placements ai p now :
  boardSquare (game ai) →
  gameStatus (game ai) = playing →
  (p ∈ findWinningMoves ai (getBoard (game ai)) (getEmptyPositions (game ai)) ↔
   (placeStone (set_currentPlayer (game ai) (aiStone ai)) p now).1 = true ∧
   gameStatus (placeStone (set_currentPlayer (game ai) (aiStone ai)) p now).2
   = winStatus (aiStone ai)) ∧
  (p ∈ findBlockingMoves ai (getBoard (game ai)) (getEmptyPositions (game ai)) ↔
   (placeStone (set_currentPlayer (game ai) (opponentOf (aiStone ai))) p now).1 = true ∧
   gameStatus (placeStone (set_currentPlayer (game ai) (opponentOf (aiStone ai))) p now).2
   = winStatus (opponentOf (aiStone ai))).
Proof.
  intros Hsq Hs.
  pose proof (getEmptyPositions_allEmpty (game ai)) as He.
  unfold findWinningMoves, findBlockingMoves, getConfig.
  rewrite createBoardCopy_id, !(collectWins_filter _ _ _ _ [] He), getBoard_board.
  cbn [app]. rewrite !list_elem_of_filter.
  split.
  - rewrite <- (winsAt_iff_placeStone (set_currentPlayer (game ai) (aiStone ai)) p now Hsq Hs).
    tauto.
  - rewrite <- (winsAt_iff_placeStone (set_currentPlayer (game ai) (opponentOf (aiStone ai)))
                  p now Hsq Hs).
    tauto.
Qed.

Lemma find_moves_are_winning_placements_witness :
  (mkPosition 1 2 ∈ findWinningMoves (mkAI tinyRace normal white)
                      (getBoard (game (mkAI tinyRace normal white)))
                      (getEmptyPositions (game (mkAI tinyRace normal white))) ↔
   (placeStone (set_currentPlayer (game (mkAI tinyRace normal white))
                  (aiStone (mkAI tinyRace normal white))) (mkPosition 1 2) 6).1 = true ∧
   gameStatus (placeStone (set_currentPlayer (game (mkAI tinyRace normal white))
                             (aiStone (mkAI tinyRace normal white))) (mkPosition 1 2) 6).2
   = winStatus (aiStone (mkAI tinyRace normal white))) ∧
  (mkPosition 1 2 ∈ findBlockingMoves (mkAI tinyRace normal white)
                      (getBoard (game (mkAI tinyRace normal white)))
                      (getEmptyPositions (game (mkAI tinyRace normal white))) ↔
   (placeStone (set_currentPlayer (game (mkAI tinyRace normal white))
                  (opponentOf (aiStone (mkAI tinyRace normal white)))) (mkPosition 1 2) 6).1
   = true ∧
   gameStatus (placeStone (set_currentPlayer (game (mkAI tinyRace normal white))
                             (opponentOf (aiStone (mkAI tinyRace normal white))))
                          (mkPosition 1 2) 6).2
   = winStatus (opponentOf (aiStone (mkAI tinyRace normal white)))).
Proof.
  apply (find_moves_are_winning_placements (mkAI tinyRace normal white) (mkPosition 1 2) 6).
  - apply inv_square, reachable_invariant, reachable_tinyRace.
  - vm_compute. reflexivity.
Defined.

(** X28.  The buttons are disabled exactly when they would do nothing:
    [updateUI] disables the undo button exactly when [undoMove] would
    leave the controller as it is, and the pause button exactly when
    [togglePause] would. *)
Theorem buttons_disabled_iff_no_effect c :
  (undoBtnDisabled c = true ↔ undoMove c = c) ∧
  (pauseBtnDisabled c = true ↔ togglePause c = c).
Proof.
  unfold undoBtnDisabled, pauseBtnDisabled, getGameStatus. rewrite getHistory_history.
  split.
  - rewrite orb_true_iff, negb_true_iff, bool_decide_eq_true, bool_decide_eq_false,
      length_zero_iff_nil.
    unfold undoMove. cbv zeta. split.
    + intros Hd. rewrite undo_rejected by done. cbn [fst snd]. apply withGame_id.
    + intros Hsame.
      destruct (undo_players (ctlGame c)) as [E|(h & item & Hh & Hs & Htrue & _ & _ & Hh')].
      { destruct (decide (gameStatus (ctlGame c) = playing)) as [Hs|]; [|by right].
        left. destruct (history (ctlGame c)) as [|x l] eqn:Hh; [done|].
        destruct (last_is_Some (x :: l)) as [_ [item Hl]]; [done|].
        apply last_Some in Hl as [h' Hh'].
        rewrite <- Hh in Hh'.
        by rewrite (undo_accepted _ h' item Hh' Hs) in E. }
      exfalso. rewrite Htrue in Hsame. cbn [ctlGame withGame ctlAi] in Hsame.
      assert (Hlen : ∀ c', ctlGame c' = ctlGame c →
                (length (history (ctlGame c')) = length h + 1)%nat)
        by (intros c' ->; rewrite Hh, length_app; simpl; lia).
      destruct (_ && _).
      * specialize (Hlen _ (f_equal ctlGame Hsame)). cbn [ctlGame withGame] in Hlen.
        destruct (undo_players (undo (ctlGame c)).2) as [E|(h2 & item2 & Hh2 & _ & _ & _ & _ & E)].
        -- rewrite E in Hlen. cbn [snd] in Hlen. rewrite Hh' in Hlen. lia.
        -- rewrite E in Hlen. rewrite Hh' in Hh2.
           rewrite Hh2, length_app in Hlen. simpl in Hlen. lia.
      * specialize (Hlen _ (f_equal ctlGame Hsame)). cbn [ctlGame withGame] in Hlen.
        rewrite Hh' in Hlen. lia.
  - rewrite !orb_true_iff, !bool_decide_eq_true. unfold togglePause, getGameStatus. split.
    + intros [[Hs|Hs]|Hs]; rewrite Hs;
        by rewrite !bool_decide_eq_false_2 by done.
    + intros Hsame.
      destruct (gameStatus (ctlGame c)) eqn:Hs; [|tauto|tauto|tauto|].
      * rewrite bool_decide_eq_true_2 in Hsame by done.
        apply (f_equal (λ c', gameStatus (ctlGame c'))) in Hsame.
        cbn in Hsame. congruence.
      * rewrite bool_decide_eq_false_2, bool_decide_eq_true_2 in Hsame by done.
        apply (f_equal (λ c', gameStatus (ctlGame c'))) in Hsame.
        cbn in Hsame. congruence.
Qed.
